(** * oggloop: LOOPSTART and LOOPLENGTH of an Ogg/Vorbis stream

    A shallow embedding of the two versions of [Read] of package [oggloop]:

    - [Early.Read], src/oggloop.go: every failing read returns at once;
    - [Latched.Read], src/unnamed/part_000: the [errReader] version, which
      latches the first error on the reader and reports it when [Read]
      ends.

    The byte source ([io.Reader]) is an in-memory stream, the list of the
    bytes it still has to deliver; it fails only by running out of bytes.
    Go's [int] is the 64-bit one: every quantity the scanner computes stays
    far below 2^63 and is a [Z] without wrap-around; the width matters in
    [strconv.Atoi] only, whose range checks are written out.  A run of
    [Read] returns its three results or panics; the loops of the model
    take fuel, and [Early_Read_total] and [Latched_Read_total] show that
    the fuel [Read] gives them is never used up. *)

From Stdlib Require Import ZArith NArith List Lia Bool.
From Stdlib Require Import Strings.Byte Strings.String.
Import Corelib.Init.Datatypes ListNotations.
Local Open Scope Z_scope.

(** ** The Go library functions the package calls *)

Module Go.

Definition stream := list byte.

(** [int(b)] for a byte [b]. *)
Definition int (b : byte) : Z := Z.of_N (Byte.to_N b).

(** [string(b) == lit] on byte slices. *)
Definition bytes_eqb (a b : list byte) : bool :=
  if list_eq_dec Byte.byte_eq_dec a b then true else false.

(** [make([]byte, n)] for [0 <= n]: [n] zero bytes. *)
Definition zeros (n : nat) : list byte := repeat x00 n.

(** Errors that [Read] can return. *)
Inductive error : Type :=
| EOF                              (* io.EOF *)
| ErrUnexpectedEOF                 (* io.ErrUnexpectedEOF *)
| ErrSkipByte (n : Z)              (* "oggloop: skipping byte should be positive: %d" *)
| ErrReadingBytes (n : Z)          (* "oggloop: reading bytes should be positive: %d" *)
| ErrSkippingBytes (n : Z).        (* "oggloop: skipping bytes should be positive: %d" *)

(** [io.ReadFull(src, buf)] with [len(buf) = n]: the buffer afterwards, the
    source afterwards and the error.  A source that holds fewer than [n]
    bytes gives them all, leaves the rest of the buffer as it was (zero)
    and fails with [io.EOF] when it gave nothing, with
    [io.ErrUnexpectedEOF] otherwise.  Reading zero bytes succeeds. *)
Definition ReadFull (n : nat) (src : stream) : list byte * stream * option error :=
  if (n <=? length src)%nat then (firstn n src, skipn n src, None)
  else (src ++ zeros (n - length src), [],
        Some (match src with [] => EOF | _ :: _ => ErrUnexpectedEOF end)).

(** *** strconv.Atoi (IntSize = 64) *)

Inductive num_error : Type :=
| ErrSyntax                        (* strconv.ErrSyntax *)
| ErrRange.                        (* strconv.ErrRange *)

Inductive parsed : Type :=
| Num (n : Z)
| NumError (e : num_error).

Definition is_digit (c : byte) : bool :=
  (48 <=? int c) && (int c <=? 57).

Definition maxUint64 : Z := 2 ^ 64 - 1.

(** The loop of [ParseUint(s, 10, 64)] over the bytes of [s], from the
    value [n] read so far.  A letter is a digit of value 10 or more, which
    base 10 refuses like any other non-digit.  [n * 10] cannot wrap below
    the cutoff; [n + d] is computed modulo 2^64 as the code does. *)
Fixpoint ParseUint_loop (s : list byte) (n : Z) : parsed :=
  match s with
  | [] => Num n
  | c :: s' =>
      if negb (is_digit c) then NumError ErrSyntax
      else
        let d := int c - 48 in
        if n >=? maxUint64 / 10 + 1 then NumError ErrRange
        else
          let n := n * 10 in
          let n1 := (n + d) mod 2 ^ 64 in
          if (n1 <? n) || (n1 >? maxUint64) then NumError ErrRange
          else ParseUint_loop s' n1
  end.

Definition ParseUint (s : list byte) : parsed :=
  match s with
  | [] => NumError ErrSyntax
  | _ => ParseUint_loop s 0
  end.

(** [ParseInt(s, 10, 0)]. *)
Definition ParseInt (s : list byte) : parsed :=
  match s with
  | [] => NumError ErrSyntax
  | c :: s' =>
      let neg := Byte.eqb c "-"%byte in
      let s1 := if Byte.eqb c "+"%byte || neg then s' else s in
      match ParseUint s1 with
      | NumError ErrSyntax => NumError ErrSyntax
      | NumError ErrRange => NumError ErrRange
      | Num un =>
          let cutoff := 2 ^ 63 in
          if negb neg && (un >=? cutoff) then NumError ErrRange
          else if neg && (un >? cutoff) then NumError ErrRange
          else Num (if neg then - un else un)
      end
  end.

(** The fast path of [Atoi]: fewer than 19 characters cannot overflow. *)
Fixpoint Atoi_fast (s : list byte) (n : Z) : parsed :=
  match s with
  | [] => Num n
  | ch :: s' =>
      if negb (is_digit ch) then NumError ErrSyntax
      else Atoi_fast s' (n * 10 + (int ch - 48))
  end.

Definition Atoi (s : list byte) : parsed :=
  let sLen := length s in
  if ((0 <? sLen) && (sLen <? 19))%nat then
    match s with
    | [] => NumError ErrSyntax
    | c :: s' =>
        let signed := Byte.eqb c "-"%byte || Byte.eqb c "+"%byte in
        let s1 := if signed then s' else s in
        if signed && (length s1 <? 1)%nat then NumError ErrSyntax
        else
          match Atoi_fast s1 0 with
          | Num n => Num (if Byte.eqb c "-"%byte then - n else n)
          | NumError e => NumError e
          end
    end
  else ParseInt s.

(** *** regexp: [KEY=([0-9]+)]

    [FindSubmatch] for a pattern that is a literal followed by one group
    [([0-9]+)]: the match is the leftmost one, the group is greedy.  The
    result is the text of group 1 ([m[1]]) when there is a match
    ([len(m) > 1]) and [None] when there is none ([m == nil]). *)

Fixpoint has_prefix (lit s : list byte) : option (list byte) :=
  match lit, s with
  | [], _ => Some s
  | c :: lit', d :: s' => if Byte.eqb c d then has_prefix lit' s' else None
  | _ :: _, [] => None
  end.

Fixpoint digits_of (s : list byte) : list byte :=
  match s with
  | c :: s' => if is_digit c then c :: digits_of s' else []
  | [] => []
  end.

Definition match_at (lit s : list byte) : option (list byte) :=
  match has_prefix lit s with
  | Some rest =>
      match digits_of rest with
      | [] => None
      | ds => Some ds
      end
  | None => None
  end.

Fixpoint FindSubmatch (lit s : list byte) : option (list byte) :=
  match match_at lit s with
  | Some ds => Some ds
  | None =>
      match s with
      | [] => None
      | _ :: s' => FindSubmatch lit s'
      end
  end.

(** What stops a Go program instead of returning. *)
Inductive panic : Type :=
| MakesliceLenOutOfRange           (* make([]byte, n) with n < 0 *)
| AtoiPanic (e : num_error).       (* panic(err) after strconv.Atoi *)

End Go.

Import Go.

Definition OggS : list byte := Eval cbv in list_byte_of_string "OggS"%string.
Definition vorb : list byte := Eval cbv in list_byte_of_string "vorb"%string.

(** [loopStartRe] and [loopLengthRe]: the literal part of each pattern. *)
Definition loopStartRe : list byte := Eval cbv in list_byte_of_string "LOOPSTART="%string.
Definition loopLengthRe : list byte := Eval cbv in list_byte_of_string "LOOPLENGTH="%string.

(** ** Computations over a reader

    A computation takes the state of the reader and gives a value and the
    new state, or stops: with an error of type [E] to return at once (the
    early-return version; the latched version has no such exit, its [E] is
    empty), with a panic, or because a loop of the model used up its fuel
    ([Fuel], shown below never to happen). *)

Inductive result (S E A : Type) : Type :=
| Ok (a : A) (s : S)
| Err (e : E)
| Panic (p : panic)
| Fuel.
Arguments Ok {S E A} a s.
Arguments Err {S E A} e.
Arguments Panic {S E A} p.
Arguments Fuel {S E A}.

Definition M (S E A : Type) : Type := S -> result S E A.

Definition ret {S E A} (a : A) : M S E A := fun s => Ok a s.

Definition bind {S E A B} (m : M S E A) (k : A -> M S E B) : M S E B :=
  fun s =>
    match m s with
    | Ok a s' => k a s'
    | Err e => Err e
    | Panic p => Panic p
    | Fuel => Fuel
    end.

Definition throw {S E A} (e : E) : M S E A := fun _ => Err e.
Definition raise {S E A} (p : panic) : M S E A := fun _ => Panic p.

Notation "x <- m ;; k" := (bind m (fun x => k))
  (at level 61, m at next level, right associativity).
Notation "' pat <- m ;; k" := (bind m (fun x => match x with pat => k end))
  (at level 61, pat pattern, m at next level, right associativity).
Notation "m ;;; k" := (bind m (fun _ => k))
  (at level 61, right associativity).

(** What [Read] gives its caller: the three results, or a panic;
    [Diverged] stands for a loop of the model that used up its fuel. *)
Inductive outcome : Type :=
| Returned (loopStart loopLength : Z) (err : option error)
| Panicked (p : panic)
| Diverged.

(** The state of the scan between two segments: the two named results and
    [headerFound]. *)
Record acc : Type := Acc { loopStart : Z; loopLength : Z; headerFound : bool }.

(** [for ; i < len(segs); i++ { size += int(segs[i]); if segs[i] < 255 { break } }]
    on [rest = segs[i:]]: the index and the size when the loop is left. *)
Fixpoint packet_size (rest : list byte) (i : nat) (size : Z) : nat * Z :=
  match rest with
  | [] => (i, size)
  | b :: rest' =>
      let size := size + int b in
      if int b <? 255 then (i, size) else packet_size rest' (S i) size
  end.

(** ** src/oggloop.go: every failing read returns at once *)

Module Early.

(** [io.ReadFull(src, make([]byte, n))] followed by
    [if err != nil { return ..., err }]. *)
Definition readFull (n : nat) : M stream error (list byte) :=
  fun src =>
    match ReadFull n src with
    | (buf, src', None) => Ok buf src'
    | (_, _, Some e) => Err e
    end.

Definition skip (n : Z) : M stream error unit :=
  if n =? 0 then ret tt
  else if n <? 0 then throw (ErrSkipByte n)
  else readFull (Z.to_nat n) ;;; ret tt.

Definition readByte : M stream error byte :=
  b <- readFull 1 ;; ret (nth 0 b x00).

(** [make([]byte, size)] for a computed [size]: its length. *)
Definition make (size : Z) : M stream error nat :=
  if size <? 0 then raise MakesliceLenOutOfRange else ret (Z.to_nat size).

(** [if m := re.FindSubmatch(meta); len(m) > 1 { n, err := strconv.Atoi(string(m[1]));
    if err != nil { panic(err) }; v = n }]: the new value of [v]. *)
Definition tag (re meta : list byte) (v : Z) : M stream error Z :=
  match FindSubmatch re meta with
  | Some m1 =>
      match Atoi m1 with
      | Num n => ret n
      | NumError e => raise (AtoiPanic e)
      end
  | None => ret v
  end.

(** The tag extractor: both patterns on the payload [meta], from the values
    the named results have. *)
Definition tags (meta : list byte) (a : acc) : M stream error (Z * Z) :=
  ls <- tag loopStartRe meta (loopStart a) ;;
  ll <- tag loopLengthRe meta (loopLength a) ;;
  ret (ls, ll).

(** The body of [for i := 0; i < len(segs); i++] at index [i]: the index
    and the state it leaves. *)
Definition segment (segs : list byte) (i : nat) (a : acc) : M stream error (nat * acc) :=
  headerType <- readByte ;;
  b <- readFull 4 ;;
  if negb (bytes_eqb b vorb) then
    skip (int (nth i segs x00) - 5) ;;;
    ret (i, a)
  else if negb (int headerType =? 3) then
    skip (int (nth i segs x00) - 5) ;;;
    ret (i, Acc (loopStart a) (loopLength a) true)
  else
    let '(i, size) := packet_size (skipn i segs) i 0 in
    let size := size - 5 in
    n <- make size ;;
    meta <- readFull n ;;
    ' (ls, ll) <- tags meta a ;;
    ret (i, Acc ls ll true).

Fixpoint segments (fuel : nat) (segs : list byte) (i : nat) (a : acc) : M stream error acc :=
  if (i <? length segs)%nat then
    match fuel with
    | O => fun _ => Fuel
    | S fuel' =>
        ' (i', a') <- segment segs i a ;;
        segments fuel' segs (S i') a'
    end
  else ret a.

(** One page after its capture pattern: the fixed header, the segment
    table and the loop over the segments, from the values [ls] and [ll] of
    the named results. *)
Definition page (ls ll : Z) : M stream error acc :=
  skip (26 - 4) ;;;
  nseg <- readByte ;;
  segs <- readFull (Z.to_nat (int nseg)) ;;
  segments (length segs) segs 0 (Acc ls ll false).

(** The [for] loop over the pages; it is left by one of the two [break]s. *)
Fixpoint pages (fuel : nat) (ls ll : Z) : M stream error (Z * Z) :=
  match fuel with
  | O => fun _ => Fuel
  | S fuel' =>
      b <- readFull 4 ;;
      if negb (bytes_eqb b OggS) then ret (ls, ll)
      else
        a <- page ls ll ;;
        if negb (headerFound a) then ret (loopStart a, loopLength a)
        else pages fuel' (loopStart a) (loopLength a)
  end.

(** [Read]: every [return 0, 0, err] is an [Err]; the final [return] gives
    the named results with a nil error. *)
Definition Read (src : stream) : outcome :=
  match pages (S (length src)) 0 0 src with
  | Ok (ls, ll) _ => Returned ls ll None
  | Err e => Returned 0 0 (Some e)
  | Panic p => Panicked p
  | Fuel => Diverged
  end.

End Early.

(** ** src/unnamed/part_000: the first error is latched on the reader *)

Module Latched.

Record errReader : Type := ErrReader { r : stream; err : option error }.

(** [buf := make([]byte, n)] runs before every test, also for [n < 0]. *)
Definition ReadBytes (n : Z) : M errReader Empty_set (list byte) :=
  fun rd =>
    if n <? 0 then Panic MakesliceLenOutOfRange
    else
      let buf := zeros (Z.to_nat n) in
      match err rd with
      | Some _ => Ok buf rd
      | None =>
          if n =? 0 then Ok buf rd
          else if n <? 0 then Ok buf (ErrReader (r rd) (Some (ErrReadingBytes n)))
          else
            match ReadFull (Z.to_nat n) (r rd) with
            | (buf, src', e) => Ok buf (ErrReader src' e)
            end
      end.

Definition ReadByte : M errReader Empty_set byte :=
  b <- ReadBytes 1 ;; ret (nth 0 b x00).

Definition Skip (n : Z) : M errReader Empty_set unit :=
  fun rd =>
    match err rd with
    | Some _ => Ok tt rd
    | None =>
        if n =? 0 then Ok tt rd
        else if n <? 0 then Ok tt (ErrReader (r rd) (Some (ErrSkippingBytes n)))
        else (ReadBytes n ;;; ret tt) rd
    end.

Definition mustAtoi (str : list byte) : M errReader Empty_set Z :=
  match Atoi str with
  | Num n => ret n
  | NumError e => raise (AtoiPanic e)
  end.

(** [if m := re.FindSubmatch(meta); len(m) > 1 { v = mustAtoi(string(m[1])) }]:
    the new value of [v]. *)
Definition tag (re meta : list byte) (v : Z) : M errReader Empty_set Z :=
  match FindSubmatch re meta with
  | Some m1 => mustAtoi m1
  | None => ret v
  end.

Definition tags (meta : list byte) (a : acc) : M errReader Empty_set (Z * Z) :=
  ls <- tag loopStartRe meta (loopStart a) ;;
  ll <- tag loopLengthRe meta (loopLength a) ;;
  ret (ls, ll).

Definition segment (segs : list byte) (i : nat) (a : acc) : M errReader Empty_set (nat * acc) :=
  headerType <- ReadByte ;;
  b <- ReadBytes 4 ;;
  if negb (bytes_eqb b vorb) then
    Skip (int (nth i segs x00) - 5) ;;;
    ret (i, a)
  else if negb (int headerType =? 3) then
    Skip (int (nth i segs x00) - 5) ;;;
    ret (i, Acc (loopStart a) (loopLength a) true)
  else
    let '(i, size) := packet_size (skipn i segs) i 0 in
    let size := size - 5 in
    meta <- ReadBytes size ;;
    ' (ls, ll) <- tags meta a ;;
    ret (i, Acc ls ll true).

Fixpoint segments (fuel : nat) (segs : list byte) (i : nat) (a : acc) : M errReader Empty_set acc :=
  if (i <? length segs)%nat then
    match fuel with
    | O => fun _ => Fuel
    | S fuel' =>
        ' (i', a') <- segment segs i a ;;
        segments fuel' segs (S i') a'
    end
  else ret a.

Definition page (ls ll : Z) : M errReader Empty_set acc :=
  Skip (26 - 4) ;;;
  nseg <- ReadByte ;;
  segs <- ReadBytes (int nseg) ;;
  segments (length segs) segs 0 (Acc ls ll false).

Fixpoint pages (fuel : nat) (ls ll : Z) : M errReader Empty_set (Z * Z) :=
  match fuel with
  | O => fun _ => Fuel
  | S fuel' =>
      b <- ReadBytes 4 ;;
      if negb (bytes_eqb b OggS) then ret (ls, ll)
      else
        a <- page ls ll ;;
        if negb (headerFound a) then ret (loopStart a, loopLength a)
        else pages fuel' (loopStart a) (loopLength a)
  end.

(** [Read]: the deferred function stores the latched error, if any, in
    the named result [err]; the other two named results are returned as
    they are. *)
Definition Read (src : stream) : outcome :=
  match pages (S (S (length src))) 0 0 (ErrReader src None) with
  | Ok (ls, ll) rd => Returned ls ll (err rd)
  | Err e => match e with end
  | Panic p => Panicked p
  | Fuel => Diverged
  end.

End Latched.

(** ** Notions the statements are written with *)

(** The base-10 value of a run of digits. *)
Definition decimal (ds : list byte) : Z :=
  fold_left (fun n c => n * 10 + (int c - 48)) ds 0.

(** The largest [int]. *)
Definition maxInt : Z := 2 ^ 63 - 1.

(** The sum of the entries of a piece of a segment table. *)
Definition total (entries : list byte) : Z :=
  fold_right (fun e z => int e + z) 0 entries.

(** What follows a run of entries 255 ends the packet: an entry below 255,
    or the end of the table. *)
Definition closes_run (tail : list byte) : Prop :=
  match tail with t :: _ => int t < 255 | [] => True end.

(** [post] does not go on with a digit. *)
Definition starts_without_digit (post : list byte) : Prop :=
  match post with c :: _ => is_digit c = false | [] => True end.

(** In [s] the leftmost place where [lit] is followed by a digit is followed
    by exactly the run of digits [ds]. *)
Definition first_tag (lit ds s : list byte) : Prop :=
  exists pre post,
    s = pre ++ lit ++ ds ++ post /\
    ds <> [] /\ forallb is_digit ds = true /\
    starts_without_digit post /\
    forall k d rest, (k < length pre)%nat ->
      skipn k s = lit ++ d :: rest -> is_digit d = false.

(** [lit] is nowhere in [s] followed by a digit. *)
Definition no_tag (lit s : list byte) : Prop :=
  forall k d rest, skipn k s = lit ++ d :: rest -> is_digit d = false.

(** ** Streams as a muxer lays them out

    What the scanner meets at an entry of a segment table: a segment that
    is not the comment header (any five bytes of type and signature but
    [3] and ["vorb"], then the rest of the segment), or the comment packet,
    laced over as many entries as its size takes. *)

Inductive item : Type :=
| Segment (headerType : byte) (sig body : list byte)
| Comment (meta : list byte).

Definition byte_of (n : nat) : byte :=
  match Byte.of_nat n with Some c => c | None => x00 end.

(** The lacing values of a packet of [n] bytes. *)
Definition lacing (n : nat) : list byte :=
  repeat xff (n / 255) ++ [byte_of (n mod 255)].

Definition entries (it : item) : list byte :=
  match it with
  | Segment _ _ body => [byte_of (5 + length body)]
  | Comment meta => lacing (5 + length meta)
  end.

Definition content (it : item) : list byte :=
  match it with
  | Segment headerType sig body => headerType :: sig ++ body
  | Comment meta => x03 :: vorb ++ meta
  end.

Definition table (its : list item) : list byte := flat_map entries its.

Definition is_header (it : item) : bool :=
  match it with
  | Segment _ sig _ => bytes_eqb sig vorb
  | Comment _ => true
  end.

(** The value a tag has after the payload [meta], from the value [v]. *)
Definition tag_value (re meta : list byte) (v : Z) : Z :=
  match FindSubmatch re meta with
  | Some ds => decimal ds
  | None => v
  end.

(** The run of digits of the tag, if any, is the decimal of an [int]. *)
Definition tag_fits (re meta : list byte) : Prop :=
  match FindSubmatch re meta with
  | Some ds => decimal ds <= maxInt
  | None => True
  end.

Record ogg_page : Type := Page { fixed : list byte; items : list item }.

(** A segment that is not the comment header has its five bytes of type
    and signature and fits one entry of the table; the digits of the tags
    of a comment packet are decimals of [int]s. *)
Definition item_ok (it : item) : Prop :=
  match it with
  | Segment headerType sig body =>
      length sig = 4%nat /\ (length body <= 250)%nat /\
      (sig <> vorb \/ int headerType <> 3)
  | Comment meta => tag_fits loopStartRe meta /\ tag_fits loopLengthRe meta
  end.

(** The payloads of the comment packets, in the order of the stream. *)
Definition comments (ps : list ogg_page) : list (list byte) :=
  flat_map (fun p =>
    flat_map (fun it => match it with Comment meta => [meta] | Segment _ _ _ => [] end)
             (items p)) ps.

(** The state of the scan after an item. *)
Definition after_item (a : acc) (it : item) : acc :=
  match it with
  | Segment _ sig _ =>
      Acc (loopStart a) (loopLength a) (headerFound a || bytes_eqb sig vorb)
  | Comment meta =>
      Acc (tag_value loopStartRe meta (loopStart a))
          (tag_value loopLengthRe meta (loopLength a)) true
  end.

Definition encode_page (p : ogg_page) : list byte :=
  OggS ++ fixed p ++ byte_of (length (table (items p)))
       :: table (items p) ++ flat_map content (items p).

Definition page_ok (p : ogg_page) : Prop :=
  length (fixed p) = 22%nat /\
  (length (table (items p)) <= 255)%nat /\
  Forall item_ok (items p).

(** The values of the two results after a page, from [v]. *)
Definition after_page (v : Z * Z) (p : ogg_page) : Z * Z :=
  let a := fold_left after_item (items p) (Acc (fst v) (snd v) false) in
  (loopStart a, loopLength a).

Definition has_header (p : ogg_page) : bool := existsb is_header (items p).

(** How a stream makes the scan stop without an error: four bytes that are
    not the capture pattern, or a page without any Vorbis header. *)
Definition stops_scan (trailer : list byte) : Prop :=
  ((4 <= length trailer)%nat /\ firstn 4 trailer <> OggS) \/
  (exists p rest, trailer = encode_page p ++ rest /\
                  page_ok p /\ has_header p = false).

(** The framing alone: what [item_ok] and [page_ok] ask but for the tags. *)
Definition item_framed (it : item) : Prop :=
  match it with
  | Segment headerType sig body =>
      length sig = 4%nat /\ (length body <= 250)%nat /\
      (sig <> vorb \/ int headerType <> 3)
  | Comment _ => True
  end.

Definition page_framed (p : ogg_page) : Prop :=
  length (fixed p) = 22%nat /\
  (length (table (items p)) <= 255)%nat /\
  Forall item_framed (items p).

(** The values of the two results after a comment payload, from [v]. *)
Definition after_comment (v : Z * Z) (meta : list byte) : Z * Z :=
  (tag_value loopStartRe meta (fst v), tag_value loopLengthRe meta (snd v)).

(** [lit] occurs somewhere in [s]. *)
Fixpoint contains (lit s : list byte) : bool :=
  match has_prefix lit s with
  | Some _ => true
  | None =>
      match s with
      | [] => false
      | _ :: s' => contains lit s'
      end
  end.

(** ** The runs of the page loop

    [scanned c c']: from the values and the source of [c] the loop reads
    zero or more whole pages, each with a header found, and is at [c']. *)

Inductive scanned : Z * Z * stream -> Z * Z * stream -> Prop :=
| scanned_here (c : Z * Z * stream) : scanned c c
| scanned_page (ls ll : Z) (src src1 : stream) (a : acc) (src2 : stream)
               (c : Z * Z * stream) :
    Early.readFull 4 src = Ok OggS src1 ->
    Early.page ls ll src1 = Ok a src2 ->
    headerFound a = true ->
    scanned (loopStart a, loopLength a, src2) c ->
    scanned (ls, ll, src) c.

(** The first [break]: four bytes were read and are not the capture
    pattern. *)
Definition capture_mismatch (src : stream) : Prop :=
  exists b src1, Early.readFull 4 src = Ok b src1 /\ b <> OggS.

(** The second [break]: a page was read to its end, [headerFound] is still
    false and the two results are as they were. *)
Definition headerless_page (ls ll : Z) (src : stream) : Prop :=
  exists src1 src2,
    Early.readFull 4 src = Ok OggS src1 /\
    Early.page ls ll src1 = Ok (Acc ls ll false) src2.

(** ** Streams the statements name *)

Definition bytes (s : string) : list byte := list_byte_of_string s.

(** A trailer that stops the scan: an audio page, no Vorbis header in it. *)
Definition audio_page : ogg_page :=
  Page (zeros 22) [Segment x00 (bytes "audi") (bytes "o data")].

(** The identification header page that opens a stream. *)
Definition identification_page : ogg_page :=
  Page (zeros 22) [Segment x01 vorb (bytes "is" ++ zeros 23)].

(** The stream whose comment packet has the payload [meta], followed by
    the setup header in the same page. *)
Definition stream_with_comment (meta : list byte) : list byte :=
  encode_page identification_page
  ++ encode_page (Page (zeros 22) [Comment meta; Segment x05 vorb (bytes "is" ++ zeros 40)])
  ++ encode_page audio_page.

(** A comment payload that names LOOPSTART twice. *)
Definition tagged_twice : list byte :=
  bytes "LOOPSTART=7;LOOPSTART=100;LOOPLENGTH=200".

(** A comment payload with the two tags once each, length first. *)
Definition tagged_once : list byte :=
  bytes "title=x;LOOPLENGTH=200;LOOPSTART=100;artist=y".

(** A stream that ends right after the page of its comment packet. *)
Definition ends_after_comment : list byte :=
  encode_page identification_page
  ++ encode_page (Page (zeros 22) [Comment tagged_once]).

(** A page whose table is [0; 30]: an empty packet, then the comment
    header packet of 30 bytes. *)
Definition empty_packet_first : list byte :=
  OggS ++ zeros 22 ++ [x02; x00; x1e] ++ x03 :: vorb ++ bytes "is" ++ zeros 23.

(** A page whose table declares five entries and holds two. *)
Definition truncated_table : list byte :=
  OggS ++ zeros 22 ++ [x05; x1e; x1e].

(** A comment payload whose LOOPSTART tag goes on with a digit. *)
Definition tagged_longer : list byte :=
  bytes "LOOPSTART=1000;LOOPLENGTH=200".

(** A stream whose second page holds the comment packet with the payload
    [tagged_once] and a setup header packet of 258 bytes, laced as 255 and
    3: the last segment of the setup header is shorter than the five bytes
    the scanner reads to classify a segment. *)
Definition setup_ends_short : list byte :=
  encode_page identification_page
  ++ (OggS ++ zeros 22
      ++ [x03] ++ (lacing (5 + length tagged_once) ++ [xff; x03])
      ++ (x03 :: vorb ++ tagged_once)
      ++ (x05 :: vorb ++ bytes "is" ++ zeros 248) ++ zeros 3)
  ++ encode_page audio_page.

(** ** The two versions side by side *)

(** A reader on [src] that has latched no error. *)
Definition fresh (src : stream) : Latched.errReader := Latched.ErrReader src None.

(** [mB] follows [mA]: on a reader without latched error it gives the value
    and leaves the source that [mA] does; where [mA] returns an error it
    comes back with an error latched, if it comes back; it panics where
    [mA] does. *)
Definition follows {A} (mA : M stream error A)
           (mB : M Latched.errReader Empty_set A) : Prop :=
  forall src,
    match mA src with
    | Ok a src' => mB (fresh src) = Ok a (fresh src')
    | Err _ => forall a rd, mB (fresh src) = Ok a rd -> Latched.err rd <> None
    | Panic p => mB (fresh src) = Panic p
    | Fuel => True
    end.

(** A latched error stays latched. *)
Definition sticky {A} (m : M Latched.errReader Empty_set A) : Prop :=
  forall rd a rd',
    m rd = Ok a rd' -> Latched.err rd <> None -> Latched.err rd' <> None.

(** ** What a computation guarantees when it comes back *)

(** Every value [m] gives satisfies [Q]. *)
Definition post {S E A} (m : M S E A) (Q : A -> Prop) : Prop :=
  forall s a s', m s = Ok a s' -> Q a.

(** [m] never makes the measure [mu] of the reader larger. *)
Definition shrinks {S E A} (mu : S -> nat) (m : M S E A) : Prop :=
  forall s a s', m s = Ok a s' -> (mu s' <= mu s)%nat.

(** [m] never uses up the fuel of a loop. *)
Definition finishes {S E A} (m : M S E A) : Prop :=
  forall s, m s <> Fuel.

(** What a latched reader may still deliver: nothing once an error is
    latched. *)
Definition pending (rd : Latched.errReader) : nat :=
  match Latched.err rd with
  | None => S (length (Latched.r rd))
  | Some _ => O
  end.

(** ** Notions of the further properties *)

(** A value an [int] result can have after [strconv.Atoi] of digits. *)
Definition in_range (v : Z) : Prop := 0 <= v <= maxInt.

(** A reader that has latched [io.EOF] at the end of its source. *)
Definition at_eof : Latched.errReader := Latched.ErrReader [] (Some EOF).

(** A stream with two comment packets in two pages: the second one has a
    LOOPSTART tag only. *)
Definition two_comments : list ogg_page :=
  [identification_page;
   Page (zeros 22) [Comment (bytes "LOOPSTART=1;LOOPLENGTH=2")];
   Page (zeros 22) [Comment (bytes "LOOPSTART=3")]].

(** The two results of a state are values an [int] result can have. *)
Definition acc_in_range (a : acc) : Prop :=
  in_range (loopStart a) /\ in_range (loopLength a).

(** Every panic of [m] satisfies [P]; every error [m] returns satisfies [P];
    [m] keeps the invariant [I] of the reader. *)
Definition panics_in {S E A} (m : M S E A) (P : panic -> Prop) : Prop :=
  forall s p, m s = Panic p -> P p.

Definition errs_in {S E A} (m : M S E A) (P : E -> Prop) : Prop :=
  forall s e, m s = Err e -> P e.

Definition keeps {S E A} (I : S -> Prop) (m : M S E A) : Prop :=
  forall s a s', m s = Ok a s' -> I s -> I s'.

(** The panics of the scanner: a negative length given to [make], and the
    range error of [strconv.Atoi]. *)
Definition scanner_panic (p : panic) : Prop :=
  p = MakesliceLenOutOfRange \/ p = AtoiPanic ErrRange.

(** The errors of the early-return version: the two of a short read, and
    the negative skip of a segment of 0 to 4 bytes. *)
Definition early_error (e : error) : Prop :=
  e = EOF \/ e = ErrUnexpectedEOF \/ exists n, e = ErrSkipByte n /\ -5 <= n < 0.

(** The errors of the latched version. *)
Definition latched_error (e : error) : Prop :=
  e = EOF \/ e = ErrUnexpectedEOF \/ exists n, e = ErrSkippingBytes n /\ -5 <= n < 0.

Definition latched_error_or_none (rd : Latched.errReader) : Prop :=
  match Latched.err rd with
  | None => True
  | Some e => latched_error e
  end.

(** What a page takes from the source after its capture pattern: the 22
    bytes of fixed header, the number of entries, the table, and as many
    bytes as the entries of the table add up to; [src'] is what comes
    after the page. *)
Definition page_bytes (src src' : stream) : Prop :=
  exists hdr nseg segs body,
    src = hdr ++ nseg :: segs ++ body ++ src' /\
    length hdr = 22%nat /\
    Z.of_nat (length segs) = int nseg /\
    Z.of_nat (length body) = total segs.

(** The rest of a page that opens the stream, after its capture pattern. *)
Definition after_capture (p : ogg_page) : stream := skipn 4 (encode_page p).

(** What [m] gives, or panics with, on a source it gives, or panics with,
    on every source that goes on after it. *)
Definition stable {A} (m : M stream error A) : Prop :=
  forall src more,
    match m src with
    | Ok a src' => m (src ++ more) = Ok a (src' ++ more)
    | Panic p => m (src ++ more) = Panic p
    | Err _ => True
    | Fuel => True
    end.

(** The error of the [errReader] version for an error of src/oggloop.go:
    the two differ in the message of a skip of negative length. *)
Definition latched_of (e : error) : error :=
  match e with
  | ErrSkipByte n => ErrSkippingBytes n
  | _ => e
  end.

(** The reader has latched the error [e]. *)
Definition latched (e : error) (rd : Latched.errReader) : Prop :=
  Latched.err rd = Some e.

(** Where [mA] returns an error, [mB] comes back, if it does, with that
    error latched. *)
Definition same_error {A} (mA : M stream error A)
           (mB : M Latched.errReader Empty_set A) : Prop :=
  forall src e a rd,
    mA src = Err e -> mB (fresh src) = Ok a rd -> latched (latched_of e) rd.

(** A stream cut inside a comment payload whose LOOPSTART tag is no
    [int]. *)
Definition cut_in_payload : list byte :=
  encode_page identification_page
  ++ OggS ++ zeros 22 ++ [x01; x50] ++ x03 :: vorb
  ++ bytes "LOOPSTART=99999999999999999999".

(** A page laid out as [p] whose table goes on, after the entries of the
    items of [p], with an entry [t] and the entries [tail], and whose data
    go on with [data] after the contents of the items of [p]. *)
Definition page_going_on (p : ogg_page) (t : byte) (tail data : list byte) : list byte :=
  OggS ++ fixed p
       ++ byte_of (length (table (items p) ++ t :: tail))
       :: (table (items p) ++ t :: tail)
       ++ flat_map content (items p) ++ data.

(** The page of a comment packet and of a setup header of 255 bytes, for a
    setup header packet of 258 bytes. *)
Definition comment_and_setup : ogg_page :=
  Page (zeros 22) [Comment tagged_once; Segment x05 vorb (bytes "is" ++ zeros 248)].

(** * Properties *)

(** ** The library functions *)

Lemma int_range (c : byte) : 0 <= int c <= 255.
Proof.
  unfold int. pose proof (Byte.to_N_bounded c). lia.
Qed.

Lemma bytes_eqb_eq (a b : list byte) : bytes_eqb a b = true <-> a = b.
Proof.
  unfold bytes_eqb. destruct (list_eq_dec Byte.byte_eq_dec a b); split; congruence.
Qed.

Lemma bytes_eqb_refl (a : list byte) : bytes_eqb a a = true.
Proof. now apply bytes_eqb_eq. Qed.

Lemma bytes_eqb_neq (a b : list byte) : bytes_eqb a b = false <-> a <> b.
Proof.
  unfold bytes_eqb. destruct (list_eq_dec Byte.byte_eq_dec a b); split; congruence.
Qed.

Lemma zeros_length (n : nat) : length (zeros n) = n.
Proof. apply repeat_length. Qed.

Lemma firstn_exact {A} (a rest : list A) : firstn (length a) (a ++ rest) = a.
Proof. induction a; simpl; congruence. Qed.

Lemma skipn_exact {A} (a rest : list A) : skipn (length a) (a ++ rest) = rest.
Proof. induction a; simpl; congruence. Qed.

Lemma ReadFull_app (a rest : list byte) :
  ReadFull (length a) (a ++ rest) = (a, rest, None).
Proof.
  unfold ReadFull. rewrite length_app.
  replace (length a <=? length a + length rest)%nat with true
    by (symmetry; apply Nat.leb_le; lia).
  now rewrite firstn_exact, skipn_exact.
Qed.

Lemma ReadFull_enough (n : nat) (src : stream) :
  (n <= length src)%nat -> ReadFull n src = (firstn n src, skipn n src, None).
Proof.
  intros H. unfold ReadFull. now apply Nat.leb_le in H; rewrite H.
Qed.

Lemma ReadFull_short (n : nat) (src : stream) :
  (length src < n)%nat ->
  ReadFull n src =
    (src ++ zeros (n - length src), [],
     Some (match src with [] => EOF | _ :: _ => ErrUnexpectedEOF end)).
Proof.
  intros H. unfold ReadFull. now apply Nat.leb_gt in H; rewrite H.
Qed.

Lemma ReadFull_buffer_length (n : nat) (src : stream) :
  length (fst (fst (ReadFull n src))) = n.
Proof.
  unfold ReadFull. destruct (n <=? length src)%nat eqn:H; simpl.
  - apply Nat.leb_le in H. rewrite length_firstn. lia.
  - apply Nat.leb_gt in H. rewrite length_app, zeros_length. lia.
Qed.

(** *** strconv.Atoi on runs of digits *)

Lemma is_digit_value (c : byte) :
  is_digit c = true -> 0 <= int c - 48 <= 9.
Proof.
  unfold is_digit. rewrite andb_true_iff, !Z.leb_le. lia.
Qed.

Lemma is_digit_not_sign (c : byte) :
  is_digit c = true -> Byte.eqb c "-"%byte = false /\ Byte.eqb c "+"%byte = false.
Proof.
  intros H. split.
  - destruct (Byte.eqb c "-"%byte) eqn:E; [|reflexivity].
    apply Byte.byte_dec_bl in E. subst c. discriminate H.
  - destruct (Byte.eqb c "+"%byte) eqn:E; [|reflexivity].
    apply Byte.byte_dec_bl in E. subst c. discriminate H.
Qed.

(** The value read after [n]: [n] is a lower bound, and a digit more is at
    most a factor ten and nine more. *)
Lemma digits_value_bounds (s : list byte) :
  forallb is_digit s = true ->
  forall n, 0 <= n ->
    n <= fold_left (fun n c => n * 10 + (int c - 48)) s n
      < (n + 1) * 10 ^ Z.of_nat (length s).
Proof.
  induction s as [|c s IH]; intros Hs n Hn.
  - simpl. lia.
  - simpl in Hs. apply andb_true_iff in Hs as [Hc Hs].
    apply is_digit_value in Hc.
    cbn [fold_left length].
    specialize (IH Hs (n * 10 + (int c - 48)) ltac:(lia)).
    rewrite Nat2Z.inj_succ, Z.pow_succ_r by lia.
    assert (0 < 10 ^ Z.of_nat (length s)) by (apply Z.pow_pos_nonneg; lia).
    nia.
Qed.

Lemma decimal_nonneg (ds : list byte) :
  forallb is_digit ds = true -> 0 <= decimal ds.
Proof.
  intros H. unfold decimal. now apply (digits_value_bounds ds H 0).
Qed.

Lemma Atoi_fast_digits (s : list byte) :
  forallb is_digit s = true ->
  forall n, Atoi_fast s n = Num (fold_left (fun n c => n * 10 + (int c - 48)) s n).
Proof.
  induction s as [|c s IH]; intros Hs n; [reflexivity|].
  simpl in Hs. apply andb_true_iff in Hs as [Hc Hs].
  simpl. rewrite Hc. simpl. now apply IH.
Qed.

Lemma ParseUint_loop_digits (s : list byte) :
  forallb is_digit s = true ->
  forall n, 0 <= n <= maxUint64 ->
    ParseUint_loop s n =
      let v := fold_left (fun n c => n * 10 + (int c - 48)) s n in
      if v <=? maxUint64 then Num v else NumError ErrRange.
Proof.
  unfold maxUint64.
  induction s as [|c s IH]; intros Hs n Hn.
  - cbn [ParseUint_loop fold_left]. cbv zeta.
    destruct (Z.leb_spec n (2 ^ 64 - 1)); [reflexivity | lia].
  - simpl in Hs. apply andb_true_iff in Hs as [Hc Hs].
    pose proof (is_digit_value c Hc) as Hd.
    cbn [ParseUint_loop fold_left]. rewrite Hc. cbn [negb]. unfold maxUint64.
    pose proof (digits_value_bounds s Hs (n * 10 + (int c - 48)) ltac:(lia)) as Hv.
    cbv zeta.
    change (2 ^ 64) with 18446744073709551616 in *.
    change ((18446744073709551616 - 1) / 10 + 1) with 1844674407370955162.
    destruct (Z.geb_spec n 1844674407370955162) as [Hcut|Hcut].
    + destruct (Z.leb_spec (fold_left (fun n c => n * 10 + (int c - 48)) s
                                      (n * 10 + (int c - 48)))
                           (18446744073709551616 - 1)); [lia | reflexivity].
    + destruct (Z_lt_dec (n * 10 + (int c - 48)) 18446744073709551616) as [Hfit|Hwrap].
      * rewrite Z.mod_small by lia.
        destruct (Z.ltb_spec (n * 10 + (int c - 48)) (n * 10)); [lia|].
        destruct (Z.gtb_spec (n * 10 + (int c - 48)) (18446744073709551616 - 1)); [lia|].
        cbn [orb]. rewrite IH by (try assumption; lia). reflexivity.
      * assert (Hm : (n * 10 + (int c - 48)) mod 18446744073709551616
                     = n * 10 + (int c - 48) - 18446744073709551616).
        { symmetry. apply Z.mod_unique with (q := 1); lia. }
        rewrite Hm.
        destruct (Z.ltb_spec (n * 10 + (int c - 48) - 18446744073709551616) (n * 10)); [|lia].
        cbn [orb].
        destruct (Z.leb_spec (fold_left (fun n c => n * 10 + (int c - 48)) s
                                        (n * 10 + (int c - 48)))
                             (18446744073709551616 - 1)); [lia | reflexivity].
Qed.

(** [Atoi] on a non-empty run of digits: its base-10 value when that is an
    [int], the range error otherwise; never the syntax error. *)
Lemma Atoi_digits (ds : list byte) :
  ds <> [] -> forallb is_digit ds = true ->
  Atoi ds = if decimal ds <=? maxInt then Num (decimal ds) else NumError ErrRange.
Proof.
  intros Hne Hds. destruct ds as [|c s]; [congruence|].
  pose proof Hds as Hall.
  simpl in Hds. apply andb_true_iff in Hds as [Hc Hs].
  destruct (is_digit_not_sign c Hc) as [Hminus Hplus].
  pose proof (digits_value_bounds (c :: s) Hall 0 ltac:(lia)) as Hv.
  fold (decimal (c :: s)) in Hv.
  unfold Atoi, maxInt.
  destruct ((0 <? length (c :: s))%nat && (length (c :: s) <? 19)%nat) eqn:Hlen.
  - rewrite Hminus, Hplus. cbn [orb andb].
    rewrite Atoi_fast_digits by assumption. fold (decimal (c :: s)).
    apply andb_true_iff in Hlen as [_ Hlen]. apply Nat.ltb_lt in Hlen.
    assert (10 ^ Z.of_nat (length (c :: s)) <= 10 ^ 18)
      by (apply Z.pow_le_mono_r; lia).
    change (10 ^ 18) with 1000000000000000000 in *.
    change (2 ^ 63) with 9223372036854775808.
    destruct (Z.leb_spec (decimal (c :: s)) (9223372036854775808 - 1)); [reflexivity | lia].
  - unfold ParseInt. rewrite Hminus, Hplus. cbn [orb andb negb].
    unfold ParseUint.
    rewrite ParseUint_loop_digits by (try assumption; unfold maxUint64; lia).
    fold (decimal (c :: s)). cbv zeta. unfold maxUint64.
    change (2 ^ 63) with 9223372036854775808.
    change (2 ^ 64) with 18446744073709551616.
    destruct (Z.leb_spec (decimal (c :: s)) (18446744073709551616 - 1)).
    + destruct (Z.geb_spec (decimal (c :: s)) 9223372036854775808);
        destruct (Z.leb_spec (decimal (c :: s)) (9223372036854775808 - 1));
        try lia; reflexivity.
    + destruct (Z.leb_spec (decimal (c :: s)) (9223372036854775808 - 1));
        [lia | reflexivity].
Qed.

(** *** regexp: the leftmost match and its greedy group *)

Lemma has_prefix_spec (lit s rest : list byte) :
  has_prefix lit s = Some rest <-> s = lit ++ rest.
Proof.
  revert s. induction lit as [|c lit IH]; intros s; simpl.
  - split; congruence.
  - destruct s as [|d s]; [split; discriminate|].
    destruct (Byte.eqb c d) eqn:E.
    + apply Byte.byte_dec_bl in E. subst d. rewrite IH. split; congruence.
    + apply Byte.eqb_false in E. split; [discriminate | congruence].
Qed.

Lemma digits_of_all (s : list byte) : forallb is_digit (digits_of s) = true.
Proof.
  induction s as [|c s IH]; cbn [digits_of]; [reflexivity|].
  destruct (is_digit c) eqn:E; [|reflexivity].
  cbn [forallb]. now rewrite E, IH.
Qed.

Lemma digits_of_split (s : list byte) :
  exists post, s = digits_of s ++ post /\ starts_without_digit post.
Proof.
  induction s as [|c s [post [IH1 IH2]]]; cbn [digits_of].
  - now exists [].
  - destruct (is_digit c) eqn:E.
    + exists post. split; [cbn [app]; congruence | assumption].
    + exists (c :: s). now split.
Qed.

Lemma digits_of_app (ds post : list byte) :
  forallb is_digit ds = true -> starts_without_digit post ->
  digits_of (ds ++ post) = ds.
Proof.
  intros Hds Hpost. induction ds as [|c ds IH]; cbn [app digits_of].
  - destruct post as [|c post]; [reflexivity|].
    cbn [starts_without_digit] in Hpost. cbn [digits_of]. now rewrite Hpost.
  - cbn [forallb] in Hds. apply andb_true_iff in Hds as [Hc Hds].
    rewrite Hc. now rewrite IH.
Qed.

Lemma match_at_Some (lit s ds : list byte) :
  match_at lit s = Some ds <->
  exists post, s = lit ++ ds ++ post /\ ds <> [] /\
               forallb is_digit ds = true /\ starts_without_digit post.
Proof.
  unfold match_at. split.
  - destruct (has_prefix lit s) as [rest|] eqn:Hp; [|discriminate].
    apply has_prefix_spec in Hp. subst s.
    destruct (digits_of_split rest) as [post [Hsplit Hpost]].
    pose proof (digits_of_all rest) as Hall.
    destruct (digits_of rest) as [|d ds'] eqn:Hd; [discriminate|].
    intros [= <-]. exists post. repeat split; try assumption; congruence.
  - intros [post [-> [Hne [Hall Hpost]]]].
    replace (has_prefix lit (lit ++ ds ++ post)) with (Some (ds ++ post))
      by (symmetry; now apply has_prefix_spec).
    rewrite digits_of_app by assumption.
    destruct ds; congruence.
Qed.

Lemma match_at_None (lit s : list byte) :
  match_at lit s = None <->
  forall d rest, s = lit ++ d :: rest -> is_digit d = false.
Proof.
  unfold match_at. split.
  - intros H d rest ->.
    replace (has_prefix lit (lit ++ d :: rest)) with (Some (d :: rest)) in H
      by (symmetry; now apply has_prefix_spec).
    cbn [digits_of] in H. destruct (is_digit d); [discriminate | reflexivity].
  - intros H. destruct (has_prefix lit s) as [rest|] eqn:Hp; [|reflexivity].
    apply has_prefix_spec in Hp.
    destruct rest as [|d rest]; [reflexivity|].
    cbn [digits_of]. now rewrite (H d rest Hp).
Qed.

(** The model of [FindSubmatch] finds the leftmost match: it gives [ds]
    exactly when [ds] is the run of digits after the leftmost [lit] that a
    digit follows. *)
Lemma FindSubmatch_first_tag (lit s ds : list byte) :
  FindSubmatch lit s = Some ds <-> first_tag lit ds s.
Proof.
  split.
  - induction s as [|c s IH]; simpl.
    + destruct (match_at lit []) as [ds'|] eqn:Hm; [|discriminate].
      intros [= ->]. apply match_at_Some in Hm as [post [Hs [Hne [Hall Hpost]]]].
      exists [], post. repeat split; try assumption. simpl; intros; lia.
    + destruct (match_at lit (c :: s)) as [ds'|] eqn:Hm.
      * intros [= ->]. apply match_at_Some in Hm as [post [Hs [Hne [Hall Hpost]]]].
        exists [], post. repeat split; try assumption. simpl; intros; lia.
      * intros H. destruct (IH H) as [pre [post [Hs [Hne [Hall [Hpost Hleft]]]]]].
        exists (c :: pre), post. repeat split; try assumption.
        { simpl. congruence. }
        intros [|k] d rest Hk Hskip.
        { simpl in Hskip. eapply match_at_None; eassumption. }
        simpl in Hk, Hskip. apply (Hleft k d rest); [lia | assumption].
  - intros [pre [post [-> [Hne [Hall [Hpost Hleft]]]]]].
    induction pre as [|c pre IH].
    + simpl app.
      assert (Hm : match_at lit (lit ++ ds ++ post) = Some ds)
        by (apply match_at_Some; exists post; auto).
      destruct (lit ++ ds ++ post); simpl; now rewrite Hm.
    + simpl app. simpl.
      assert (Hm : match_at lit (c :: pre ++ lit ++ ds ++ post) = None).
      { apply match_at_None. intros d rest Hd.
        apply (Hleft 0%nat d rest); [simpl; lia | exact Hd]. }
      rewrite Hm. apply IH. intros k d rest Hk Hskip.
      apply (Hleft (S k) d rest); [simpl; lia | exact Hskip].
Qed.

Lemma FindSubmatch_no_tag (lit s : list byte) :
  FindSubmatch lit s = None <-> no_tag lit s.
Proof.
  unfold no_tag. split.
  - induction s as [|c s IH]; simpl.
    + destruct (match_at lit []) eqn:Hm; [discriminate|].
      intros _ k d rest Hskip. rewrite skipn_nil in Hskip.
      eapply match_at_None; eassumption.
    + destruct (match_at lit (c :: s)) eqn:Hm; [discriminate|].
      intros H [|k] d rest Hskip.
      * simpl in Hskip. eapply match_at_None; eassumption.
      * simpl in Hskip. eapply IH; eassumption.
  - induction s as [|c s IH]; intros H; simpl.
    + replace (match_at lit []) with (@None (list byte)); [reflexivity|].
      symmetry. apply match_at_None. intros d rest Hd. apply (H 0%nat d rest Hd).
    + replace (match_at lit (c :: s)) with (@None (list byte)).
      * apply IH. intros k d rest Hskip. apply (H (S k) d rest Hskip).
      * symmetry. apply match_at_None. intros d rest Hd. apply (H 0%nat d rest Hd).
Qed.

(** What the group captures is a non-empty run of digits. *)
Lemma FindSubmatch_digits (lit s ds : list byte) :
  FindSubmatch lit s = Some ds -> ds <> [] /\ forallb is_digit ds = true.
Proof.
  intros H. apply FindSubmatch_first_tag in H.
  destruct H as [pre [post [_ [Hne [Hall _]]]]]. now split.
Qed.

(** ** Steps of the early-return version *)

Lemma bind_Ok {S E A B} (m : M S E A) (k : A -> M S E B) s a s' :
  m s = Ok a s' -> bind m k s = k a s'.
Proof. unfold bind. now intros ->. Qed.

Lemma Early_readFull_app (a rest : list byte) :
  Early.readFull (length a) (a ++ rest) = Ok a rest.
Proof. unfold Early.readFull. now rewrite ReadFull_app. Qed.

Lemma Early_readByte_cons (c : byte) (rest : list byte) :
  Early.readByte (c :: rest) = Ok c rest.
Proof. reflexivity. Qed.

Lemma Early_skip_app (a rest : list byte) :
  Early.skip (Z.of_nat (length a)) (a ++ rest) = Ok tt rest.
Proof.
  unfold Early.skip.
  destruct a as [|c a]; [reflexivity|].
  destruct (Z.eqb_spec (Z.of_nat (length (c :: a))) 0) as [H|_]; [simpl in H; lia|].
  destruct (Z.ltb_spec (Z.of_nat (length (c :: a))) 0) as [H|_]; [lia|].
  rewrite Nat2Z.id. unfold bind. now rewrite Early_readFull_app.
Qed.

Lemma total_app (a b : list byte) : total (a ++ b) = total a + total b.
Proof. induction a as [|c a IH]; simpl; lia. Qed.

Lemma packet_size_run (run tail : list byte) (i : nat) (size : Z) :
  Forall (fun e => int e = 255) run -> closes_run tail ->
  packet_size (run ++ tail) i size
  = ((i + length run)%nat, size + total (run ++ firstn 1 tail)).
Proof.
  intros Hrun Htail. revert i size.
  induction Hrun as [|e run He Hrun IH]; intros i size.
  - destruct tail as [|t tail]; simpl.
    + f_equal; lia.
    + simpl in Htail. destruct (Z.ltb_spec (int t) 255); [|lia].
      f_equal; lia.
  - cbn [app packet_size]. rewrite He. cbn [Z.ltb Z.compare Pos.compare Pos.compare_cont].
    change (255 <? 255) with false. cbv iota. rewrite IH.
    cbn [length total fold_right app]. fold (total (run ++ firstn 1 tail)).
    rewrite He. f_equal; lia.
Qed.

Lemma Early_segment_comment (pre run tail : list byte) (a : acc) (meta rest : list byte) :
  Forall (fun e => int e = 255) run -> closes_run tail ->
  Z.of_nat (length meta) = total (run ++ firstn 1 tail) - 5 ->
  Early.segment (pre ++ run ++ tail) (length pre) a (x03 :: vorb ++ meta ++ rest)
  = (' (ls, ll) <- Early.tags meta a ;;
     ret ((length pre + length run)%nat, Acc ls ll true)) rest.
Proof.
  intros Hrun Htail Hlen.
  unfold Early.segment.
  rewrite (bind_Ok _ _ _ _ _ (Early_readByte_cons _ _)).
  rewrite (bind_Ok _ _ _ _ _ (Early_readFull_app vorb (meta ++ rest))).
  rewrite bytes_eqb_refl. cbn [negb].
  change (int x03 =? 3) with true. cbn [negb].
  rewrite skipn_exact, packet_size_run by assumption.
  cbn [Z.add]. rewrite <- Hlen.
  unfold Early.make.
  destruct (Z.ltb_spec (Z.of_nat (length meta)) 0); [lia|].
  rewrite Nat2Z.id.
  rewrite (bind_Ok _ _ _ _ _ (eq_refl : ret _ _ = Ok _ _)).
  rewrite (bind_Ok _ _ _ _ _ (Early_readFull_app meta rest)).
  reflexivity.
Qed.

Lemma Early_segment_other (segs : list byte) (i : nat) (a : acc)
      (ty : byte) (sig body rest : list byte) :
  length sig = 4%nat ->
  int (nth i segs x00) = 5 + Z.of_nat (length body) ->
  sig <> vorb \/ int ty <> 3 ->
  Early.segment segs i a (ty :: sig ++ body ++ rest)
  = Ok (i, Acc (loopStart a) (loopLength a) (headerFound a || bytes_eqb sig vorb)) rest.
Proof.
  intros Hsig Hseg Hother.
  unfold Early.segment.
  rewrite (bind_Ok _ _ _ _ _ (Early_readByte_cons _ _)).
  change 4%nat with (length vorb). rewrite <- Hsig at 1. cbn [length] in Hsig.
  rewrite (bind_Ok _ _ _ _ _ (Early_readFull_app sig (body ++ rest))).
  replace (int (nth i segs x00) - 5) with (Z.of_nat (length body)) by lia.
  destruct (bytes_eqb sig vorb) eqn:Hv; cbn [negb].
  - apply bytes_eqb_eq in Hv.
    destruct Hother as [Hother|Hother]; [congruence|].
    destruct (Z.eqb_spec (int ty) 3); [lia|]. cbn [negb].
    rewrite (bind_Ok _ _ _ _ _ (Early_skip_app body rest)).
    now rewrite orb_true_r.
  - rewrite (bind_Ok _ _ _ _ _ (Early_skip_app body rest)).
    rewrite orb_false_r. now destruct a.
Qed.

(** ** Laid-out items through the segment loop *)

Lemma int_byte_of (n : nat) : (n <= 255)%nat -> int (byte_of n) = Z.of_nat n.
Proof.
  intros Hn. unfold byte_of, int. rewrite Byte.of_nat_via_N.
  destruct (Byte.of_N (N.of_nat n)) as [c|] eqn:E.
  - apply Byte.to_of_N in E. rewrite E. lia.
  - apply Byte.of_N_None_iff in E. lia.
Qed.

Lemma lacing_run (n : nat) : Forall (fun e => int e = 255) (repeat xff (n / 255)).
Proof.
  apply Forall_forall. intros e He. apply repeat_spec in He. now subst e.
Qed.

Lemma lacing_closes (n : nat) (tail : list byte) :
  closes_run (byte_of (n mod 255) :: tail).
Proof.
  pose proof (Nat.mod_upper_bound n 255 ltac:(lia)) as H.
  cbn [closes_run]. rewrite int_byte_of; lia.
Qed.

Lemma total_repeat_xff (k : nat) : total (repeat xff k) = 255 * Z.of_nat k.
Proof.
  induction k as [|k IH]; [reflexivity|].
  cbn [repeat total fold_right]. fold (total (repeat xff k)). rewrite IH.
  change (int xff) with 255. lia.
Qed.

Lemma total_lacing (n : nat) : total (lacing n) = Z.of_nat n.
Proof.
  unfold lacing. rewrite total_app, total_repeat_xff.
  pose proof (Nat.mod_upper_bound n 255 ltac:(lia)) as H.
  pose proof (Nat.div_mod_eq n 255) as H'.
  cbn [total fold_right]. rewrite int_byte_of; lia.
Qed.

Lemma Early_tag_value (re meta : list byte) (v : Z) (src : stream) :
  tag_fits re meta -> Early.tag re meta v src = Ok (tag_value re meta v) src.
Proof.
  unfold tag_fits, Early.tag, tag_value.
  destruct (FindSubmatch re meta) as [ds|] eqn:Hm; [|reflexivity].
  destruct (FindSubmatch_digits _ _ _ Hm) as [Hne Hall].
  intros Hfit. rewrite Atoi_digits by assumption.
  destruct (Z.leb_spec (decimal ds) maxInt); [reflexivity | lia].
Qed.

Lemma Early_tags_value (meta : list byte) (a : acc) (src : stream) :
  tag_fits loopStartRe meta -> tag_fits loopLengthRe meta ->
  Early.tags meta a src
  = Ok (tag_value loopStartRe meta (loopStart a),
        tag_value loopLengthRe meta (loopLength a)) src.
Proof.
  intros Hs Hl. unfold Early.tags.
  rewrite (bind_Ok _ _ _ _ _ (Early_tag_value _ _ _ _ Hs)).
  rewrite (bind_Ok _ _ _ _ _ (Early_tag_value _ _ _ _ Hl)).
  reflexivity.
Qed.

Lemma entries_length (it : item) : (1 <= length (entries it))%nat.
Proof.
  destruct it; simpl; [lia|]. unfold lacing. rewrite length_app. simpl. lia.
Qed.

Lemma Early_segment_item (pre post : list byte) (it : item) (a : acc) (rest : list byte) :
  item_ok it ->
  exists i,
    Early.segment (pre ++ entries it ++ post) (length pre) a (content it ++ rest)
    = Ok (i, after_item a it) rest /\
    S i = length (pre ++ entries it).
Proof.
  destruct it as [ty sig body | meta]; simpl item_ok; intros Hok.
  - destruct Hok as [Hsig [Hbody Hother]].
    exists (length pre). split.
    + cbn [content entries after_item].
      cbn [app]. rewrite <- (app_assoc sig).
      apply Early_segment_other; try assumption.
      rewrite nth_middle, int_byte_of; lia.
    + rewrite length_app. simpl. lia.
  - destruct Hok as [Hs Hl].
    exists (length pre + (5 + length meta) / 255)%nat. split.
    + cbn [content entries after_item]. unfold lacing.
      rewrite <- (app_assoc (repeat _ _)). cbn [app].
      rewrite <- (app_assoc vorb).
      rewrite <- (repeat_length xff ((5 + length meta) / 255)) at 2.
      rewrite Early_segment_comment.
      * rewrite (bind_Ok _ _ _ _ _ (Early_tags_value _ _ _ Hs Hl)).
        now rewrite repeat_length.
      * apply lacing_run.
      * apply lacing_closes.
      * cbn [firstn]. fold (lacing (5 + length meta)). rewrite total_lacing. lia.
    + cbn [entries]. unfold lacing. rewrite !length_app, repeat_length.
      cbn [length]. lia.
Qed.

Lemma Early_segments_items (its : list item) :
  Forall item_ok its ->
  forall fuel pre a rest,
    (length its <= fuel)%nat ->
    Early.segments fuel (pre ++ table its) (length pre) a (flat_map content its ++ rest)
    = Ok (fold_left after_item its a) rest.
Proof.
  induction 1 as [|it its Hit Hits IH]; intros fuel pre a rest Hfuel.
  - simpl. rewrite app_nil_r.
    destruct fuel; simpl; now rewrite Nat.ltb_irrefl.
  - destruct fuel as [|fuel]; [simpl in Hfuel; lia|].
    cbn [Early.segments table flat_map fold_left].
    replace (length pre <? length (pre ++ entries it ++ flat_map entries its))%nat with true.
    2:{ symmetry. apply Nat.ltb_lt. rewrite !length_app.
        pose proof (entries_length it). lia. }
    destruct (Early_segment_item pre (flat_map entries its) it a
                (flat_map content its ++ rest) Hit) as [i [Hseg Hi]].
    rewrite <- app_assoc.
    rewrite (bind_Ok _ _ _ _ _ Hseg).
    rewrite Hi. rewrite app_assoc.
    apply IH. simpl in Hfuel. lia.
Qed.

(** ** Laid-out pages through the page loop *)

Lemma table_length (its : list item) : (length its <= length (table its))%nat.
Proof.
  induction its as [|it its IH]; [simpl; lia|].
  unfold table in *. cbn [flat_map length]. rewrite length_app.
  pose proof (entries_length it). lia.
Qed.

Lemma Early_page_encoded (p : ogg_page) (ls ll : Z) (rest : list byte) :
  page_ok p ->
  Early.page ls ll
    (fixed p ++ byte_of (length (table (items p)))
            :: table (items p) ++ flat_map content (items p) ++ rest)
  = Ok (fold_left after_item (items p) (Acc ls ll false)) rest.
Proof.
  intros [Hfixed [Htable Hitems]]. unfold Early.page.
  change (26 - 4) with (Z.of_nat 22). rewrite <- Hfixed.
  rewrite (bind_Ok _ _ _ _ _ (Early_skip_app _ _)).
  rewrite (bind_Ok _ _ _ _ _ (Early_readByte_cons _ _)).
  rewrite int_byte_of, Nat2Z.id by assumption.
  rewrite (bind_Ok _ _ _ _ _ (Early_readFull_app _ _)).
  apply (Early_segments_items (items p) Hitems _ []).
  apply table_length.
Qed.

Lemma after_items_header (its : list item) (a : acc) :
  headerFound (fold_left after_item its a) = headerFound a || existsb is_header its.
Proof.
  revert a. induction its as [|it its IH]; intros a; simpl.
  - now rewrite orb_false_r.
  - rewrite IH. destruct it; simpl.
    + now rewrite orb_assoc.
    + now rewrite orb_true_r.
Qed.

Lemma after_items_no_header (its : list item) (a : acc) :
  existsb is_header its = false ->
  fold_left after_item its a = a.
Proof.
  revert a. induction its as [|it its IH]; intros a; simpl; [reflexivity|].
  intros H. apply orb_false_iff in H as [Hit Hits].
  rewrite IH by assumption.
  destruct it; simpl in *; [|discriminate].
  rewrite Hit, orb_false_r. now destruct a.
Qed.

Lemma Early_pages_mismatch (fuel : nat) (ls ll : Z) (src : stream) :
  (4 <= length src)%nat -> firstn 4 src <> OggS ->
  Early.pages (S fuel) ls ll src = Ok (ls, ll) (skipn 4 src).
Proof.
  intros Hlen Hne. cbn [Early.pages]. unfold bind, Early.readFull.
  rewrite ReadFull_enough by assumption.
  apply bytes_eqb_neq in Hne. now rewrite Hne.
Qed.

Lemma Early_pages_encoded (ps : list ogg_page) :
  Forall page_ok ps ->
  Forall (fun p => has_header p = true) ps ->
  forall trailer, stops_scan trailer ->
  forall fuel ls ll,
    (length ps < fuel)%nat ->
    exists rest,
      Early.pages fuel ls ll (flat_map encode_page ps ++ trailer)
      = Ok (fold_left after_page ps (ls, ll)) rest.
Proof.
  intros Hok Hhdr trailer Hstop.
  induction Hok as [|p ps Hp Hps IH]; intros fuel ls ll Hfuel.
  - destruct fuel as [|fuel]; [simpl in Hfuel; lia|]. cbn [flat_map app fold_left].
    destruct Hstop as [[Hlen Hne] | [p [rest [-> [Hp Hnone]]]]].
    + eexists. now apply Early_pages_mismatch.
    + exists rest. cbn [Early.pages]. unfold encode_page.
      rewrite <- !app_assoc. cbn [app].
      rewrite (bind_Ok _ _ _ _ _ (Early_readFull_app OggS _)).
      rewrite bytes_eqb_refl. cbn [negb].
      rewrite <- !app_assoc.
      rewrite (bind_Ok _ _ _ _ _ (Early_page_encoded p ls ll rest Hp)).
      unfold has_header in Hnone.
      rewrite after_items_no_header by assumption. reflexivity.
  - destruct fuel as [|fuel]; [simpl in Hfuel; lia|].
    inversion Hhdr as [|? ? Hph Hpsh]; subst.
    cbn [flat_map fold_left Early.pages]. unfold encode_page at 1.
    rewrite <- !app_assoc. cbn [app].
    rewrite (bind_Ok _ _ _ _ _ (Early_readFull_app OggS _)).
    rewrite bytes_eqb_refl. cbn [negb].
    rewrite <- !app_assoc.
    rewrite (bind_Ok _ _ _ _ _ (Early_page_encoded p ls ll _ Hp)).
    rewrite after_items_header. unfold has_header in Hph. rewrite Hph.
    cbn [headerFound orb negb].
    apply (IH Hpsh). simpl in Hfuel. lia.
Qed.

(** ** What the computations guarantee *)

Section Guarantees.

Context {S E : Type}.

Lemma post_ret {A} (a : A) (Q : A -> Prop) : Q a -> post (@ret S E A a) Q.
Proof. intros H s a' s' [= <- _]. exact H. Qed.

Lemma post_bind {A B} (m : M S E A) (k : A -> M S E B) (P : A -> Prop) (Q : B -> Prop) :
  post m P -> (forall a, P a -> post (k a) Q) -> post (bind m k) Q.
Proof.
  intros Hm Hk s b s' H. unfold bind in H.
  destruct (m s) as [a s1| | |] eqn:Em; try discriminate.
  eapply Hk; [eapply Hm|]; eassumption.
Qed.

Lemma post_any {A} (m : M S E A) : post m (fun _ => True).
Proof. intros s a s' _. exact I. Qed.

Lemma shrinks_ret (mu : S -> nat) {A} (a : A) : shrinks mu (@ret S E A a).
Proof. intros s a' s' [= _ <-]. lia. Qed.

Lemma shrinks_raise (mu : S -> nat) {A} (p : panic) : shrinks mu (@raise S E A p).
Proof. intros s a s' H. discriminate H. Qed.

Lemma shrinks_throw (mu : S -> nat) {A} (e : E) : shrinks mu (@throw S E A e).
Proof. intros s a s' H. discriminate H. Qed.

Lemma shrinks_fuel (mu : S -> nat) {A} : shrinks mu (fun _ : S => @Fuel S E A).
Proof. intros s a s' H. discriminate H. Qed.

Lemma shrinks_bind (mu : S -> nat) {A B} (m : M S E A) (k : A -> M S E B) :
  shrinks mu m -> (forall a, shrinks mu (k a)) -> shrinks mu (bind m k).
Proof.
  intros Hm Hk s b s' H. unfold bind in H.
  destruct (m s) as [a s1| | |] eqn:Em; try discriminate.
  apply Hm in Em. apply Hk in H. lia.
Qed.

Lemma finishes_ret {A} (a : A) : finishes (@ret S E A a).
Proof. intros s. discriminate. Qed.

Lemma finishes_raise {A} (p : panic) : finishes (@raise S E A p).
Proof. intros s. discriminate. Qed.

Lemma finishes_throw {A} (e : E) : finishes (@throw S E A e).
Proof. intros s. discriminate. Qed.

Lemma finishes_bind {A B} (m : M S E A) (k : A -> M S E B) (P : A -> Prop) :
  finishes m -> post m P -> (forall a, P a -> finishes (k a)) -> finishes (bind m k).
Proof.
  intros Hm HP Hk s. unfold bind.
  destruct (m s) as [a s1| | |] eqn:Em; try discriminate.
  - apply Hk. eapply HP. eassumption.
  - now apply Hm in Em.
Qed.

End Guarantees.

Lemma sticky_ret {A} (a : A) : sticky (ret a).
Proof. intros rd a' rd' [= _ <-]. auto. Qed.

Lemma sticky_raise {A} (p : panic) : sticky (@raise _ _ A p).
Proof. intros rd a rd' H. discriminate H. Qed.

Lemma sticky_fuel {A} : sticky (fun _ => @Fuel _ _ A).
Proof. intros rd a rd' H. discriminate H. Qed.

Lemma sticky_bind {A B} (m : M Latched.errReader Empty_set A)
      (k : A -> M Latched.errReader Empty_set B) :
  sticky m -> (forall a, sticky (k a)) -> sticky (bind m k).
Proof.
  intros Hm Hk rd b rd' H Hrd. unfold bind in H.
  destruct (m rd) as [a rd1| | |] eqn:E; try discriminate.
  eapply Hk; [eassumption|]. eapply Hm; eassumption.
Qed.

Create HintDb oggloop.

#[local] Hint Resolve
  shrinks_ret shrinks_raise shrinks_throw shrinks_fuel
  finishes_ret finishes_raise finishes_throw
  sticky_ret sticky_raise sticky_fuel : oggloop.

(** A guarantee of a computation from the guarantees of its parts: through
    the binds, the tests and the pairs of the code, down to the reads. *)
Ltac code_case :=
  match goal with
  | |- context [if ?c then _ else _] => destruct c
  | |- context [match ?p with (_, _) => _ end] => destruct p
  | |- context [match ?o with Some _ => _ | None => _ end] => destruct o
  | |- context [match ?n with Num _ => _ | NumError _ => _ end] => destruct n
  end.

Ltac by_parts :=
  repeat first
    [ match goal with |- forall _, _ => intro end
    | solve [auto with oggloop nocore]
    | apply shrinks_bind
    | apply sticky_bind
    | (eapply finishes_bind; [ | apply post_any | ])
    | code_case ].

Lemma packet_size_index (rest : list byte) :
  forall i size, (i <= fst (packet_size rest i size))%nat.
Proof.
  induction rest as [|e rest IH]; intros i size; cbn [packet_size fst]; [lia|].
  destruct (int e <? 255); cbn [fst]; [lia|].
  specialize (IH (Datatypes.S i) (size + int e)). lia.
Qed.

(** *** The early-return version consumes its source and terminates *)

Lemma Early_readFull_length (n : nat) (src : stream) (buf : list byte) (src' : stream) :
  Early.readFull n src = Ok buf src' ->
  (length src' + n = length src)%nat /\ length buf = n.
Proof.
  unfold Early.readFull, ReadFull.
  destruct (n <=? length src)%nat eqn:Hn; [|discriminate].
  apply Nat.leb_le in Hn. intros [= <- <-].
  rewrite length_skipn, length_firstn. lia.
Qed.

Lemma Early_readFull_shrinks (n : nat) : shrinks (@length byte) (Early.readFull n).
Proof.
  intros s a s' H. apply Early_readFull_length in H. lia.
Qed.

Lemma Early_readFull_finishes (n : nat) : finishes (Early.readFull n).
Proof.
  intros s. unfold Early.readFull.
  destruct (ReadFull n s) as [[buf src'] [e|]]; discriminate.
Qed.

#[local] Hint Resolve Early_readFull_shrinks Early_readFull_finishes : oggloop.

Lemma Early_skip_shrinks (n : Z) : shrinks (@length byte) (Early.skip n).
Proof. unfold Early.skip. by_parts. Qed.

Lemma Early_skip_finishes (n : Z) : finishes (Early.skip n).
Proof. unfold Early.skip. by_parts. Qed.

Lemma Early_readByte_shrinks : shrinks (@length byte) Early.readByte.
Proof. unfold Early.readByte. by_parts. Qed.

Lemma Early_readByte_finishes : finishes Early.readByte.
Proof. unfold Early.readByte. by_parts. Qed.

Lemma Early_make_shrinks (size : Z) : shrinks (@length byte) (Early.make size).
Proof. unfold Early.make. by_parts. Qed.

Lemma Early_make_finishes (size : Z) : finishes (Early.make size).
Proof. unfold Early.make. by_parts. Qed.

Lemma Early_tags_shrinks (meta : list byte) (a : acc) :
  shrinks (@length byte) (Early.tags meta a).
Proof. unfold Early.tags, Early.tag. by_parts. Qed.

Lemma Early_tags_finishes (meta : list byte) (a : acc) :
  finishes (Early.tags meta a).
Proof. unfold Early.tags, Early.tag. by_parts. Qed.

#[local] Hint Resolve
  Early_skip_shrinks Early_skip_finishes Early_readByte_shrinks
  Early_readByte_finishes Early_make_shrinks Early_make_finishes
  Early_tags_shrinks Early_tags_finishes : oggloop.

Lemma Early_segment_shrinks (segs : list byte) (i : nat) (a : acc) :
  shrinks (@length byte) (Early.segment segs i a).
Proof. unfold Early.segment. by_parts. Qed.

Lemma Early_segment_finishes (segs : list byte) (i : nat) (a : acc) :
  finishes (Early.segment segs i a).
Proof. unfold Early.segment. by_parts. Qed.

(** The index a segment leaves is not before its own. *)
Lemma Early_segment_index (segs : list byte) (i : nat) (a : acc) :
  post (Early.segment segs i a) (fun r => (i <= fst r)%nat).
Proof.
  unfold Early.segment.
  eapply post_bind; [apply post_any | intros headerType _].
  eapply post_bind; [apply post_any | intros b _].
  destruct (negb (bytes_eqb b vorb)).
  { eapply post_bind; [apply post_any | intros; apply post_ret; simpl; lia]. }
  destruct (negb (int headerType =? 3)).
  { eapply post_bind; [apply post_any | intros; apply post_ret; simpl; lia]. }
  pose proof (packet_size_index (skipn i segs) i 0) as Hi.
  destruct (packet_size (skipn i segs) i 0) as [i' size].
  eapply post_bind; [apply post_any | intros n _].
  eapply post_bind; [apply post_any | intros meta _].
  eapply post_bind; [apply post_any | intros [ls ll] _].
  apply post_ret. exact Hi.
Qed.

#[local] Hint Resolve Early_segment_shrinks Early_segment_finishes : oggloop.

Lemma Early_segments_shrinks (fuel : nat) (segs : list byte) :
  forall i a, shrinks (@length byte) (Early.segments fuel segs i a).
Proof.
  induction fuel as [|fuel IH]; intros i a; cbn [Early.segments]; by_parts.
Qed.

Lemma Early_segments_finishes (fuel : nat) (segs : list byte) :
  forall i a, (length segs - i <= fuel)%nat ->
              finishes (Early.segments fuel segs i a).
Proof.
  induction fuel as [|fuel IH]; intros i a Hfuel; cbn [Early.segments];
    destruct (Nat.ltb_spec i (length segs)); try apply finishes_ret; [lia|].
  eapply finishes_bind; [apply Early_segment_finishes | apply Early_segment_index|].
  intros [i' a'] Hi. cbn [fst] in Hi. apply IH. lia.
Qed.

#[local] Hint Resolve Early_segments_shrinks : oggloop.

Lemma Early_page_shrinks (ls ll : Z) : shrinks (@length byte) (Early.page ls ll).
Proof. unfold Early.page. by_parts. Qed.

Lemma Early_page_finishes (ls ll : Z) : finishes (Early.page ls ll).
Proof.
  unfold Early.page. by_parts. apply Early_segments_finishes. lia.
Qed.

Lemma Early_pages_finishes (fuel : nat) :
  forall ls ll src, (length src < fuel)%nat -> Early.pages fuel ls ll src <> Fuel.
Proof.
  induction fuel as [|fuel IH]; intros ls ll src Hfuel; [lia|].
  cbn [Early.pages]. unfold bind.
  destruct (Early.readFull 4 src) as [b src1| | |] eqn:E4; try discriminate.
  2:{ now apply Early_readFull_finishes in E4. }
  apply Early_readFull_length in E4 as [E4 _].
  destruct (negb (bytes_eqb b OggS)); [discriminate|].
  destruct (Early.page ls ll src1) as [a src2| | |] eqn:Ep; try discriminate.
  2:{ now apply Early_page_finishes in Ep. }
  apply Early_page_shrinks in Ep.
  destruct (negb (headerFound a)); [discriminate|].
  apply IH. lia.
Qed.

(** The early-return [Read] always comes back: it returns or it panics. *)
Lemma Early_Read_total (src : stream) : Early.Read src <> Diverged.
Proof.
  unfold Early.Read.
  pose proof (Early_pages_finishes (Datatypes.S (length src)) 0 0 src ltac:(lia)) as H.
  destruct (Early.pages (Datatypes.S (length src)) 0 0 src) as [[ls ll] src'| | |];
    congruence.
Qed.

(** *** The latched version keeps its error, consumes its source and
    terminates *)

(** [ReadBytes] allocates before it tests: its test of [n < 0] is never
    reached with a negative [n]. *)
Lemma ReadBytes_negative (n : Z) (rd : Latched.errReader) :
  n < 0 -> Latched.ReadBytes n rd = Panic MakesliceLenOutOfRange.
Proof.
  intros Hn. unfold Latched.ReadBytes.
  destruct (Z.ltb_spec n 0); [reflexivity | lia].
Qed.

Lemma sticky_ReadBytes (n : Z) : sticky (Latched.ReadBytes n).
Proof.
  intros rd a rd' H Hrd. unfold Latched.ReadBytes in H.
  destruct (n <? 0); [discriminate|].
  destruct (Latched.err rd) eqn:E; [|congruence].
  injection H as _ <-. congruence.
Qed.

Lemma sticky_Skip (n : Z) : sticky (Latched.Skip n).
Proof.
  intros rd a rd' H Hrd. unfold Latched.Skip in H.
  destruct (Latched.err rd) eqn:E; [|congruence].
  injection H as _ <-. congruence.
Qed.

Lemma Latched_ReadBytes_shrinks (n : Z) : shrinks pending (Latched.ReadBytes n).
Proof.
  intros [src e] a rd' H. unfold Latched.ReadBytes in H. cbn [Latched.err Latched.r] in H.
  destruct (n <? 0); [discriminate|].
  destruct e as [e|]; [injection H as _ <-; lia|].
  destruct (n =? 0); [injection H as _ <-; lia|].
  unfold ReadFull in H.
  destruct (Z.to_nat n <=? length src)%nat; injection H as _ <-;
    unfold pending; cbn [Latched.err Latched.r]; [|lia].
  pose proof (length_skipn (Z.to_nat n) src). lia.
Qed.

Lemma Latched_ReadBytes_finishes (n : Z) : finishes (Latched.ReadBytes n).
Proof.
  intros rd. unfold Latched.ReadBytes.
  destruct (n <? 0); [discriminate|].
  destruct (Latched.err rd); [discriminate|].
  destruct (n =? 0); [discriminate|].
  destruct (ReadFull (Z.to_nat n) (Latched.r rd)) as [[buf src'] e]. discriminate.
Qed.

#[local] Hint Resolve
  sticky_ReadBytes Latched_ReadBytes_shrinks Latched_ReadBytes_finishes : oggloop.

Lemma Latched_Skip_shrinks (n : Z) : shrinks pending (Latched.Skip n).
Proof.
  intros rd a rd' H. unfold Latched.Skip in H.
  destruct (Latched.err rd) eqn:E; [injection H as _ <-; lia|].
  destruct (n =? 0); [injection H as _ <-; lia|].
  destruct (n <? 0).
  - injection H as _ <-. unfold pending. cbn [Latched.err]. lia.
  - revert H. generalize rd a rd'. fold (shrinks pending (Latched.ReadBytes n ;;; ret tt)).
    by_parts.
Qed.

Lemma Latched_Skip_finishes (n : Z) : finishes (Latched.Skip n).
Proof.
  intros rd. unfold Latched.Skip.
  destruct (Latched.err rd); [discriminate|].
  destruct (n =? 0); [discriminate|].
  destruct (n <? 0); [discriminate|].
  generalize rd. fold (finishes (Latched.ReadBytes n ;;; ret tt)). by_parts.
Qed.

Lemma sticky_ReadByte : sticky Latched.ReadByte.
Proof. unfold Latched.ReadByte. by_parts. Qed.

Lemma Latched_ReadByte_shrinks : shrinks pending Latched.ReadByte.
Proof. unfold Latched.ReadByte. by_parts. Qed.

Lemma Latched_ReadByte_finishes : finishes Latched.ReadByte.
Proof. unfold Latched.ReadByte. by_parts. Qed.

Lemma sticky_tags (meta : list byte) (a : acc) : sticky (Latched.tags meta a).
Proof. unfold Latched.tags, Latched.tag, Latched.mustAtoi. by_parts. Qed.

Lemma Latched_tags_shrinks (meta : list byte) (a : acc) :
  shrinks pending (Latched.tags meta a).
Proof. unfold Latched.tags, Latched.tag, Latched.mustAtoi. by_parts. Qed.

Lemma Latched_tags_finishes (meta : list byte) (a : acc) :
  finishes (Latched.tags meta a).
Proof. unfold Latched.tags, Latched.tag, Latched.mustAtoi. by_parts. Qed.

#[local] Hint Resolve
  sticky_Skip Latched_Skip_shrinks Latched_Skip_finishes
  sticky_ReadByte Latched_ReadByte_shrinks Latched_ReadByte_finishes
  sticky_tags Latched_tags_shrinks Latched_tags_finishes : oggloop.

Lemma sticky_segment (segs : list byte) (i : nat) (a : acc) :
  sticky (Latched.segment segs i a).
Proof. unfold Latched.segment. by_parts. Qed.

Lemma Latched_segment_shrinks (segs : list byte) (i : nat) (a : acc) :
  shrinks pending (Latched.segment segs i a).
Proof. unfold Latched.segment. by_parts. Qed.

Lemma Latched_segment_finishes (segs : list byte) (i : nat) (a : acc) :
  finishes (Latched.segment segs i a).
Proof. unfold Latched.segment. by_parts. Qed.

Lemma Latched_segment_index (segs : list byte) (i : nat) (a : acc) :
  post (Latched.segment segs i a) (fun r => (i <= fst r)%nat).
Proof.
  unfold Latched.segment.
  eapply post_bind; [apply post_any | intros headerType _].
  eapply post_bind; [apply post_any | intros b _].
  destruct (negb (bytes_eqb b vorb)).
  { eapply post_bind; [apply post_any | intros; apply post_ret; simpl; lia]. }
  destruct (negb (int headerType =? 3)).
  { eapply post_bind; [apply post_any | intros; apply post_ret; simpl; lia]. }
  pose proof (packet_size_index (skipn i segs) i 0) as Hi.
  destruct (packet_size (skipn i segs) i 0) as [i' size].
  eapply post_bind; [apply post_any | intros meta _].
  eapply post_bind; [apply post_any | intros [ls ll] _].
  apply post_ret. exact Hi.
Qed.

#[local] Hint Resolve
  sticky_segment Latched_segment_shrinks Latched_segment_finishes : oggloop.

Lemma sticky_segments (fuel : nat) (segs : list byte) :
  forall i a, sticky (Latched.segments fuel segs i a).
Proof.
  induction fuel as [|fuel IH]; intros i a; cbn [Latched.segments]; by_parts.
Qed.

Lemma Latched_segments_shrinks (fuel : nat) (segs : list byte) :
  forall i a, shrinks pending (Latched.segments fuel segs i a).
Proof.
  induction fuel as [|fuel IH]; intros i a; cbn [Latched.segments]; by_parts.
Qed.

Lemma Latched_segments_finishes (fuel : nat) (segs : list byte) :
  forall i a, (length segs - i <= fuel)%nat ->
              finishes (Latched.segments fuel segs i a).
Proof.
  induction fuel as [|fuel IH]; intros i a Hfuel; cbn [Latched.segments];
    destruct (Nat.ltb_spec i (length segs)); try apply finishes_ret; [lia|].
  eapply finishes_bind; [apply Latched_segment_finishes | apply Latched_segment_index|].
  intros [i' a'] Hi. cbn [fst] in Hi. apply IH. lia.
Qed.

#[local] Hint Resolve sticky_segments Latched_segments_shrinks : oggloop.

Lemma sticky_page (ls ll : Z) : sticky (Latched.page ls ll).
Proof. unfold Latched.page. by_parts. Qed.

Lemma Latched_page_shrinks (ls ll : Z) : shrinks pending (Latched.page ls ll).
Proof. unfold Latched.page. by_parts. Qed.

Lemma Latched_page_finishes (ls ll : Z) : finishes (Latched.page ls ll).
Proof.
  unfold Latched.page. by_parts. apply Latched_segments_finishes. lia.
Qed.

#[local] Hint Resolve sticky_page : oggloop.

Lemma sticky_pages (fuel : nat) : forall ls ll, sticky (Latched.pages fuel ls ll).
Proof.
  induction fuel as [|fuel IH]; intros ls ll; cbn [Latched.pages]; by_parts.
Qed.

(** The read of the capture pattern makes progress or ends the scan. *)
Lemma Latched_capture_progress (rd : Latched.errReader) (b : list byte)
      (rd' : Latched.errReader) :
  Latched.ReadBytes 4 rd = Ok b rd' ->
  bytes_eqb b OggS = false \/ (pending rd' < pending rd)%nat.
Proof.
  destruct rd as [src e]. unfold Latched.ReadBytes.
  cbn [Latched.err Latched.r Z.ltb Z.eqb Z.compare].
  destruct e as [e|]; [intros [= <- <-]; now left|].
  change (Z.to_nat 4) with 4%nat. unfold ReadFull.
  destruct (Nat.leb_spec 4 (length src)); intros [= <- <-]; right;
    unfold pending; cbn [Latched.err Latched.r]; [|lia].
  pose proof (length_skipn 4 src) as Hskip. cbn [skipn] in Hskip. lia.
Qed.

Lemma Latched_pages_finishes (fuel : nat) :
  forall ls ll rd, (pending rd < fuel)%nat -> Latched.pages fuel ls ll rd <> Fuel.
Proof.
  induction fuel as [|fuel IH]; intros ls ll rd Hfuel; [lia|].
  cbn [Latched.pages]. unfold bind.
  destruct (Latched.ReadBytes 4 rd) as [b rd1| | |] eqn:E4; try discriminate.
  2:{ now apply Latched_ReadBytes_finishes in E4. }
  apply Latched_capture_progress in E4 as [E4|E4].
  { rewrite E4. discriminate. }
  destruct (negb (bytes_eqb b OggS)); [discriminate|].
  destruct (Latched.page ls ll rd1) as [a rd2| | |] eqn:Ep; try discriminate.
  2:{ now apply Latched_page_finishes in Ep. }
  apply Latched_page_shrinks in Ep.
  destruct (negb (headerFound a)); [discriminate|].
  apply IH. lia.
Qed.

(** The latched [Read] always comes back: it returns or it panics. *)
Lemma Latched_Read_total (src : stream) : Latched.Read src <> Diverged.
Proof.
  unfold Latched.Read.
  pose proof (Latched_pages_finishes (S (S (length src))) 0 0
                (Latched.ErrReader src None) ltac:(unfold pending; simpl; lia)) as H.
  destruct (Latched.pages (S (S (length src))) 0 0 (Latched.ErrReader src None))
    as [[ls ll] rd| | |]; try congruence.
  destruct e.
Qed.

(** ** The latched version follows the early-return version *)

Lemma follows_ret {A} (a : A) : follows (ret a) (ret a).
Proof. intros src. reflexivity. Qed.

Lemma follows_raise {A} (p : panic) : follows (@raise _ _ A p) (raise p).
Proof. intros src. reflexivity. Qed.

Lemma follows_fuel {A} (mB : M Latched.errReader Empty_set A) :
  follows (fun _ => Fuel) mB.
Proof. intros src. exact I. Qed.

Lemma follows_bind {A B} (mA : M stream error A) (kA : A -> M stream error B)
      (mB : M Latched.errReader Empty_set A)
      (kB : A -> M Latched.errReader Empty_set B) :
  follows mA mB -> (forall a, sticky (kB a)) -> (forall a, follows (kA a) (kB a)) ->
  follows (bind mA kA) (bind mB kB).
Proof.
  intros Hm Hs Hk src. specialize (Hm src). unfold bind.
  destruct (mA src) as [a src'|e|p|].
  - rewrite Hm. apply Hk.
  - intros b rd Hb.
    destruct (mB (fresh src)) as [a rd1| | |] eqn:E; try discriminate.
    eapply Hs; [eassumption|]. eapply Hm; reflexivity.
  - now rewrite Hm.
  - exact I.
Qed.

Lemma follows_readFull (n : nat) :
  follows (Early.readFull n) (Latched.ReadBytes (Z.of_nat n)).
Proof.
  intros src. unfold Early.readFull, Latched.ReadBytes.
  destruct (Z.ltb_spec (Z.of_nat n) 0); [lia|]. cbn [fresh Latched.err Latched.r].
  rewrite Nat2Z.id.
  destruct (Z.eqb_spec (Z.of_nat n) 0) as [H0|H0].
  - replace n with 0%nat by lia. reflexivity.
  - destruct (ReadFull n src) as [[buf src'] [e|]]; [|reflexivity].
    intros a rd [= _ <-]. discriminate.
Qed.

Lemma follows_readBytes (n : Z) :
  0 <= n -> follows (Early.readFull (Z.to_nat n)) (Latched.ReadBytes n).
Proof.
  intros Hn. pose proof (follows_readFull (Z.to_nat n)) as H.
  now rewrite Z2Nat.id in H.
Qed.

Lemma follows_skip (n : Z) : follows (Early.skip n) (Latched.Skip n).
Proof.
  intros src. unfold Early.skip, Latched.Skip. cbn [fresh Latched.err].
  destruct (n =? 0); [reflexivity|].
  destruct (Z.ltb_spec n 0) as [Hn|Hn].
  - intros a rd [= _ <-]. discriminate.
  - apply (follows_bind _ (fun _ => ret tt) _ (fun _ => ret tt)
             (follows_readBytes n Hn) (fun _ => sticky_ret tt)
             (fun _ => follows_ret tt) src).
Qed.

(** [make([]byte, size)] and the read into it are one [ReadBytes]. *)
Lemma follows_make_bind {B} (size : Z) (kA : list byte -> M stream error B)
      (kB : list byte -> M Latched.errReader Empty_set B) :
  (forall meta, sticky (kB meta)) -> (forall meta, follows (kA meta) (kB meta)) ->
  follows (n <- Early.make size ;; meta <- Early.readFull n ;; kA meta)
          (meta <- Latched.ReadBytes size ;; kB meta).
Proof.
  intros Hs Hk src. unfold bind at 1. unfold Early.make.
  destruct (Z.ltb_spec size 0) as [Hn|Hn].
  - unfold bind. now rewrite ReadBytes_negative.
  - apply (follows_bind _ kA _ kB (follows_readBytes size Hn) Hs Hk src).
Qed.

#[local] Hint Resolve
  follows_ret follows_raise follows_fuel follows_skip : oggloop.

(** The same code on both sides: bind by bind, test by test. *)
Ltac side_by_side :=
  repeat first
    [ match goal with |- forall _, _ => intro end
    | solve [auto with oggloop nocore]
    | apply (follows_readFull 1)
    | apply (follows_readFull 4)
    | (apply follows_readBytes; apply int_range)
    | (apply follows_make_bind; [by_parts | ])
    | (apply follows_bind; [ | by_parts | ])
    | code_case ].

Lemma follows_readByte : follows Early.readByte Latched.ReadByte.
Proof. unfold Early.readByte, Latched.ReadByte. side_by_side. Qed.

Lemma follows_tags (meta : list byte) (a : acc) :
  follows (Early.tags meta a) (Latched.tags meta a).
Proof.
  unfold Early.tags, Latched.tags, Early.tag, Latched.tag, Latched.mustAtoi.
  side_by_side.
Qed.

#[local] Hint Resolve follows_readByte follows_tags : oggloop.

Lemma follows_segment (segs : list byte) (i : nat) (a : acc) :
  follows (Early.segment segs i a) (Latched.segment segs i a).
Proof. unfold Early.segment, Latched.segment. side_by_side. Qed.

#[local] Hint Resolve follows_segment : oggloop.

Lemma follows_segments (fuel : nat) (segs : list byte) :
  forall i a, follows (Early.segments fuel segs i a) (Latched.segments fuel segs i a).
Proof.
  induction fuel as [|fuel IH]; intros i a;
    cbn [Early.segments Latched.segments]; side_by_side.
Qed.

#[local] Hint Resolve follows_segments : oggloop.

Lemma follows_page (ls ll : Z) : follows (Early.page ls ll) (Latched.page ls ll).
Proof. unfold Early.page, Latched.page. side_by_side. Qed.

#[local] Hint Resolve follows_page sticky_pages : oggloop.

Lemma follows_pages (fuel : nat) :
  forall ls ll, follows (Early.pages fuel ls ll) (Latched.pages (S fuel) ls ll).
Proof.
  induction fuel as [|fuel IH]; intros ls ll; [apply follows_fuel|].
  change (Latched.pages (S (S fuel)) ls ll) with
    (b <- Latched.ReadBytes 4 ;;
     if negb (bytes_eqb b OggS) then ret (ls, ll)
     else a <- Latched.page ls ll ;;
          if negb (headerFound a) then ret (loopStart a, loopLength a)
          else Latched.pages (S fuel) (loopStart a) (loopLength a)).
  cbn [Early.pages]. side_by_side.
Qed.

(** Where the early-return [Read] returns without error, the latched
    [Read] returns the same. *)
Lemma Read_follows (src : stream) (ls ll : Z) :
  Early.Read src = Returned ls ll None ->
  Latched.Read src = Returned ls ll None.
Proof.
  unfold Early.Read, Latched.Read.
  pose proof (follows_pages (S (length src)) 0 0 src) as H.
  destruct (Early.pages (S (length src)) 0 0 src) as [[ls' ll'] src'|e|p|];
    try discriminate.
  intros [= -> ->]. fold (fresh src). now rewrite H.
Qed.

(** ** [Read] on laid-out streams *)

Lemma laid_out_length (ps : list ogg_page) (trailer : list byte) :
  (length ps <= length (flat_map encode_page ps ++ trailer))%nat.
Proof.
  induction ps as [|p ps IH]; [simpl; lia|].
  cbn [flat_map length]. rewrite <- app_assoc, length_app.
  unfold encode_page at 1. rewrite length_app.
  change (length OggS) with 4%nat. lia.
Qed.

(** Pages with a header each, then something that stops the scan: both
    versions return the values the comment packets leave, without error. *)
Lemma Read_laid_out (ps : list ogg_page) (trailer : list byte) :
  Forall page_ok ps ->
  Forall (fun p => has_header p = true) ps ->
  stops_scan trailer ->
  Early.Read (flat_map encode_page ps ++ trailer)
  = Returned (fst (fold_left after_page ps (0, 0)))
             (snd (fold_left after_page ps (0, 0))) None /\
  Latched.Read (flat_map encode_page ps ++ trailer)
  = Returned (fst (fold_left after_page ps (0, 0)))
             (snd (fold_left after_page ps (0, 0))) None.
Proof.
  intros Hok Hhdr Hstop.
  assert (HE : Early.Read (flat_map encode_page ps ++ trailer)
               = Returned (fst (fold_left after_page ps (0, 0)))
                          (snd (fold_left after_page ps (0, 0))) None).
  { unfold Early.Read.
    destruct (Early_pages_encoded ps Hok Hhdr trailer Hstop
                (S (length (flat_map encode_page ps ++ trailer))) 0 0) as [rest H].
    - pose proof (laid_out_length ps trailer). lia.
    - rewrite H. now destruct (fold_left after_page ps (0, 0)). }
  split; [exact HE | now apply Read_follows].
Qed.

Lemma after_items_comments (its : list item) (a : acc) :
  let v := fold_left after_comment
             (flat_map (fun it => match it with
                                  | Comment meta => [meta]
                                  | Segment _ _ _ => []
                                  end) its)
             (loopStart a, loopLength a) in
  loopStart (fold_left after_item its a) = fst v /\
  loopLength (fold_left after_item its a) = snd v.
Proof.
  revert a. induction its as [|it its IH]; intros a; [now split|].
  cbn [fold_left flat_map]. rewrite fold_left_app.
  specialize (IH (after_item a it)).
  destruct it as [ty sig body|meta]; exact IH.
Qed.

Lemma after_pages_comments (ps : list ogg_page) (v : Z * Z) :
  fold_left after_page ps v = fold_left after_comment (comments ps) v.
Proof.
  revert v. induction ps as [|p ps IH]; intros v; [reflexivity|].
  unfold comments in *. cbn [fold_left flat_map]. rewrite fold_left_app, IH.
  f_equal. unfold after_page.
  destruct (after_items_comments (items p) (Acc (fst v) (snd v) false)) as [H1 H2].
  cbn [loopStart loopLength] in H1, H2. rewrite H1, H2.
  destruct v as [ls ll]. cbn [fst snd].
  now destruct (fold_left after_comment _ _).
Qed.

Lemma comments_app (ps qs : list ogg_page) :
  comments (ps ++ qs) = comments ps ++ comments qs.
Proof. unfold comments. apply flat_map_app. Qed.

(** A framed page whose comment packets have tags that fit is a page the
    scanner reads without a panic. *)
Lemma page_framed_ok (p : ogg_page) :
  page_framed p ->
  (forall meta, In meta (comments [p]) ->
                tag_fits loopStartRe meta /\ tag_fits loopLengthRe meta) ->
  page_ok p.
Proof.
  intros [Hfixed [Htable Hitems]] Hfits.
  split; [exact Hfixed | split; [exact Htable|]].
  unfold comments in Hfits. cbn [flat_map] in Hfits. rewrite app_nil_r in Hfits.
  clear Hfixed Htable.
  induction Hitems as [|it its Hit Hits IH]; constructor.
  - destruct it as [ty sig body|meta]; [exact Hit|].
    apply Hfits. cbn [flat_map]. now left.
  - apply IH. intros meta Hin. apply Hfits. cbn [flat_map].
    apply in_or_app. now right.
Qed.

Lemma pages_framed_ok (ps : list ogg_page) :
  Forall page_framed ps ->
  (forall meta, In meta (comments ps) ->
                tag_fits loopStartRe meta /\ tag_fits loopLengthRe meta) ->
  Forall page_ok ps.
Proof.
  induction 1 as [|p ps Hp Hps IH]; intros Hfits; constructor.
  - apply page_framed_ok; [assumption|]. intros meta Hin. apply Hfits.
    change (p :: ps) with ([p] ++ ps). rewrite comments_app.
    apply in_or_app. now left.
  - apply IH. intros meta Hin. apply Hfits.
    change (p :: ps) with ([p] ++ ps). rewrite comments_app.
    apply in_or_app. now right.
Qed.

(** The value of a tag whose leftmost match captures [ds]. *)
Lemma first_tag_value (lit ds meta : list byte) (v : Z) :
  first_tag lit ds meta -> tag_value lit meta v = decimal ds.
Proof.
  intros H. apply FindSubmatch_first_tag in H. unfold tag_value. now rewrite H.
Qed.

Lemma first_tag_fits (lit ds meta : list byte) :
  first_tag lit ds meta -> decimal ds <= maxInt -> tag_fits lit meta.
Proof.
  intros H Hfit. apply FindSubmatch_first_tag in H. unfold tag_fits. now rewrite H.
Qed.

(** * The claims *)

(** Framing of an explicit page, by evaluation. *)
Ltac framing :=
  repeat first
    [ apply Forall_nil
    | apply Forall_cons
    | split
    | reflexivity
    | (simpl; lia)
    | (right; vm_compute; discriminate)
    | (left; vm_compute; discriminate)
    | (vm_compute; discriminate) ].

(** ** C1: LOOPSTART=100 and LOOPLENGTH=200 in the comment payload *)

(** C1, as stated, fails.  The payload [tagged_twice] contains both texts,
    in a well-framed stream, and [Read] returns 7 for loopStart, the value
    of the leftmost LOOPSTART tag; in [tagged_longer] the text
    LOOPSTART=100 goes on with a digit and [Read] returns 1000; and in
    [setup_ends_short], a stream whose framing is valid Ogg, the payload
    has each tag once but the last segment of the setup header is 3 bytes
    long: the scanner cannot skip 3 - 5 bytes and returns an error. *)
Lemma C1_leftmost_tag_wins :
  (contains (bytes "LOOPSTART=100") tagged_twice = true /\
   contains (bytes "LOOPLENGTH=200") tagged_twice = true /\
   Early.Read (stream_with_comment tagged_twice) = Returned 7 200 None /\
   Latched.Read (stream_with_comment tagged_twice) = Returned 7 200 None) /\
  (contains (bytes "LOOPSTART=100") tagged_longer = true /\
   contains (bytes "LOOPLENGTH=200") tagged_longer = true /\
   Early.Read (stream_with_comment tagged_longer) = Returned 1000 200 None /\
   Latched.Read (stream_with_comment tagged_longer) = Returned 1000 200 None) /\
  (Early.Read setup_ends_short = Returned 0 0 (Some (ErrSkipByte (-2))) /\
   Latched.Read setup_ends_short = Returned 100 200 (Some (ErrSkippingBytes (-2)))).
Proof. repeat split; vm_compute; reflexivity. Qed.

(** C1, amended: for every stream of pages framed as the scanner reads
    them (22 bytes of fixed header, a table of at most 255 entries, every
    segment other than the comment packet at least five bytes long and in
    one entry), each page with a Vorbis header, that ends by something the
    scan stops at (four bytes that are not "OggS", or a page without Vorbis
    header), and whose only comment packet has a payload where the leftmost
    LOOPSTART= followed by a digit is followed by exactly 100 and the
    leftmost LOOPLENGTH= followed by a digit by exactly 200 (either order,
    any other bytes around), both versions of [Read] return loopStart = 100
    and loopLength = 200 with a nil error. *)
Theorem C1_first_tags_100_200 (ps : list ogg_page) (trailer meta : list byte) :
  Forall page_framed ps ->
  Forall (fun p => has_header p = true) ps ->
  stops_scan trailer ->
  comments ps = [meta] ->
  first_tag loopStartRe (bytes "100") meta ->
  first_tag loopLengthRe (bytes "200") meta ->
  Early.Read (flat_map encode_page ps ++ trailer) = Returned 100 200 None /\
  Latched.Read (flat_map encode_page ps ++ trailer) = Returned 100 200 None.
Proof.
  intros Hframed Hhdr Hstop Hcomments Hstart Hlength.
  assert (Hok : Forall page_ok ps).
  { apply pages_framed_ok; [assumption|]. rewrite Hcomments.
    intros m [<-|[]]. split; eapply first_tag_fits; try eassumption;
      vm_compute; discriminate. }
  pose proof (Read_laid_out ps trailer Hok Hhdr Hstop) as H.
  rewrite after_pages_comments, Hcomments in H.
  cbn [fold_left after_comment fst snd] in H.
  rewrite (first_tag_value _ _ _ _ Hstart), (first_tag_value _ _ _ _ Hlength) in H.
  exact H.
Qed.

Lemma C1_first_tags_100_200_witness :
  Early.Read (flat_map encode_page
                [identification_page;
                 Page (zeros 22) [Comment tagged_once;
                                  Segment x05 vorb (bytes "is" ++ zeros 40)]]
              ++ encode_page audio_page ++ [])
  = Returned 100 200 None /\
  Latched.Read (flat_map encode_page
                  [identification_page;
                   Page (zeros 22) [Comment tagged_once;
                                    Segment x05 vorb (bytes "is" ++ zeros 40)]]
                ++ encode_page audio_page ++ [])
  = Returned 100 200 None.
Proof.
  apply (C1_first_tags_100_200
           [identification_page;
            Page (zeros 22) [Comment tagged_once;
                             Segment x05 vorb (bytes "is" ++ zeros 40)]]
           (encode_page audio_page ++ []) tagged_once).
  - framing.
  - framing.
  - right. exists audio_page, []. framing.
  - reflexivity.
  - apply FindSubmatch_first_tag. vm_compute. reflexivity.
  - apply FindSubmatch_first_tag. vm_compute. reflexivity.
Defined.

(** ** C2: the comment packet laced over a run of entries *)

Lemma Latched_ReadBytes_app (a rest : list byte) :
  Latched.ReadBytes (Z.of_nat (length a)) (fresh (a ++ rest)) = Ok a (fresh rest).
Proof.
  pose proof (follows_readFull (length a) (a ++ rest)) as H.
  now rewrite Early_readFull_app in H.
Qed.

Lemma Latched_ReadByte_cons (c : byte) (rest : list byte) :
  Latched.ReadByte (fresh (c :: rest)) = Ok c (fresh rest).
Proof. reflexivity. Qed.

Lemma Latched_segment_comment (pre run tail : list byte) (a : acc) (meta rest : list byte) :
  Forall (fun e => int e = 255) run -> closes_run tail ->
  Z.of_nat (length meta) = total (run ++ firstn 1 tail) - 5 ->
  Latched.segment (pre ++ run ++ tail) (length pre) a (fresh (x03 :: vorb ++ meta ++ rest))
  = (' (ls, ll) <- Latched.tags meta a ;;
     ret ((length pre + length run)%nat, Acc ls ll true)) (fresh rest).
Proof.
  intros Hrun Htail Hlen.
  unfold Latched.segment.
  rewrite (bind_Ok _ _ _ _ _ (Latched_ReadByte_cons _ _)).
  rewrite (bind_Ok _ _ _ _ _ (Latched_ReadBytes_app vorb (meta ++ rest))).
  rewrite bytes_eqb_refl. cbn [negb].
  change (int x03 =? 3) with true. cbn [negb].
  rewrite skipn_exact, packet_size_run by assumption.
  cbn [Z.add]. rewrite <- Hlen.
  rewrite (bind_Ok _ _ _ _ _ (Latched_ReadBytes_app meta rest)).
  reflexivity.
Qed.

(** C2: at the comment-header segment of a table [pre ++ run ++ tail],
    where [run] is a run of entries 255 and [tail] begins with an entry
    below 255 or is empty (the table is exhausted), the size [Read]
    computes is the sum of the entries of the run and of the terminating
    entry, if any, and the index is left on the terminating entry (at the
    end of the table when there is none); the payload handed to the tag
    extractor is exactly the [size - 5] bytes that follow the five bytes of
    type and signature.  Both versions. *)
Theorem C2_comment_packet_reassembled
        (pre run tail : list byte) (a : acc) (meta rest : list byte) :
  Forall (fun e => int e = 255) run ->
  closes_run tail ->
  Z.of_nat (length meta) = total (run ++ firstn 1 tail) - 5 ->
  packet_size (skipn (length pre) (pre ++ run ++ tail)) (length pre) 0
  = ((length pre + length run)%nat, total (run ++ firstn 1 tail)) /\
  Early.segment (pre ++ run ++ tail) (length pre) a (x03 :: vorb ++ meta ++ rest)
  = (' (ls, ll) <- Early.tags meta a ;;
     ret ((length pre + length run)%nat, Acc ls ll true)) rest /\
  Latched.segment (pre ++ run ++ tail) (length pre) a (fresh (x03 :: vorb ++ meta ++ rest))
  = (' (ls, ll) <- Latched.tags meta a ;;
     ret ((length pre + length run)%nat, Acc ls ll true)) (fresh rest).
Proof.
  intros Hrun Htail Hlen. split; [|split].
  - now rewrite skipn_exact, packet_size_run.
  - now apply Early_segment_comment.
  - now apply Latched_segment_comment.
Qed.

(** A payload of 510 - 5 bytes after an identification segment: the
    entries 255, 255, 0 are one packet; and 255, 255 at the end of the
    table are one packet too. *)
Lemma C2_comment_packet_reassembled_witness :
  (packet_size (skipn 1 ([x1e] ++ [xff; xff] ++ [x00; x1e])) 1 0 = (3%nat, 510) /\
   Early.segment ([x1e] ++ [xff; xff] ++ [x00; x1e]) 1 (Acc 0 0 true)
     (x03 :: vorb ++ (bytes "LOOPSTART=12345" ++ zeros 490) ++ bytes "rest")
   = Ok (3%nat, Acc 12345 0 true) (bytes "rest")) /\
  (packet_size (skipn 1 ([x1e] ++ [xff; xff] ++ [])) 1 0 = (3%nat, 510) /\
   Latched.segment ([x1e] ++ [xff; xff] ++ []) 1 (Acc 0 0 true)
     (fresh (x03 :: vorb ++ (bytes "LOOPSTART=12345" ++ zeros 490) ++ bytes "rest"))
   = Ok (3%nat, Acc 12345 0 true) (fresh (bytes "rest"))).
Proof.
  split.
  - destruct (C2_comment_packet_reassembled [x1e] [xff; xff] [x00; x1e] (Acc 0 0 true)
                (bytes "LOOPSTART=12345" ++ zeros 490) (bytes "rest"))
      as [Hsize [Hearly _]].
    + repeat constructor.
    + vm_compute. reflexivity.
    + reflexivity.
    + split; [exact Hsize | exact Hearly].
  - destruct (C2_comment_packet_reassembled [x1e] [xff; xff] [] (Acc 0 0 true)
                (bytes "LOOPSTART=12345" ++ zeros 490) (bytes "rest"))
      as [Hsize [_ Hlatched]].
    + repeat constructor.
    + exact I.
    + reflexivity.
    + split; [exact Hsize | exact Hlatched].
Defined.

(** Payloads that make the comment packet 255, 256, 260, 261, 510 and 515
    bytes long, with the tags as their last bytes: the extractor sees them. *)
Lemma comment_payload_boundaries :
  Forall (fun n =>
            Early.Read (stream_with_comment
                          (zeros n ++ bytes "LOOPSTART=12345;LOOPLENGTH=6789"))
            = Returned 12345 6789 None /\
            Latched.Read (stream_with_comment
                            (zeros n ++ bytes "LOOPSTART=12345;LOOPLENGTH=6789"))
            = Returned 12345 6789 None)
         [219; 220; 224; 225; 474; 479]%nat.
Proof. repeat constructor; vm_compute; reflexivity. Qed.

(** ** C3: what comes with an error *)

Lemma Latched_page_encoded (p : ogg_page) (ls ll : Z) (rest : list byte) :
  page_ok p ->
  Latched.page ls ll
    (fresh (fixed p ++ byte_of (length (table (items p)))
                    :: table (items p) ++ flat_map content (items p) ++ rest))
  = Ok (fold_left after_item (items p) (Acc ls ll false)) (fresh rest).
Proof.
  intros Hp.
  pose proof (follows_page ls ll
                (fixed p ++ byte_of (length (table (items p)))
                         :: table (items p) ++ flat_map content (items p) ++ rest)) as H.
  now rewrite Early_page_encoded in H.
Qed.

(** Whole pages with a header each and then the end of the stream: the
    next read of a capture pattern meets [io.EOF]; the early-return version
    returns it with zeros, the latched version with the values the comment
    packets have left. *)
Lemma pages_then_eof (ps : list ogg_page) :
  Forall page_ok ps ->
  Forall (fun p => has_header p = true) ps ->
  forall fuel ls ll,
    (length ps < fuel)%nat ->
    Early.pages fuel ls ll (flat_map encode_page ps) = Err EOF /\
    Latched.pages fuel ls ll (fresh (flat_map encode_page ps))
    = Ok (fold_left after_page ps (ls, ll)) (Latched.ErrReader [] (Some EOF)).
Proof.
  intros Hok Hhdr.
  induction Hok as [|p ps Hp Hps IH]; intros fuel ls ll Hfuel.
  - destruct fuel as [|fuel]; [simpl in Hfuel; lia|]. split; reflexivity.
  - destruct fuel as [|fuel]; [simpl in Hfuel; lia|].
    inversion Hhdr as [|? ? Hph Hpsh]; subst.
    destruct (IH Hpsh fuel
                (loopStart (fold_left after_item (items p) (Acc ls ll false)))
                (loopLength (fold_left after_item (items p) (Acc ls ll false)))
                ltac:(simpl in Hfuel; lia)) as [IHE IHL].
    cbn [flat_map fold_left Early.pages Latched.pages]. unfold encode_page at 1 3.
    rewrite <- !app_assoc. cbn [app].
    rewrite (bind_Ok _ _ _ _ _ (Early_readFull_app OggS _)).
    rewrite (bind_Ok _ _ _ _ _ (Latched_ReadBytes_app OggS _)).
    rewrite bytes_eqb_refl. cbn [negb].
    rewrite <- !app_assoc.
    rewrite (bind_Ok _ _ _ _ _ (Early_page_encoded p ls ll _ Hp)).
    rewrite (bind_Ok _ _ _ _ _ (Latched_page_encoded p ls ll _ Hp)).
    rewrite after_items_header. unfold has_header in Hph. rewrite Hph.
    cbn [headerFound orb negb]. split; assumption.
Qed.

(** C3, as stated, fails for the latched version: the stream ends after the
    page of the comment packet, the next read of a capture pattern latches
    [io.EOF], and [Read] returns the error together with the values of the
    tags it has extracted; the early-return version returns zeros. *)
Lemma C3_latched_returns_values_with_error :
  Latched.Read ends_after_comment = Returned 100 200 (Some EOF) /\
  Early.Read ends_after_comment = Returned 0 0 (Some EOF).
Proof. split; vm_compute; reflexivity. Qed.

(** Whole pages read to their end with a header found in each, and then
    the end of the stream: the read of the next capture pattern meets
    [io.EOF]; the early-return version returns it at once, the latched
    version comes back with it latched and with the values of the pages. *)
Lemma scanned_then_eof (c c' : Z * Z * stream) :
  scanned c c' -> snd c' = [] ->
  forall fuel, (length (snd c) < fuel)%nat ->
    Early.pages fuel (fst (fst c)) (snd (fst c)) (snd c) = Err EOF /\
    Latched.pages fuel (fst (fst c)) (snd (fst c)) (fresh (snd c))
    = Ok (fst c') (Latched.ErrReader [] (Some EOF)).
Proof.
  induction 1 as [[[ls ll] src] | ls ll src src1 a src2 c Hcap Hpage Hf Hscan IH];
    intros Hend fuel Hfuel; cbn [fst snd] in *.
  - subst src. destruct fuel as [|fuel]; [lia|]. split; reflexivity.
  - destruct fuel as [|fuel]; [lia|]. cbn [Early.pages Latched.pages].
    pose proof (follows_readFull 4 src) as HcapL. rewrite Hcap in HcapL.
    change (Z.of_nat 4) with 4 in HcapL.
    pose proof (follows_page ls ll src1) as HpageL. rewrite Hpage in HpageL.
    rewrite (bind_Ok _ _ _ _ _ Hcap), (bind_Ok _ _ _ _ _ HcapL), bytes_eqb_refl.
    cbn [negb].
    rewrite (bind_Ok _ _ _ _ _ Hpage), (bind_Ok _ _ _ _ _ HpageL), Hf.
    cbn [negb].
    apply (IH Hend).
    apply Early_readFull_length in Hcap as [Hcap _].
    apply Early_page_shrinks in Hpage. lia.
Qed.

(** C3, amended: whenever the early-return [Read] (src/oggloop.go) returns
    a non-nil error, loopStart and loopLength are both 0.  The latched
    [Read] returns accumulated values with its error: on every stream that
    the page loop reads as zero or more whole pages, each read to its end
    without error and with a Vorbis header found in it ([scanned]), and
    that ends right after the last of these pages, it returns [io.EOF]
    with the values accumulated over these pages, where the early-return
    version returns [io.EOF] with 0 and 0.  In particular, on pages framed
    as the scanner reads them ([page_ok]: 22 bytes of fixed header, a table
    of at most 255 entries, every segment that is not a comment packet of
    5 to 255 bytes in one entry, the digits of the tags of the comment
    payloads a decimal of at most 2^63 - 1), each with a Vorbis header,
    these values are the ones the comment payloads leave, folded in the
    order of the stream from 0 and 0. *)
Theorem C3_error_and_values :
  (forall src ls ll e,
     Early.Read src = Returned ls ll (Some e) -> ls = 0 /\ ll = 0) /\
  (forall src ls ll,
     scanned (0, 0, src) (ls, ll, []) ->
     Early.Read src = Returned 0 0 (Some EOF) /\
     Latched.Read src = Returned ls ll (Some EOF)) /\
  (forall ps,
     Forall page_ok ps ->
     Forall (fun p => has_header p = true) ps ->
     Early.Read (flat_map encode_page ps) = Returned 0 0 (Some EOF) /\
     Latched.Read (flat_map encode_page ps)
     = Returned (fst (fold_left after_comment (comments ps) (0, 0)))
                (snd (fold_left after_comment (comments ps) (0, 0))) (Some EOF)).
Proof.
  split; [|split].
  - intros src ls ll e. unfold Early.Read.
    destruct (Early.pages (S (length src)) 0 0 src) as [[ls' ll'] src'|e'|p|];
      try discriminate.
    now intros [= <- <- _].
  - intros src ls ll Hscan.
    destruct (scanned_then_eof _ _ Hscan eq_refl (S (length src))
                ltac:(cbn [fst snd]; lia)) as [HE _].
    destruct (scanned_then_eof _ _ Hscan eq_refl (S (S (length src)))
                ltac:(cbn [fst snd]; lia)) as [_ HL].
    cbn [fst snd] in HE, HL. unfold Early.Read, Latched.Read.
    unfold fresh in HL. now rewrite HE, HL.
  - intros ps Hok Hhdr.
    pose proof (laid_out_length ps []) as Hlen. rewrite app_nil_r in Hlen.
    destruct (pages_then_eof ps Hok Hhdr (S (length (flat_map encode_page ps))) 0 0
                ltac:(lia)) as [HE HL].
    split.
    + unfold Early.Read. now rewrite HE.
    + unfold Latched.Read.
      assert (HL' : Latched.pages (S (S (length (flat_map encode_page ps)))) 0 0
                      (fresh (flat_map encode_page ps))
                    = Ok (fold_left after_page ps (0, 0))
                         (Latched.ErrReader [] (Some EOF))).
      { apply (pages_then_eof ps Hok Hhdr). lia. }
      unfold fresh in HL'. rewrite HL', after_pages_comments.
      now destruct (fold_left after_comment (comments ps) (0, 0)).
Qed.

Lemma C3_error_and_values_witness :
  (0 = 0 /\ 0 = 0) /\
  (Early.Read ends_after_comment = Returned 0 0 (Some EOF) /\
   Latched.Read ends_after_comment = Returned 100 200 (Some EOF)) /\
  Early.Read (flat_map encode_page
                [identification_page; Page (zeros 22) [Comment tagged_once]])
  = Returned 0 0 (Some EOF) /\
  Latched.Read (flat_map encode_page
                  [identification_page; Page (zeros 22) [Comment tagged_once]])
  = Returned 100 200 (Some EOF).
Proof.
  split; [|split].
  - apply (proj1 C3_error_and_values (bytes "Ogg") 0 0 ErrUnexpectedEOF).
    vm_compute. reflexivity.
  - apply (proj1 (proj2 C3_error_and_values) ends_after_comment 100 200).
    apply (scanned_page 0 0 ends_after_comment
             (skipn 4 ends_after_comment) (Acc 0 0 true)
             (encode_page (Page (zeros 22) [Comment tagged_once])));
      [vm_compute; reflexivity | vm_compute; reflexivity | reflexivity |].
    apply (scanned_page 0 0 (encode_page (Page (zeros 22) [Comment tagged_once]))
             (skipn 4 (encode_page (Page (zeros 22) [Comment tagged_once])))
             (Acc 100 200 true) []);
      [vm_compute; reflexivity | vm_compute; reflexivity | reflexivity |].
    apply scanned_here.
  - apply (proj2 (proj2 C3_error_and_values)
             [identification_page; Page (zeros 22) [Comment tagged_once]]).
    + framing.
    + framing.
Defined.

(** ** C4: no capture pattern at the start *)

Lemma short_capture (src : list byte) :
  (length src < 4)%nat -> bytes_eqb (src ++ zeros (4 - length src)) OggS = false.
Proof.
  intros H. apply bytes_eqb_neq.
  destruct src as [|c0 [|c1 [|c2 [|c3 src]]]]; simpl in H; try lia;
    cbn; intros E; inversion E.
Qed.

(** C4, as stated, fails on the empty stream: the read of the capture
    pattern fails and both versions return [io.EOF], not a nil error. *)
Lemma C4_empty_stream_is_an_error :
  Early.Read [] = Returned 0 0 (Some EOF) /\
  Latched.Read [] = Returned 0 0 (Some EOF).
Proof. split; reflexivity. Qed.

(** C4, amended: for every stream whose first four bytes are not "OggS",
    both versions return loopStart = 0 and loopLength = 0; the error is nil
    when the stream holds at least four bytes, and the error of the short
    read otherwise: [io.EOF] for the empty stream, [io.ErrUnexpectedEOF]
    for one to three bytes. *)
Theorem C4_no_capture_pattern (src : stream) :
  firstn 4 src <> OggS ->
  let err := if (4 <=? length src)%nat then None
             else Some (match src with [] => EOF | _ :: _ => ErrUnexpectedEOF end) in
  Early.Read src = Returned 0 0 err /\ Latched.Read src = Returned 0 0 err.
Proof.
  intros Hne. cbv zeta.
  destruct (Nat.leb_spec 4 (length src)) as [Hlen|Hlen].
  - assert (HE : Early.Read src = Returned 0 0 None).
    { unfold Early.Read. now rewrite Early_pages_mismatch. }
    split; [exact HE | now apply Read_follows].
  - split.
    + unfold Early.Read. cbn [Early.pages]. unfold bind, Early.readFull.
      now rewrite ReadFull_short.
    + unfold Latched.Read. cbn [Latched.pages]. unfold bind, Latched.ReadBytes.
      cbn [Latched.err Latched.r Z.ltb Z.eqb Z.compare].
      change (Z.to_nat 4) with 4%nat.
      rewrite ReadFull_short by assumption.
      now rewrite short_capture.
Qed.

Lemma C4_no_capture_pattern_witness :
  (Early.Read (bytes "RIFF....WAVE") = Returned 0 0 None /\
   Latched.Read (bytes "RIFF....WAVE") = Returned 0 0 None) /\
  (Early.Read (bytes "Ogg") = Returned 0 0 (Some ErrUnexpectedEOF) /\
   Latched.Read (bytes "Ogg") = Returned 0 0 (Some ErrUnexpectedEOF)).
Proof.
  split.
  - apply (C4_no_capture_pattern (bytes "RIFF....WAVE")). vm_compute. discriminate.
  - apply (C4_no_capture_pattern (bytes "Ogg")). vm_compute. discriminate.
Defined.

(** ** C5: a comment packet shorter than its five classified bytes *)

(** The skips test their length: a negative one is an error, returned at
    once or latched. *)
Lemma skip_negative (n : Z) (src : stream) :
  n < 0 ->
  Early.skip n src = Err (ErrSkipByte n) /\
  Latched.Skip n (fresh src)
  = Ok tt (Latched.ErrReader src (Some (ErrSkippingBytes n))).
Proof.
  intros Hn. unfold Early.skip, Latched.Skip. cbn [fresh Latched.err Latched.r].
  destruct (Z.eqb_spec n 0); [lia|].
  destruct (Z.ltb_spec n 0); [now split | lia].
Qed.

(** The comment header met at a table entry below 5: both versions panic. *)
Lemma segment_short_comment (pre : list byte) (t : byte) (tail : list byte)
      (a : acc) (rest : list byte) :
  int t < 5 ->
  Early.segment (pre ++ t :: tail) (length pre) a (x03 :: vorb ++ rest)
  = Panic MakesliceLenOutOfRange /\
  Latched.segment (pre ++ t :: tail) (length pre) a (fresh (x03 :: vorb ++ rest))
  = Panic MakesliceLenOutOfRange.
Proof.
  intros Ht. unfold Early.segment, Latched.segment.
  rewrite (bind_Ok _ _ _ _ _ (Early_readByte_cons _ _)).
  rewrite (bind_Ok _ _ _ _ _ (Early_readFull_app vorb rest)).
  rewrite (bind_Ok _ _ _ _ _ (Latched_ReadByte_cons _ _)).
  rewrite (bind_Ok _ _ _ _ _ (Latched_ReadBytes_app vorb rest)).
  rewrite bytes_eqb_refl. cbn [negb].
  change (int x03 =? 3) with true. cbn [negb].
  rewrite skipn_exact. cbn [packet_size].
  destruct (Z.ltb_spec (int t) 255); [|lia].
  unfold bind, Early.make.
  rewrite ReadBytes_negative by lia.
  destruct (Z.ltb_spec (0 + int t - 5) 0); [now split | lia].
Qed.

(** C5 fails on the code: the comment header met at an entry below 5 gives
    a negative size to [make([]byte, size)], and both versions panic
    instead of returning an error. *)
Theorem C5_short_comment_packet_panics :
  Early.Read empty_packet_first = Panicked MakesliceLenOutOfRange /\
  Latched.Read empty_packet_first = Panicked MakesliceLenOutOfRange.
Proof. split; vm_compute; reflexivity. Qed.

(** ** C6: the digits of a tag that is no [int] *)

(** The tag extractor panics exactly on a tag whose run of digits is above
    the largest [int]; the syntax error of [Atoi] cannot happen. *)
Lemma tag_panics_iff (re meta : list byte) (v : Z) (src : stream) (p : panic) :
  Early.tag re meta v src = Panic p <->
  p = AtoiPanic ErrRange /\
  exists ds, FindSubmatch re meta = Some ds /\ maxInt < decimal ds.
Proof.
  unfold Early.tag.
  destruct (FindSubmatch re meta) as [ds|] eqn:Hm.
  - destruct (FindSubmatch_digits _ _ _ Hm) as [Hne Hall].
    rewrite Atoi_digits by assumption.
    destruct (Z.leb_spec (decimal ds) maxInt); split.
    + discriminate.
    + intros [_ [ds' [[= <-] Hlt]]]. lia.
    + intros [= <-]. split; [reflexivity|]. now exists ds.
    + now intros [-> _].
  - split; [discriminate|]. now intros [_ [ds [Hds _]]].
Qed.

Lemma Latched_tag_panics_iff (re meta : list byte) (v : Z)
      (rd : Latched.errReader) (p : panic) :
  Latched.tag re meta v rd = Panic p <->
  p = AtoiPanic ErrRange /\
  exists ds, FindSubmatch re meta = Some ds /\ maxInt < decimal ds.
Proof.
  unfold Latched.tag, Latched.mustAtoi.
  destruct (FindSubmatch re meta) as [ds|] eqn:Hm.
  - destruct (FindSubmatch_digits _ _ _ Hm) as [Hne Hall].
    rewrite Atoi_digits by assumption.
    destruct (Z.leb_spec (decimal ds) maxInt); split.
    + discriminate.
    + intros [_ [ds' [[= <-] Hlt]]]. lia.
    + intros [= <-]. split; [reflexivity|]. now exists ds.
    + now intros [-> _].
  - split; [discriminate|]. now intros [_ [ds [Hds _]]].
Qed.

(** C6 fails on the code: 2^63 is a run of digits that [strconv.Atoi]
    refuses with its range error, and both versions panic. *)
Theorem C6_digits_out_of_range_panic :
  FindSubmatch loopStartRe (bytes "LOOPSTART=9223372036854775808")
  = Some (bytes "9223372036854775808") /\
  Atoi (bytes "9223372036854775808") = NumError ErrRange /\
  Early.Read (stream_with_comment (bytes "LOOPSTART=9223372036854775808"))
  = Panicked (AtoiPanic ErrRange) /\
  Latched.Read (stream_with_comment (bytes "LOOPSTART=9223372036854775808"))
  = Panicked (AtoiPanic ErrRange).
Proof. repeat split; vm_compute; reflexivity. Qed.

(** ** C7: the two ways [Read] ends without an error *)

Lemma bind_Ok_inv {S E A B} (m : M S E A) (k : A -> M S E B) s b s' :
  bind m k s = Ok b s' -> exists a s1, m s = Ok a s1 /\ k a s1 = Ok b s'.
Proof.
  unfold bind. destruct (m s) as [a s1| | |]; try discriminate.
  intros H. now exists a, s1.
Qed.

Lemma Early_readByte_inv (src : stream) (c : byte) (src' : stream) :
  Early.readByte src = Ok c src' -> src = c :: src'.
Proof.
  destruct src as [|c0 src]; [discriminate|].
  rewrite Early_readByte_cons. now intros [= <- <-].
Qed.

Lemma Early_readFull_inv (n : nat) (src : stream) (b : list byte) (src' : stream) :
  Early.readFull n src = Ok b src' ->
  b = firstn n src /\ src' = skipn n src /\ (n <= length src)%nat.
Proof.
  unfold Early.readFull, ReadFull.
  destruct (Nat.leb_spec n (length src)); [|discriminate].
  now intros [= <- <-].
Qed.

(** A segment sets [headerFound] exactly when the four bytes after its
    type byte are "vorb", and never resets it. *)
Lemma Early_segment_header (segs : list byte) (i : nat) (a : acc) (src : stream)
      (i' : nat) (a' : acc) (src' : stream) :
  Early.segment segs i a src = Ok (i', a') src' ->
  headerFound a' = headerFound a || bytes_eqb (firstn 4 (skipn 1 src)) vorb.
Proof.
  unfold Early.segment. intros H.
  apply bind_Ok_inv in H as [headerType [s1 [Hty H]]].
  apply Early_readByte_inv in Hty. subst src. cbn [skipn].
  apply bind_Ok_inv in H as [b [s2 [Hb H]]].
  apply Early_readFull_inv in Hb as [-> _].
  destruct (bytes_eqb (firstn 4 s1) vorb); cbn [negb] in H.
  - rewrite orb_true_r.
    destruct (negb (int headerType =? 3)).
    + apply bind_Ok_inv in H as [_ [s3 [_ H]]]. now injection H as _ <- _.
    + destruct (packet_size (skipn i segs) i 0) as [i0 size].
      apply bind_Ok_inv in H as [n [s3 [_ H]]].
      apply bind_Ok_inv in H as [meta [s4 [_ H]]].
      apply bind_Ok_inv in H as [[ls ll] [s5 [_ H]]]. now injection H as _ <- _.
  - rewrite orb_false_r.
    apply bind_Ok_inv in H as [_ [s3 [_ H]]]. now injection H as _ <- _.
Qed.

(** A segment that leaves [headerFound] false leaves the state as it was. *)
Lemma Early_segment_unchanged (segs : list byte) (i : nat) (a : acc) (src : stream)
      (i' : nat) (a' : acc) (src' : stream) :
  Early.segment segs i a src = Ok (i', a') src' ->
  headerFound a' = false -> a' = a.
Proof.
  unfold Early.segment. intros H Hf.
  apply bind_Ok_inv in H as [headerType [s1 [_ H]]].
  apply bind_Ok_inv in H as [b [s2 [_ H]]].
  destruct (negb (bytes_eqb b vorb)).
  { apply bind_Ok_inv in H as [_ [s3 [_ H]]]. now injection H as _ <- _. }
  destruct (negb (int headerType =? 3)).
  { apply bind_Ok_inv in H as [_ [s3 [_ H]]]. injection H as _ <- _. discriminate Hf. }
  destruct (packet_size (skipn i segs) i 0) as [i0 size].
  apply bind_Ok_inv in H as [n [s3 [_ H]]].
  apply bind_Ok_inv in H as [meta [s4 [_ H]]].
  apply bind_Ok_inv in H as [[ls ll] [s5 [_ H]]].
  injection H as _ <- _. discriminate Hf.
Qed.

Lemma Early_segments_unchanged (fuel : nat) (segs : list byte) :
  forall i a src a' src',
    Early.segments fuel segs i a src = Ok a' src' ->
    headerFound a' = false -> a' = a.
Proof.
  induction fuel as [|fuel IH]; intros i a src a' src' H Hf;
    cbn [Early.segments] in H; destruct (i <? length segs)%nat;
    try (now injection H as <- _); [discriminate|].
  apply bind_Ok_inv in H as [[i1 a1] [s1 [Hseg H]]].
  pose proof (IH _ _ _ _ _ H Hf) as ->.
  eapply Early_segment_unchanged; eassumption.
Qed.

Lemma Early_page_unchanged (ls ll : Z) (src : stream) (a : acc) (src' : stream) :
  Early.page ls ll src = Ok a src' -> headerFound a = false -> a = Acc ls ll false.
Proof.
  unfold Early.page. intros H Hf.
  apply bind_Ok_inv in H as [_ [s1 [_ H]]].
  apply bind_Ok_inv in H as [nseg [s2 [_ H]]].
  apply bind_Ok_inv in H as [segs [s3 [_ H]]].
  eapply Early_segments_unchanged; eassumption.
Qed.

Lemma pages_scanned (fuel : nat) :
  forall ls0 ll0 src ls ll src',
    Early.pages fuel ls0 ll0 src = Ok (ls, ll) src' ->
    exists src0,
      scanned (ls0, ll0, src) (ls, ll, src0) /\
      (capture_mismatch src0 \/ headerless_page ls ll src0).
Proof.
  induction fuel as [|fuel IH]; intros ls0 ll0 src ls ll src' H; [discriminate|].
  cbn [Early.pages] in H.
  apply bind_Ok_inv in H as [b [src1 [Hb H]]].
  destruct (bytes_eqb b OggS) eqn:Hcap; cbn [negb] in H.
  - apply bytes_eqb_eq in Hcap. subst b.
    apply bind_Ok_inv in H as [a [src2 [Hpage H]]].
    destruct (headerFound a) eqn:Hf; cbn [negb] in H.
    + destruct (IH _ _ _ _ _ _ H) as [src0 [Hscan Hstop]].
      exists src0. split; [|exact Hstop].
      eapply scanned_page; eassumption.
    + injection H as <- <- _.
      pose proof (Early_page_unchanged _ _ _ _ _ Hpage Hf) as ->.
      exists src. split; [apply scanned_here|].
      right. now exists src1, src2.
  - injection H as <- <- _. apply bytes_eqb_neq in Hcap.
    exists src. split; [apply scanned_here|].
    left. now exists b, src1.
Qed.

Lemma scanned_pages (c c' : Z * Z * stream) :
  scanned c c' ->
  capture_mismatch (snd c') \/ headerless_page (fst (fst c')) (snd (fst c')) (snd c') ->
  forall fuel, (length (snd c) < fuel)%nat ->
    exists rest,
      Early.pages fuel (fst (fst c)) (snd (fst c)) (snd c) = Ok (fst c') rest.
Proof.
  induction 1 as [[[ls ll] src] | ls ll src src1 a src2 c Hcap Hpage Hf Hscan IH];
    intros Hstop fuel Hfuel; cbn [fst snd] in *.
  - destruct fuel as [|fuel]; [lia|]. cbn [Early.pages].
    destruct Hstop as [[b [src1 [Hb Hne]]] | [src1 [src2 [Hb Hpage]]]].
    + exists src1. rewrite (bind_Ok _ _ _ _ _ Hb).
      apply bytes_eqb_neq in Hne. now rewrite Hne.
    + exists src2. rewrite (bind_Ok _ _ _ _ _ Hb), bytes_eqb_refl. cbn [negb].
      now rewrite (bind_Ok _ _ _ _ _ Hpage).
  - destruct fuel as [|fuel]; [lia|]. cbn [Early.pages].
    rewrite (bind_Ok _ _ _ _ _ Hcap), bytes_eqb_refl. cbn [negb].
    rewrite (bind_Ok _ _ _ _ _ Hpage), Hf. cbn [negb].
    apply (IH Hstop).
    apply Early_readFull_length in Hcap as [Hcap _].
    apply Early_page_shrinks in Hpage. lia.
Qed.

(** The two versions return without error on the same streams, and the
    same values. *)
Lemma Read_nil_iff (src : stream) (ls ll : Z) :
  Latched.Read src = Returned ls ll None <-> Early.Read src = Returned ls ll None.
Proof.
  split; [|apply Read_follows].
  intros HL. pose proof (Early_Read_total src) as Htotal.
  unfold Early.Read, Latched.Read in *.
  pose proof (follows_pages (S (length src)) 0 0 src) as H.
  fold (fresh src) in HL.
  destruct (Early.pages (S (length src)) 0 0 src) as [[ls' ll'] src'|e|p|].
  - rewrite H in HL. cbn [fresh Latched.err] in HL. exact HL.
  - destruct (Latched.pages (S (S (length src))) 0 0 (fresh src))
      as [[ls' ll'] rd|e'|p|]; try discriminate; [|destruct e'].
    specialize (H _ _ eq_refl). injection HL as _ _ HL. congruence.
  - rewrite H in HL. discriminate.
  - congruence.
Qed.

(** C7: [Read] returns a nil error exactly when, after zero or more whole
    pages that each had a Vorbis header, either four bytes are read that
    are not "OggS", or one more page is read to its end with [headerFound]
    still false; the values returned are those accumulated over the pages
    before (the last page, without header, changes none).  A segment sets
    [headerFound] exactly when its signature is "vorb".  The latched
    version returns a nil error on the same streams with the same
    values. *)
Theorem C7_normal_termination (src : stream) (ls ll : Z) :
  (Early.Read src = Returned ls ll None <->
   exists src0,
     scanned (0, 0, src) (ls, ll, src0) /\
     (capture_mismatch src0 \/ headerless_page ls ll src0)) /\
  (Latched.Read src = Returned ls ll None <-> Early.Read src = Returned ls ll None) /\
  (forall segs i a s i' a' s',
     Early.segment segs i a s = Ok (i', a') s' ->
     headerFound a' = headerFound a || bytes_eqb (firstn 4 (skipn 1 s)) vorb).
Proof.
  split; [|split; [apply Read_nil_iff | apply Early_segment_header]].
  unfold Early.Read. split.
  - destruct (Early.pages (S (length src)) 0 0 src) as [[ls' ll'] src'|e|p|] eqn:H;
      try discriminate.
    intros [= <- <-]. eapply pages_scanned. eassumption.
  - intros [src0 [Hscan Hstop]].
    destruct (scanned_pages _ _ Hscan Hstop (S (length src)) ltac:(simpl; lia))
      as [rest H].
    cbn [fst snd] in H. now rewrite H.
Qed.

Lemma C7_normal_termination_witness :
  exists src0,
    scanned (0, 0, stream_with_comment tagged_once) (100, 200, src0) /\
    (capture_mismatch src0 \/ headerless_page 100 200 src0).
Proof.
  apply (C7_normal_termination (stream_with_comment tagged_once) 100 200).
  vm_compute. reflexivity.
Defined.

(** ** C8: a segment table cut short *)

Lemma Latched_ReadBytes_latched (n : Z) (rd : Latched.errReader) :
  Latched.err rd <> None -> 0 <= n ->
  Latched.ReadBytes n rd = Ok (zeros (Z.to_nat n)) rd.
Proof.
  intros H Hn. unfold Latched.ReadBytes.
  destruct (Z.ltb_spec n 0); [lia|].
  destruct (Latched.err rd); [reflexivity | congruence].
Qed.

Lemma Latched_Skip_latched (n : Z) (rd : Latched.errReader) :
  Latched.err rd <> None -> Latched.Skip n rd = Ok tt rd.
Proof.
  intros H. unfold Latched.Skip.
  destruct (Latched.err rd); [reflexivity | congruence].
Qed.

(** With an error latched a segment reads nothing and changes nothing. *)
Lemma Latched_segment_latched (segs : list byte) (i : nat) (a : acc)
      (rd : Latched.errReader) :
  Latched.err rd <> None -> Latched.segment segs i a rd = Ok (i, a) rd.
Proof.
  intros H. unfold Latched.segment.
  assert (Hbyte : Latched.ReadByte rd = Ok x00 rd).
  { unfold Latched.ReadByte.
    now rewrite (bind_Ok _ _ _ _ _ (Latched_ReadBytes_latched 1 rd H ltac:(lia))). }
  rewrite (bind_Ok _ _ _ _ _ Hbyte).
  rewrite (bind_Ok _ _ _ _ _ (Latched_ReadBytes_latched 4 rd H ltac:(lia))).
  change (bytes_eqb (zeros (Z.to_nat 4)) vorb) with false. cbn [negb].
  now rewrite (bind_Ok _ _ _ _ _ (Latched_Skip_latched _ rd H)).
Qed.

Lemma Latched_segments_latched (fuel : nat) (segs : list byte) (a : acc)
      (rd : Latched.errReader) :
  Latched.err rd <> None ->
  forall i, (length segs - i <= fuel)%nat ->
            Latched.segments fuel segs i a rd = Ok a rd.
Proof.
  intros H. induction fuel as [|fuel IH]; intros i Hfuel; cbn [Latched.segments];
    destruct (Nat.ltb_spec i (length segs)); try reflexivity; [lia|].
  rewrite (bind_Ok _ _ _ _ _ (Latched_segment_latched segs i a rd H)).
  apply IH. lia.
Qed.

(** C8: a stream that opens with "OggS" and the 22 bytes of the fixed
    header, declares [n] entries and ends before the [n] entries are there:
    both versions return the error of the short read, [io.EOF] when no
    entry is there and [io.ErrUnexpectedEOF] otherwise, not a nil error. *)
Theorem C8_truncated_segment_table (hdr : list byte) (n : byte) (tbl : list byte) :
  length hdr = 22%nat ->
  Z.of_nat (length tbl) < int n ->
  let e := match tbl with [] => EOF | _ :: _ => ErrUnexpectedEOF end in
  Early.Read (OggS ++ hdr ++ n :: tbl) = Returned 0 0 (Some e) /\
  Latched.Read (OggS ++ hdr ++ n :: tbl) = Returned 0 0 (Some e).
Proof.
  intros Hhdr Htbl. cbv zeta.
  assert (Hshort : (length tbl < Z.to_nat (int n))%nat) by lia.
  split.
  - unfold Early.Read. cbn [Early.pages].
    rewrite (bind_Ok _ _ _ _ _ (Early_readFull_app OggS _)), bytes_eqb_refl.
    cbn [negb]. unfold Early.page.
    change (26 - 4) with (Z.of_nat 22). rewrite <- Hhdr.
    unfold bind at 1.
    rewrite (bind_Ok _ _ _ _ _ (Early_skip_app hdr _)).
    rewrite (bind_Ok _ _ _ _ _ (Early_readByte_cons _ _)).
    unfold bind, Early.readFull. now rewrite ReadFull_short.
  - unfold Latched.Read. cbn [Latched.pages]. fold (fresh (OggS ++ hdr ++ n :: tbl)).
    rewrite (bind_Ok _ _ _ _ _ (Latched_ReadBytes_app OggS _)), bytes_eqb_refl.
    cbn [negb]. unfold Latched.page.
    unfold bind at 1.
    assert (Hskip : Latched.Skip (26 - 4) (fresh (hdr ++ n :: tbl))
                    = Ok tt (fresh (n :: tbl))).
    { pose proof (follows_skip (Z.of_nat (length hdr)) (hdr ++ n :: tbl)) as H.
      rewrite Early_skip_app, Hhdr in H. exact H. }
    rewrite (bind_Ok _ _ _ _ _ Hskip).
    rewrite (bind_Ok _ _ _ _ _ (Latched_ReadByte_cons _ _)).
    unfold bind at 1. unfold Latched.ReadBytes at 1.
    pose proof (int_range n).
    destruct (Z.ltb_spec (int n) 0); [lia|]. cbn [fresh Latched.err Latched.r].
    destruct (Z.eqb_spec (int n) 0); [lia|].
    rewrite ReadFull_short by assumption.
    rewrite Latched_segments_latched by (cbn [Latched.err]; try discriminate; lia).
    reflexivity.
Qed.

Lemma C8_truncated_segment_table_witness :
  Early.Read truncated_table = Returned 0 0 (Some ErrUnexpectedEOF) /\
  Latched.Read truncated_table = Returned 0 0 (Some ErrUnexpectedEOF).
Proof.
  apply (C8_truncated_segment_table (zeros 22) x05 [x1e; x1e]).
  - reflexivity.
  - vm_compute. reflexivity.
Defined.

(** ** C9: the two versions agree where both succeed *)

(** C9: on every stream on which both versions return a nil error, they
    return the same loopStart and the same loopLength. *)
Theorem C9_versions_agree (src : stream) (ls ll ls' ll' : Z) :
  Early.Read src = Returned ls ll None ->
  Latched.Read src = Returned ls' ll' None ->
  ls = ls' /\ ll = ll'.
Proof.
  intros HE HL. apply Read_follows in HE. rewrite HE in HL.
  now injection HL as <- <-.
Qed.

Lemma C9_versions_agree_witness : 100 = 100 /\ 200 = 200.
Proof.
  apply (C9_versions_agree (stream_with_comment tagged_once) 100 200 100 200);
    vm_compute; reflexivity.
Defined.

(** ** C10: leading zeros *)

Lemma decimal_leading_zeros (zs ds : list byte) :
  Forall (fun c => c = "0"%byte) zs -> decimal (zs ++ ds) = decimal ds.
Proof.
  intros Hzs. unfold decimal. rewrite fold_left_app. f_equal.
  induction Hzs as [|c zs Hc Hzs IH]; [reflexivity|].
  subst c. exact IH.
Qed.

(** C10, as stated, fails where the value of the run is not an [int]: the
    run 09223372036854775808 has a leading zero and the value 2^63, and
    both versions panic instead of storing it. *)
Lemma C10_leading_zero_out_of_range :
  FindSubmatch loopStartRe (bytes "LOOPSTART=09223372036854775808")
  = Some (bytes "09223372036854775808") /\
  decimal (bytes "09223372036854775808") = 2 ^ 63 /\
  Early.Read (stream_with_comment (bytes "LOOPSTART=09223372036854775808"))
  = Panicked (AtoiPanic ErrRange) /\
  Latched.Read (stream_with_comment (bytes "LOOPSTART=09223372036854775808"))
  = Panicked (AtoiPanic ErrRange).
Proof. repeat split; vm_compute; reflexivity. Qed.

(** C10, amended: for every comment payload in which the leftmost match
    of a tag pattern captures a run of digits [zs ++ ds], with [zs] zeros
    and the base-10 value of [ds] at most 2^63 - 1, the extraction of that
    tag in both versions ([FindSubmatch], then [strconv.Atoi] or
    [mustAtoi]) yields that value, which is the base-10 value of the whole
    run, whatever else the payload holds.  Both versions of [Read] return
    that value for the tag when the payload is that of the only comment
    packet of a stream of pages framed as the scanner reads them
    ([page_framed]: 22 bytes of fixed header, a table of at most 255
    entries, every segment other than the comment packet at least five
    bytes long and in one entry), each with a Vorbis header, that ends by
    something the scan stops at ([stops_scan]: four bytes that are not
    "OggS", or a page without Vorbis header), and the digits of the other
    tag, if the payload has one, have a value of at most 2^63 - 1 too. *)
Theorem C10_leading_zeros_base_ten (zs ds : list byte) :
  Forall (fun c => c = "0"%byte) zs ->
  decimal ds <= maxInt ->
  decimal (zs ++ ds) = decimal ds /\
  (forall re meta v,
     re = loopStartRe \/ re = loopLengthRe ->
     first_tag re (zs ++ ds) meta ->
     (forall src, Early.tag re meta v src = Ok (decimal ds) src) /\
     (forall rd, Latched.tag re meta v rd = Ok (decimal ds) rd)) /\
  (forall ps trailer meta,
     Forall page_framed ps ->
     Forall (fun p => has_header p = true) ps ->
     stops_scan trailer ->
     comments ps = [meta] ->
     (first_tag loopStartRe (zs ++ ds) meta -> tag_fits loopLengthRe meta ->
      exists ll,
        Early.Read (flat_map encode_page ps ++ trailer) = Returned (decimal ds) ll None /\
        Latched.Read (flat_map encode_page ps ++ trailer) = Returned (decimal ds) ll None) /\
     (first_tag loopLengthRe (zs ++ ds) meta -> tag_fits loopStartRe meta ->
      exists ls,
        Early.Read (flat_map encode_page ps ++ trailer) = Returned ls (decimal ds) None /\
        Latched.Read (flat_map encode_page ps ++ trailer) = Returned ls (decimal ds) None)).
Proof.
  intros Hzs Hfit.
  pose proof (decimal_leading_zeros zs ds Hzs) as Hdec.
  split; [exact Hdec|]. split.
  - intros re meta v _ Htag.
    pose proof (proj2 (FindSubmatch_first_tag re meta (zs ++ ds)) Htag) as Hm.
    destruct (FindSubmatch_digits _ _ _ Hm) as [Hne Hall].
    pose proof (Atoi_digits (zs ++ ds) Hne Hall) as Hatoi. rewrite Hdec in Hatoi.
    destruct (Z.leb_spec (decimal ds) maxInt); [|lia].
    split; intros s; unfold Early.tag, Latched.tag, Latched.mustAtoi;
      now rewrite Hm, Hatoi.
  - intros ps trailer meta Hframed Hhdr Hstop Hcomments.
    split; intros Htag Hother.
    + assert (Hok : Forall page_ok ps).
      { apply pages_framed_ok; [assumption|]. rewrite Hcomments.
        intros m [<-|[]]. split; [|assumption].
        eapply first_tag_fits; [eassumption|]. now rewrite Hdec. }
      pose proof (Read_laid_out ps trailer Hok Hhdr Hstop) as H.
      rewrite after_pages_comments, Hcomments in H.
      cbn [fold_left after_comment fst snd] in H.
      rewrite (first_tag_value _ _ _ _ Htag), Hdec in H.
      eexists. exact H.
    + assert (Hok : Forall page_ok ps).
      { apply pages_framed_ok; [assumption|]. rewrite Hcomments.
        intros m [<-|[]]. split; [assumption|].
        eapply first_tag_fits; [eassumption|]. now rewrite Hdec. }
      pose proof (Read_laid_out ps trailer Hok Hhdr Hstop) as H.
      rewrite after_pages_comments, Hcomments in H.
      cbn [fold_left after_comment fst snd] in H.
      rewrite (first_tag_value _ _ _ _ Htag), Hdec in H.
      eexists. exact H.
Qed.

Lemma C10_leading_zeros_base_ten_witness :
  decimal (bytes "0042") = 42 /\
  (Early.tag loopLengthRe (bytes "LOOPSTART=99999999999999999999;LOOPLENGTH=0042") 7 []
   = Ok 42 [] /\
   Latched.tag loopLengthRe (bytes "LOOPSTART=99999999999999999999;LOOPLENGTH=0042") 7
     (fresh []) = Ok 42 (fresh [])) /\
  Early.Read (stream_with_comment (bytes "LOOPSTART=0042")) = Returned 42 0 None /\
  Latched.Read (stream_with_comment (bytes "LOOPSTART=0042")) = Returned 42 0 None.
Proof.
  destruct (C10_leading_zeros_base_ten (bytes "00") (bytes "42"))
    as [Hdec [Htags Hread]].
  - repeat constructor.
  - vm_compute. discriminate.
  - split; [exact Hdec|]. split.
    + destruct (Htags loopLengthRe
                  (bytes "LOOPSTART=99999999999999999999;LOOPLENGTH=0042") 7)
        as [HE HL].
      * now right.
      * apply FindSubmatch_first_tag. vm_compute. reflexivity.
      * split; [apply (HE []) | apply (HL (fresh []))].
    + destruct (Hread
                  [identification_page;
                   Page (zeros 22) [Comment (bytes "LOOPSTART=0042");
                                    Segment x05 vorb (bytes "is" ++ zeros 40)]]
                  (encode_page audio_page ++ []) (bytes "LOOPSTART=0042"))
        as [Hstart _].
      * framing.
      * framing.
      * right. exists audio_page, []. framing.
      * reflexivity.
      * destruct Hstart as [ll [HE HL]].
        -- apply FindSubmatch_first_tag. vm_compute. reflexivity.
        -- exact I.
        -- assert (Hll : ll = 0).
           { assert (H : Early.Read (stream_with_comment (bytes "LOOPSTART=0042"))
                         = Returned 42 0 None) by (vm_compute; reflexivity).
             change (flat_map encode_page _ ++ _)
               with (stream_with_comment (bytes "LOOPSTART=0042")) in HE.
             rewrite H in HE. now injection HE. }
           subst ll. split; [exact HE | exact HL].
Defined.

(** * Further properties of the code *)

(** ** Termination *)

(** X1: on every finite stream both versions of [Read] come back, with
    their three results or with a panic: the loop over the pages cannot run
    for ever, a page that lets it go on has consumed bytes of the source
    (or has latched an error, which stops the latched version at the next
    capture pattern). *)
Theorem Read_terminates (src : stream) :
  ((exists ls ll e, Early.Read src = Returned ls ll e) \/
   (exists p, Early.Read src = Panicked p)) /\
  ((exists ls ll e, Latched.Read src = Returned ls ll e) \/
   (exists p, Latched.Read src = Panicked p)).
Proof.
  pose proof (Early_Read_total src) as HE.
  pose proof (Latched_Read_total src) as HL.
  split.
  - destruct (Early.Read src) as [ls ll e|p|]; [left|right|congruence]; eauto.
  - destruct (Latched.Read src) as [ls ll e|p|]; [left|right|congruence]; eauto.
Qed.

(** ** The reader with a latched error *)

Lemma Latched_ReadByte_latched (rd : Latched.errReader) :
  Latched.err rd <> None -> Latched.ReadByte rd = Ok x00 rd.
Proof.
  intros H. unfold Latched.ReadByte.
  now rewrite (bind_Ok _ _ _ _ _ (Latched_ReadBytes_latched 1 rd H ltac:(lia))).
Qed.

Lemma Latched_page_latched (ls ll : Z) (rd : Latched.errReader) :
  Latched.err rd <> None -> Latched.page ls ll rd = Ok (Acc ls ll false) rd.
Proof.
  intros H. unfold Latched.page.
  rewrite (bind_Ok _ _ _ _ _ (Latched_Skip_latched _ rd H)).
  rewrite (bind_Ok _ _ _ _ _ (Latched_ReadByte_latched rd H)).
  rewrite (bind_Ok _ _ _ _ _ (Latched_ReadBytes_latched _ rd H ltac:(apply int_range))).
  reflexivity.
Qed.

Lemma Latched_pages_latched (fuel : nat) (ls ll : Z) (rd : Latched.errReader) :
  Latched.err rd <> None -> Latched.pages (S fuel) ls ll rd = Ok (ls, ll) rd.
Proof.
  intros H. cbn [Latched.pages].
  now rewrite (bind_Ok _ _ _ _ _ (Latched_ReadBytes_latched 4 rd H ltac:(lia))).
Qed.

(** X2: once an error is latched on the [errReader], nothing reads the
    source or replaces the error any more: [ReadBytes] gives zero bytes,
    [ReadByte] gives 0, [Skip] does nothing (a negative length included), a
    segment and a whole page leave the results and [headerFound] as they
    are, and the loop over the pages stops at its next capture pattern with
    the results it has. *)
Theorem latched_error_stops_reading (rd : Latched.errReader) :
  Latched.err rd <> None ->
  (forall n, 0 <= n -> Latched.ReadBytes n rd = Ok (zeros (Z.to_nat n)) rd) /\
  Latched.ReadByte rd = Ok x00 rd /\
  (forall n, Latched.Skip n rd = Ok tt rd) /\
  (forall segs i a, Latched.segment segs i a rd = Ok (i, a) rd) /\
  (forall ls ll, Latched.page ls ll rd = Ok (Acc ls ll false) rd) /\
  (forall fuel ls ll, Latched.pages (S fuel) ls ll rd = Ok (ls, ll) rd).
Proof.
  intros H. repeat split; intros.
  - now apply Latched_ReadBytes_latched.
  - now apply Latched_ReadByte_latched.
  - now apply Latched_Skip_latched.
  - now apply Latched_segment_latched.
  - now apply Latched_page_latched.
  - now apply Latched_pages_latched.
Qed.

Lemma latched_error_stops_reading_witness :
  Latched.Skip (-3) at_eof = Ok tt at_eof /\
  Latched.page 7 9 at_eof = Ok (Acc 7 9 false) at_eof /\
  Latched.pages 1 7 9 at_eof = Ok (7, 9) at_eof.
Proof.
  destruct (latched_error_stops_reading at_eof ltac:(discriminate))
    as [_ [_ [Hskip [_ [Hpage Hpages]]]]].
  split; [apply Hskip | split; [apply Hpage | apply Hpages]].
Defined.

(** ** The buffers of the reads *)

(** X3: [ReadBytes(n)] with [0 <= n] never panics and always gives a slice
    of exactly [n] bytes, whether the read succeeds, falls short or is not
    tried because an error is latched; so the index 0 of [ReadByte] is
    always in range, and [ReadByte] gives the first byte of the source when
    there is one and 0 otherwise. *)
Theorem ReadBytes_gives_n_bytes (n : Z) (rd : Latched.errReader) :
  0 <= n ->
  (exists buf rd',
     Latched.ReadBytes n rd = Ok buf rd' /\ length buf = Z.to_nat n) /\
  (exists rd',
     Latched.ReadByte rd
     = Ok (match Latched.err rd, Latched.r rd with
           | None, c :: _ => c
           | _, _ => x00
           end) rd').
Proof.
  intros Hn. split.
  - unfold Latched.ReadBytes.
    destruct (Z.ltb_spec n 0); [lia|].
    destruct (Latched.err rd).
    { eexists _, _. split; [reflexivity | apply zeros_length]. }
    destruct (n =? 0).
    { eexists _, _. split; [reflexivity | apply zeros_length]. }
    pose proof (ReadFull_buffer_length (Z.to_nat n) (Latched.r rd)) as Hlen.
    destruct (ReadFull (Z.to_nat n) (Latched.r rd)) as [[buf src'] e].
    eexists _, _. split; [reflexivity | exact Hlen].
  - destruct rd as [src [e|]]; cbn [Latched.err Latched.r].
    + eexists. reflexivity.
    + destruct src as [|c src]; eexists; reflexivity.
Qed.

Lemma ReadBytes_gives_n_bytes_witness :
  (exists buf rd',
     Latched.ReadBytes 4 (fresh (bytes "Og")) = Ok buf rd' /\ length buf = 4%nat) /\
  (exists rd', Latched.ReadByte (fresh []) = Ok x00 rd').
Proof.
  split.
  - apply (ReadBytes_gives_n_bytes 4 (fresh (bytes "Og"))). lia.
  - apply (ReadBytes_gives_n_bytes 1 (fresh [])). lia.
Defined.

(** ** Every comment packet of a stream *)

(** X4: on a stream of pages framed as the scanner reads them, each with a
    Vorbis header, that ends by something the scan stops at, both versions
    of [Read] return without error the values the comment payloads leave,
    taken in the order of the stream from 0 and 0: a payload sets a result
    to the decimal value of its leftmost tag and leaves the result as it is
    when it has no such tag.  So the last payload that has a tag decides,
    a tag no payload has stays 0, and whatever stands in the other segments
    or after the stop is ignored. *)
Theorem Read_folds_comments (ps : list ogg_page) (trailer : list byte) :
  Forall page_ok ps ->
  Forall (fun p => has_header p = true) ps ->
  stops_scan trailer ->
  Early.Read (flat_map encode_page ps ++ trailer)
  = Returned (fst (fold_left after_comment (comments ps) (0, 0)))
             (snd (fold_left after_comment (comments ps) (0, 0))) None /\
  Latched.Read (flat_map encode_page ps ++ trailer)
  = Returned (fst (fold_left after_comment (comments ps) (0, 0)))
             (snd (fold_left after_comment (comments ps) (0, 0))) None.
Proof.
  intros Hok Hhdr Hstop.
  pose proof (Read_laid_out ps trailer Hok Hhdr Hstop) as H.
  now rewrite after_pages_comments in H.
Qed.

Lemma Read_folds_comments_witness :
  Early.Read (flat_map encode_page two_comments ++ bytes "junk LOOPLENGTH=9")
  = Returned 3 2 None /\
  Latched.Read (flat_map encode_page two_comments ++ bytes "junk LOOPLENGTH=9")
  = Returned 3 2 None.
Proof.
  apply (Read_folds_comments two_comments (bytes "junk LOOPLENGTH=9")).
  - framing.
  - framing.
  - left. split; [simpl; lia | vm_compute; discriminate].
Defined.

Lemma Early_page_fixed (ls ll : Z) (hdr hdr' rest : list byte) :
  length hdr = 22%nat -> length hdr' = 22%nat ->
  Early.page ls ll (hdr ++ rest) = Early.page ls ll (hdr' ++ rest).
Proof.
  intros Hhdr Hhdr'. unfold Early.page. change (26 - 4) with (Z.of_nat 22).
  rewrite <- Hhdr at 1. rewrite (bind_Ok _ _ _ _ _ (Early_skip_app hdr rest)).
  rewrite <- Hhdr' at 1. now rewrite (bind_Ok _ _ _ _ _ (Early_skip_app hdr' rest)).
Qed.

Lemma Latched_page_fixed (ls ll : Z) (hdr hdr' rest : list byte) :
  length hdr = 22%nat -> length hdr' = 22%nat ->
  Latched.page ls ll (fresh (hdr ++ rest)) = Latched.page ls ll (fresh (hdr' ++ rest)).
Proof.
  intros Hhdr Hhdr'.
  assert (Hskip : forall h, length h = 22%nat ->
            Latched.Skip (26 - 4) (fresh (h ++ rest)) = Ok tt (fresh rest)).
  { intros h Hh. pose proof (follows_skip (Z.of_nat (length h)) (h ++ rest)) as H.
    rewrite Early_skip_app, Hh in H. exact H. }
  unfold Latched.page.
  now rewrite (bind_Ok _ _ _ _ _ (Hskip hdr Hhdr)), (bind_Ok _ _ _ _ _ (Hskip hdr' Hhdr')).
Qed.

(** X5: the 22 bytes of fixed header of a page (version, flags, granule
    position, serial and sequence numbers, checksum) are skipped and never
    looked at.  In any stream that begins with a capture pattern they can
    be replaced by any 22 bytes without a change in what either version of
    [Read] does, errors and panics included; and in a stream of framed
    pages this holds of the fixed header of every page. *)
Theorem fixed_header_ignored :
  (forall hdr hdr' rest,
     length hdr = 22%nat -> length hdr' = 22%nat ->
     Early.Read (OggS ++ hdr ++ rest) = Early.Read (OggS ++ hdr' ++ rest) /\
     Latched.Read (OggS ++ hdr ++ rest) = Latched.Read (OggS ++ hdr' ++ rest)) /\
  (forall ps ps' trailer,
     Forall page_ok ps -> Forall page_ok ps' ->
     map items ps = map items ps' ->
     Forall (fun p => has_header p = true) ps ->
     stops_scan trailer ->
     Early.Read (flat_map encode_page ps ++ trailer)
     = Early.Read (flat_map encode_page ps' ++ trailer) /\
     Latched.Read (flat_map encode_page ps ++ trailer)
     = Latched.Read (flat_map encode_page ps' ++ trailer)).
Proof.
  split.
  - intros hdr hdr' rest Hhdr Hhdr'.
    assert (Hlen : length (OggS ++ hdr ++ rest) = length (OggS ++ hdr' ++ rest))
      by (rewrite !length_app; lia).
    split.
    + unfold Early.Read. rewrite Hlen. cbn [Early.pages].
      rewrite !(bind_Ok _ _ _ _ _ (Early_readFull_app OggS _)), bytes_eqb_refl.
      cbn [negb]. unfold bind.
      now rewrite (Early_page_fixed 0 0 hdr hdr' rest Hhdr Hhdr').
    + unfold Latched.Read. rewrite Hlen. cbn [Latched.pages].
      fold (fresh (OggS ++ hdr ++ rest)) (fresh (OggS ++ hdr' ++ rest)).
      rewrite !(bind_Ok _ _ _ _ _ (Latched_ReadBytes_app OggS _)), bytes_eqb_refl.
      cbn [negb]. unfold bind.
      now rewrite (Latched_page_fixed 0 0 hdr hdr' rest Hhdr Hhdr').
  - intros ps ps' trailer Hok Hok' Hitems Hhdr Hstop.
    assert (Hcomments : comments ps = comments ps').
    { unfold comments. clear - Hitems. revert ps' Hitems.
      induction ps as [|p ps IH]; intros [|p' ps'] Hitems; try discriminate;
        [reflexivity|].
      injection Hitems as Hp Hps. cbn [flat_map]. now rewrite Hp, (IH ps' Hps). }
    assert (Hhdr' : Forall (fun p => has_header p = true) ps').
    { clear - Hitems Hhdr. revert ps' Hitems.
      induction Hhdr as [|p ps Hp Hps IH]; intros [|p' ps'] Hitems;
        try discriminate; constructor.
      - injection Hitems as Hi _. unfold has_header in *. now rewrite <- Hi.
      - injection Hitems as _ Hi. now apply IH. }
    destruct (Read_laid_out ps trailer Hok Hhdr Hstop) as [HE HL].
    destruct (Read_laid_out ps' trailer Hok' Hhdr' Hstop) as [HE' HL'].
    rewrite HE, HL, HE', HL', !after_pages_comments, Hcomments. now split.
Qed.

Lemma fixed_header_ignored_witness :
  Early.Read (OggS ++ zeros 22 ++ x01 :: x1e :: x01 :: vorb ++ zeros 25)
  = Early.Read (OggS ++ repeat xff 22 ++ x01 :: x1e :: x01 :: vorb ++ zeros 25) /\
  Latched.Read (OggS ++ zeros 22 ++ x01 :: x1e :: x01 :: vorb ++ zeros 25)
  = Latched.Read (OggS ++ repeat xff 22 ++ x01 :: x1e :: x01 :: vorb ++ zeros 25).
Proof.
  apply (proj1 fixed_header_ignored (zeros 22) (repeat xff 22)
           (x01 :: x1e :: x01 :: vorb ++ zeros 25)); reflexivity.
Defined.

(** ** Skipping *)

Lemma Early_skip_Ok (n : Z) (src src' : stream) :
  Early.skip n src = Ok tt src' <->
  0 <= n <= Z.of_nat (length src) /\ src' = skipn (Z.to_nat n) src.
Proof.
  unfold Early.skip.
  destruct (Z.eqb_spec n 0) as [->|Hn0].
  - cbn. split; [intros [= <-]; split; [lia | reflexivity] | now intros [_ ->]].
  - destruct (Z.ltb_spec n 0) as [Hneg|Hpos].
    + split; [discriminate | lia].
    + split.
      * intros H. apply bind_Ok_inv in H as [buf [src1 [Hread H]]].
        injection H as <-.
        apply Early_readFull_inv in Hread as [_ [-> Hlen]]. split; [lia | reflexivity].
      * intros [Hlen ->]. unfold bind, Early.readFull.
        now rewrite ReadFull_enough by lia.
Qed.

Lemma Latched_Skip_Ok (n : Z) (src src' : stream) :
  Latched.Skip n (fresh src) = Ok tt (fresh src') <-> Early.skip n src = Ok tt src'.
Proof.
  pose proof (follows_skip n src) as H. split.
  - intros HL. destruct (Early.skip n src) as [[] src1|e|p|] eqn:HE.
    + rewrite HL in H. now injection H as <-.
    + specialize (H _ _ HL). now contradiction H.
    + rewrite HL in H. discriminate.
    + now apply Early_skip_finishes in HE.
  - intros HE. now rewrite HE in H.
Qed.

(** X6: skips compose.  For [0 <= a] and [0 <= b], [skip(src, a + b)]
    succeeds and leaves the source [src'] exactly when [skip(src, a)]
    followed by [skip(src, b)] succeed and leave [src']; and the same holds
    of [Skip] of the [errReader], where to succeed is to come back without
    an error latched.  (A skip succeeds exactly when its length is not
    negative and the source holds that many bytes, and then drops them:
    [Early_skip_Ok].) *)
Theorem skips_compose (a b : Z) (src src' : stream) :
  0 <= a -> 0 <= b ->
  (Early.skip (a + b) src = Ok tt src' <->
   exists mid, Early.skip a src = Ok tt mid /\ Early.skip b mid = Ok tt src') /\
  (Latched.Skip (a + b) (fresh src) = Ok tt (fresh src') <->
   exists mid, Latched.Skip a (fresh src) = Ok tt (fresh mid) /\
               Latched.Skip b (fresh mid) = Ok tt (fresh src')).
Proof.
  intros Ha Hb.
  assert (HE : Early.skip (a + b) src = Ok tt src' <->
               exists mid, Early.skip a src = Ok tt mid /\ Early.skip b mid = Ok tt src').
  { rewrite Early_skip_Ok. split.
    - intros [Hlen ->]. exists (skipn (Z.to_nat a) src). split.
      + apply Early_skip_Ok. split; [lia | reflexivity].
      + apply Early_skip_Ok. rewrite length_skipn, skipn_skipn. split; [lia|].
        f_equal. lia.
    - intros [mid [H1 H2]].
      apply Early_skip_Ok in H1 as [Hlen1 ->].
      apply Early_skip_Ok in H2 as [Hlen2 ->].
      rewrite length_skipn in Hlen2. rewrite skipn_skipn. split; [lia|].
      f_equal. lia. }
  split; [exact HE|].
  rewrite Latched_Skip_Ok, HE. split; intros [mid [H1 H2]]; exists mid;
    split; now apply Latched_Skip_Ok.
Qed.

Lemma skips_compose_witness :
  Early.skip (22 + 4) (zeros 22 ++ bytes "OggSrest") = Ok tt (bytes "rest") <->
  exists mid, Early.skip 22 (zeros 22 ++ bytes "OggSrest") = Ok tt mid /\
              Early.skip 4 mid = Ok tt (bytes "rest").
Proof.
  apply (skips_compose 22 4 (zeros 22 ++ bytes "OggSrest") (bytes "rest")); lia.
Defined.

(** ** What [Read] can return and how it can stop *)

Section Outcomes.

Context {S E : Type}.

Lemma panics_in_ret {A} (a : A) (P : panic -> Prop) : panics_in (@ret S E A a) P.
Proof. intros s p H. discriminate H. Qed.

Lemma panics_in_throw {A} (e : E) (P : panic -> Prop) : panics_in (@throw S E A e) P.
Proof. intros s p H. discriminate H. Qed.

Lemma panics_in_fuel {A} (P : panic -> Prop) : panics_in (fun _ : S => @Fuel S E A) P.
Proof. intros s p H. discriminate H. Qed.

Lemma panics_in_bind {A B} (m : M S E A) (k : A -> M S E B) (P : panic -> Prop) :
  panics_in m P -> (forall a, panics_in (k a) P) -> panics_in (bind m k) P.
Proof.
  intros Hm Hk s p H. unfold bind in H.
  destruct (m s) as [a s1| | |] eqn:Em; try discriminate.
  - eapply Hk. eassumption.
  - injection H as <-. eapply Hm. eassumption.
Qed.

Lemma errs_in_ret {A} (a : A) (P : E -> Prop) : errs_in (@ret S E A a) P.
Proof. intros s e H. discriminate H. Qed.

Lemma errs_in_raise {A} (p : panic) (P : E -> Prop) : errs_in (@raise S E A p) P.
Proof. intros s e H. discriminate H. Qed.

Lemma errs_in_fuel {A} (P : E -> Prop) : errs_in (fun _ : S => @Fuel S E A) P.
Proof. intros s e H. discriminate H. Qed.

Lemma errs_in_bind {A B} (m : M S E A) (k : A -> M S E B) (P : E -> Prop) :
  errs_in m P -> (forall a, errs_in (k a) P) -> errs_in (bind m k) P.
Proof.
  intros Hm Hk s e H. unfold bind in H.
  destruct (m s) as [a s1| | |] eqn:Em; try discriminate.
  - eapply Hk. eassumption.
  - injection H as <-. eapply Hm. eassumption.
Qed.

Lemma keeps_ret (I : S -> Prop) {A} (a : A) : keeps I (@ret S E A a).
Proof. intros s a' s' [= _ <-] H. exact H. Qed.

Lemma keeps_raise (I : S -> Prop) {A} (p : panic) : keeps I (@raise S E A p).
Proof. intros s a s' H. discriminate H. Qed.

Lemma keeps_fuel (I : S -> Prop) {A} : keeps I (fun _ : S => @Fuel S E A).
Proof. intros s a s' H. discriminate H. Qed.

Lemma keeps_bind (I : S -> Prop) {A B} (m : M S E A) (k : A -> M S E B) :
  keeps I m -> (forall a, keeps I (k a)) -> keeps I (bind m k).
Proof.
  intros Hm Hk s b s' H Hs. unfold bind in H.
  destruct (m s) as [a s1| | |] eqn:Em; try discriminate.
  eapply Hk; [eassumption|]. eapply Hm; eassumption.
Qed.

End Outcomes.

#[local] Hint Resolve
  panics_in_ret panics_in_throw panics_in_fuel
  errs_in_ret errs_in_raise errs_in_fuel
  keeps_ret keeps_raise keeps_fuel : oggloop.

Ltac through_code :=
  repeat first
    [ match goal with |- forall _, _ => intro end
    | solve [auto with oggloop nocore]
    | apply panics_in_bind
    | apply errs_in_bind
    | apply keeps_bind
    | code_case ].

(** *** The panics *)

Lemma Early_readFull_panics (n : nat) (P : panic -> Prop) :
  panics_in (Early.readFull n) P.
Proof.
  intros s p. unfold Early.readFull.
  destruct (ReadFull n s) as [[buf src'] [e|]]; discriminate.
Qed.

Lemma Early_make_panics (size : Z) : panics_in (Early.make size) scanner_panic.
Proof.
  intros s p. unfold Early.make. destruct (size <? 0); [|discriminate].
  intros [= <-]. now left.
Qed.

Lemma Early_tag_panics (re meta : list byte) (v : Z) :
  panics_in (Early.tag re meta v) scanner_panic.
Proof.
  intros s p H. apply tag_panics_iff in H as [-> _]. now right.
Qed.

#[local] Hint Resolve Early_readFull_panics Early_make_panics Early_tag_panics : oggloop.

Lemma Early_skip_panics (n : Z) (P : panic -> Prop) : panics_in (Early.skip n) P.
Proof. unfold Early.skip. through_code. Qed.

Lemma Early_readByte_panics (P : panic -> Prop) : panics_in Early.readByte P.
Proof. unfold Early.readByte. through_code. Qed.

Lemma Early_tags_panics (meta : list byte) (a : acc) :
  panics_in (Early.tags meta a) scanner_panic.
Proof. unfold Early.tags. through_code. Qed.

#[local] Hint Resolve Early_skip_panics Early_readByte_panics Early_tags_panics : oggloop.

Lemma Early_segment_panics (segs : list byte) (i : nat) (a : acc) :
  panics_in (Early.segment segs i a) scanner_panic.
Proof. unfold Early.segment. through_code. Qed.

#[local] Hint Resolve Early_segment_panics : oggloop.

Lemma Early_segments_panics (fuel : nat) (segs : list byte) :
  forall i a, panics_in (Early.segments fuel segs i a) scanner_panic.
Proof.
  induction fuel as [|fuel IH]; intros i a; cbn [Early.segments]; through_code.
Qed.

#[local] Hint Resolve Early_segments_panics : oggloop.

Lemma Early_page_panics (ls ll : Z) : panics_in (Early.page ls ll) scanner_panic.
Proof. unfold Early.page. through_code. Qed.

#[local] Hint Resolve Early_page_panics : oggloop.

Lemma Early_pages_panics (fuel : nat) :
  forall ls ll, panics_in (Early.pages fuel ls ll) scanner_panic.
Proof.
  induction fuel as [|fuel IH]; intros ls ll; cbn [Early.pages]; through_code.
Qed.

Lemma Latched_ReadBytes_panics (n : Z) :
  panics_in (Latched.ReadBytes n) scanner_panic.
Proof.
  intros rd p. unfold Latched.ReadBytes.
  destruct (n <? 0); [intros [= <-]; now left|].
  destruct (Latched.err rd); [discriminate|].
  destruct (n =? 0); [discriminate|].
  destruct (ReadFull (Z.to_nat n) (Latched.r rd)) as [[buf src'] e]. discriminate.
Qed.

Lemma Latched_Skip_panics (n : Z) (P : panic -> Prop) : panics_in (Latched.Skip n) P.
Proof.
  intros rd p. unfold Latched.Skip.
  destruct (Latched.err rd); [discriminate|].
  destruct (n =? 0); [discriminate|].
  destruct (Z.ltb_spec n 0); [discriminate|].
  unfold bind, Latched.ReadBytes.
  destruct (Z.ltb_spec n 0); [lia|].
  destruct (Latched.err rd); [discriminate|].
  destruct (n =? 0); [discriminate|].
  destruct (ReadFull (Z.to_nat n) (Latched.r rd)) as [[buf src'] e]. discriminate.
Qed.

Lemma Latched_tag_panics (re meta : list byte) (v : Z) :
  panics_in (Latched.tag re meta v) scanner_panic.
Proof.
  intros s p H. apply Latched_tag_panics_iff in H as [-> _]. now right.
Qed.

#[local] Hint Resolve
  Latched_ReadBytes_panics Latched_Skip_panics Latched_tag_panics : oggloop.

Lemma Latched_ReadByte_panics : panics_in Latched.ReadByte scanner_panic.
Proof. unfold Latched.ReadByte. through_code. Qed.

Lemma Latched_tags_panics (meta : list byte) (a : acc) :
  panics_in (Latched.tags meta a) scanner_panic.
Proof. unfold Latched.tags. through_code. Qed.

#[local] Hint Resolve Latched_ReadByte_panics Latched_tags_panics : oggloop.

Lemma Latched_segment_panics (segs : list byte) (i : nat) (a : acc) :
  panics_in (Latched.segment segs i a) scanner_panic.
Proof. unfold Latched.segment. through_code. Qed.

#[local] Hint Resolve Latched_segment_panics : oggloop.

Lemma Latched_segments_panics (fuel : nat) (segs : list byte) :
  forall i a, panics_in (Latched.segments fuel segs i a) scanner_panic.
Proof.
  induction fuel as [|fuel IH]; intros i a; cbn [Latched.segments]; through_code.
Qed.

#[local] Hint Resolve Latched_segments_panics : oggloop.

Lemma Latched_page_panics (ls ll : Z) : panics_in (Latched.page ls ll) scanner_panic.
Proof. unfold Latched.page. through_code. Qed.

#[local] Hint Resolve Latched_page_panics : oggloop.

Lemma Latched_pages_panics (fuel : nat) :
  forall ls ll, panics_in (Latched.pages fuel ls ll) scanner_panic.
Proof.
  induction fuel as [|fuel IH]; intros ls ll; cbn [Latched.pages]; through_code.
Qed.

(** X7: when a version of [Read] panics, it is with the negative length of
    [make([]byte, n)] or with the range error of [strconv.Atoi]; the
    syntax error of [Atoi] never reaches [panic(err)]. *)
Theorem Read_panics_two_ways (src : stream) (p : panic) :
  Early.Read src = Panicked p \/ Latched.Read src = Panicked p ->
  p = MakesliceLenOutOfRange \/ p = AtoiPanic ErrRange.
Proof.
  intros [H|H].
  - unfold Early.Read in H.
    destruct (Early.pages (S (length src)) 0 0 src) as [[ls ll] src'| | |] eqn:Hp;
      try discriminate.
    injection H as <-. eapply Early_pages_panics. eassumption.
  - unfold Latched.Read in H.
    destruct (Latched.pages (S (S (length src))) 0 0 (Latched.ErrReader src None))
      as [[ls ll] rd|e| |] eqn:Hp; try discriminate; [destruct e|].
    injection H as <-. eapply Latched_pages_panics. eassumption.
Qed.

Lemma Read_panics_two_ways_witness :
  MakesliceLenOutOfRange = MakesliceLenOutOfRange \/
  MakesliceLenOutOfRange = AtoiPanic ErrRange.
Proof.
  apply (Read_panics_two_ways empty_packet_first MakesliceLenOutOfRange).
  left. vm_compute. reflexivity.
Defined.

(** *** The errors *)

Lemma Early_readFull_errs (n : nat) : errs_in (Early.readFull n) early_error.
Proof.
  intros s e. unfold Early.readFull, ReadFull.
  destruct (n <=? length s)%nat; [discriminate|].
  intros [= <-]. destruct s; [now left | right; now left].
Qed.

Lemma Early_make_errs (size : Z) (P : error -> Prop) : errs_in (Early.make size) P.
Proof.
  intros s e. unfold Early.make. destruct (size <? 0); discriminate.
Qed.

Lemma Early_tag_errs (re meta : list byte) (v : Z) (P : error -> Prop) :
  errs_in (Early.tag re meta v) P.
Proof.
  intros s e. unfold Early.tag.
  destruct (FindSubmatch re meta); [|discriminate].
  destruct (Atoi l); discriminate.
Qed.

#[local] Hint Resolve Early_readFull_errs Early_make_errs Early_tag_errs : oggloop.

(** The length of a skip is the value of a table entry less 5, or 22. *)
Lemma Early_skip_errs (n : Z) : -5 <= n -> errs_in (Early.skip n) early_error.
Proof.
  intros Hn. unfold Early.skip.
  destruct (n =? 0); [through_code|].
  destruct (Z.ltb_spec n 0); [|through_code].
  intros s e [= <-]. right; right. exists n. split; [reflexivity | lia].
Qed.

Lemma Early_skip_segment_errs (c : byte) :
  errs_in (Early.skip (int c - 5)) early_error.
Proof. apply Early_skip_errs. pose proof (int_range c). lia. Qed.

Lemma Early_skip_fixed_errs : errs_in (Early.skip (26 - 4)) early_error.
Proof. apply Early_skip_errs. lia. Qed.

Lemma Early_readByte_errs : errs_in Early.readByte early_error.
Proof. unfold Early.readByte. through_code. Qed.

Lemma Early_tags_errs (meta : list byte) (a : acc) (P : error -> Prop) :
  errs_in (Early.tags meta a) P.
Proof. unfold Early.tags. through_code. Qed.

#[local] Hint Resolve
  Early_skip_segment_errs Early_skip_fixed_errs Early_readByte_errs
  Early_tags_errs : oggloop.

Lemma Early_segment_errs (segs : list byte) (i : nat) (a : acc) :
  errs_in (Early.segment segs i a) early_error.
Proof. unfold Early.segment. through_code. Qed.

#[local] Hint Resolve Early_segment_errs : oggloop.

Lemma Early_segments_errs (fuel : nat) (segs : list byte) :
  forall i a, errs_in (Early.segments fuel segs i a) early_error.
Proof.
  induction fuel as [|fuel IH]; intros i a; cbn [Early.segments]; through_code.
Qed.

#[local] Hint Resolve Early_segments_errs : oggloop.

Lemma Early_page_errs (ls ll : Z) : errs_in (Early.page ls ll) early_error.
Proof. unfold Early.page. through_code. Qed.

#[local] Hint Resolve Early_page_errs : oggloop.

Lemma Early_pages_errs (fuel : nat) :
  forall ls ll, errs_in (Early.pages fuel ls ll) early_error.
Proof.
  induction fuel as [|fuel IH]; intros ls ll; cbn [Early.pages]; through_code.
Qed.

Lemma Latched_ReadBytes_keeps (n : Z) :
  keeps latched_error_or_none (Latched.ReadBytes n).
Proof.
  intros [src e] buf rd'. unfold Latched.ReadBytes. cbn [Latched.err Latched.r].
  destruct (n <? 0); [discriminate|].
  destruct e as [e|]; [now intros [= _ <-]|].
  destruct (n =? 0); [now intros [= _ <-]|].
  unfold ReadFull. destruct (Z.to_nat n <=? length src)%nat; intros [= _ <-] _;
    unfold latched_error_or_none; cbn [Latched.err]; [exact I|].
  destruct src; [now left | right; now left].
Qed.

#[local] Hint Resolve Latched_ReadBytes_keeps : oggloop.

Lemma Latched_Skip_keeps (n : Z) :
  -5 <= n -> keeps latched_error_or_none (Latched.Skip n).
Proof.
  intros Hn rd u rd'. unfold Latched.Skip.
  destruct (Latched.err rd) eqn:He; [now intros [= _ <-]|].
  destruct (n =? 0); [now intros [= _ <-]|].
  destruct (Z.ltb_spec n 0).
  - intros [= _ <-] _. unfold latched_error_or_none. cbn [Latched.err].
    right; right. exists n. split; [reflexivity | lia].
  - generalize rd u rd'.
    fold (keeps latched_error_or_none (Latched.ReadBytes n ;;; ret tt)).
    through_code.
Qed.

Lemma Latched_Skip_segment_keeps (c : byte) :
  keeps latched_error_or_none (Latched.Skip (int c - 5)).
Proof. apply Latched_Skip_keeps. pose proof (int_range c). lia. Qed.

Lemma Latched_Skip_fixed_keeps : keeps latched_error_or_none (Latched.Skip (26 - 4)).
Proof. apply Latched_Skip_keeps. lia. Qed.

Lemma Latched_ReadByte_keeps : keeps latched_error_or_none Latched.ReadByte.
Proof. unfold Latched.ReadByte. through_code. Qed.

Lemma Latched_tags_keeps (meta : list byte) (a : acc) :
  keeps latched_error_or_none (Latched.tags meta a).
Proof. unfold Latched.tags, Latched.tag, Latched.mustAtoi. through_code. Qed.

#[local] Hint Resolve
  Latched_Skip_segment_keeps Latched_Skip_fixed_keeps Latched_ReadByte_keeps
  Latched_tags_keeps : oggloop.

Lemma Latched_segment_keeps (segs : list byte) (i : nat) (a : acc) :
  keeps latched_error_or_none (Latched.segment segs i a).
Proof. unfold Latched.segment. through_code. Qed.

#[local] Hint Resolve Latched_segment_keeps : oggloop.

Lemma Latched_segments_keeps (fuel : nat) (segs : list byte) :
  forall i a, keeps latched_error_or_none (Latched.segments fuel segs i a).
Proof.
  induction fuel as [|fuel IH]; intros i a; cbn [Latched.segments]; through_code.
Qed.

#[local] Hint Resolve Latched_segments_keeps : oggloop.

Lemma Latched_page_keeps (ls ll : Z) :
  keeps latched_error_or_none (Latched.page ls ll).
Proof. unfold Latched.page. through_code. Qed.

#[local] Hint Resolve Latched_page_keeps : oggloop.

Lemma Latched_pages_keeps (fuel : nat) :
  forall ls ll, keeps latched_error_or_none (Latched.pages fuel ls ll).
Proof.
  induction fuel as [|fuel IH]; intros ls ll; cbn [Latched.pages]; through_code.
Qed.

(** X8: on a source that fails only by running out of bytes (a stream of
    bytes held in memory: [io.ReadFull] then fails with [io.EOF] or
    [io.ErrUnexpectedEOF] and passes on no error of the reader's own), the
    only errors [Read] returns are these two and the error of a skip of
    negative length [n], with [-5 <= n < 0] (a segment of 0 to 4 bytes
    that is not the comment header): "skipping byte should be positive"
    from src/oggloop.go, "skipping bytes should be positive" from the
    [errReader] version, whose error "reading bytes should be positive" is
    never returned. *)
Theorem Read_errors (src : stream) (ls ll : Z) (e : error) :
  (Early.Read src = Returned ls ll (Some e) ->
   e = EOF \/ e = ErrUnexpectedEOF \/ exists n, e = ErrSkipByte n /\ -5 <= n < 0) /\
  (Latched.Read src = Returned ls ll (Some e) ->
   e = EOF \/ e = ErrUnexpectedEOF \/ exists n, e = ErrSkippingBytes n /\ -5 <= n < 0).
Proof.
  split; intros H.
  - unfold Early.Read in H.
    destruct (Early.pages (S (length src)) 0 0 src) as [[ls' ll'] src'|e'| |] eqn:Hp;
      try discriminate.
    injection H as _ _ <-. eapply Early_pages_errs. eassumption.
  - unfold Latched.Read in H.
    destruct (Latched.pages (S (S (length src))) 0 0 (Latched.ErrReader src None))
      as [[ls' ll'] rd|e'| |] eqn:Hp; try discriminate; [|destruct e'].
    injection H as _ _ He.
    pose proof (Latched_pages_keeps _ _ _ _ _ _ Hp I) as Hk.
    unfold latched_error_or_none in Hk. now rewrite He in Hk.
Qed.

Lemma Read_errors_witness :
  (ErrSkipByte (-2) = EOF \/ ErrSkipByte (-2) = ErrUnexpectedEOF \/
   exists n, ErrSkipByte (-2) = ErrSkipByte n /\ -5 <= n < 0) /\
  (EOF = EOF \/ EOF = ErrUnexpectedEOF \/
   exists n, EOF = ErrSkippingBytes n /\ -5 <= n < 0).
Proof.
  split.
  - apply (proj1 (Read_errors setup_ends_short 0 0 (ErrSkipByte (-2)))).
    vm_compute. reflexivity.
  - apply (proj2 (Read_errors ends_after_comment 100 200 EOF)).
    vm_compute. reflexivity.
Defined.

(** *** The values *)

Lemma zero_in_range : in_range 0.
Proof. unfold in_range, maxInt. lia. Qed.

Lemma tag_in_range (re meta : list byte) (v n : Z) :
  in_range v ->
  match FindSubmatch re meta with
  | Some m1 => Atoi m1 = Num n
  | None => n = v
  end -> in_range n.
Proof.
  intros Hv. destruct (FindSubmatch re meta) as [ds|] eqn:Hm; [|now intros ->].
  destruct (FindSubmatch_digits _ _ _ Hm) as [Hne Hall].
  rewrite Atoi_digits by assumption.
  destruct (Z.leb_spec (decimal ds) maxInt); [|discriminate].
  intros [= <-]. split; [now apply decimal_nonneg | assumption].
Qed.

Lemma Early_tag_range (re meta : list byte) (v : Z) :
  in_range v -> post (Early.tag re meta v) in_range.
Proof.
  intros Hv s n s' H. apply (tag_in_range re meta v n Hv).
  unfold Early.tag in H. destruct (FindSubmatch re meta); [|now injection H].
  destruct (Atoi l); [now injection H as ->|discriminate].
Qed.

Lemma Latched_tag_range (re meta : list byte) (v : Z) :
  in_range v -> post (Latched.tag re meta v) in_range.
Proof.
  intros Hv s n s' H. apply (tag_in_range re meta v n Hv).
  unfold Latched.tag, Latched.mustAtoi in H.
  destruct (FindSubmatch re meta); [|now injection H].
  destruct (Atoi l); [now injection H as ->|discriminate].
Qed.

Lemma Early_segment_range (segs : list byte) (i : nat) (a : acc) :
  acc_in_range a -> post (Early.segment segs i a) (fun r => acc_in_range (snd r)).
Proof.
  intros [Hls Hll]. unfold Early.segment, Early.tags.
  eapply post_bind; [apply post_any | intros headerType _].
  eapply post_bind; [apply post_any | intros b _].
  destruct (negb (bytes_eqb b vorb)).
  { eapply post_bind; [apply post_any | intros; apply post_ret; now split]. }
  destruct (negb (int headerType =? 3)).
  { eapply post_bind; [apply post_any | intros; apply post_ret; now split]. }
  destruct (packet_size (skipn i segs) i 0) as [i' size].
  eapply post_bind; [apply post_any | intros n _].
  eapply post_bind; [apply post_any | intros meta _].
  eapply post_bind.
  - eapply post_bind; [apply (Early_tag_range _ _ _ Hls) | intros ls Hls'].
    eapply post_bind; [apply (Early_tag_range _ _ _ Hll) | intros ll Hll'].
    apply (post_ret _ (fun v => in_range (fst v) /\ in_range (snd v))). now split.
  - intros [ls ll] Hv. apply post_ret. exact Hv.
Qed.

Lemma Latched_segment_range (segs : list byte) (i : nat) (a : acc) :
  acc_in_range a -> post (Latched.segment segs i a) (fun r => acc_in_range (snd r)).
Proof.
  intros [Hls Hll]. unfold Latched.segment, Latched.tags.
  eapply post_bind; [apply post_any | intros headerType _].
  eapply post_bind; [apply post_any | intros b _].
  destruct (negb (bytes_eqb b vorb)).
  { eapply post_bind; [apply post_any | intros; apply post_ret; now split]. }
  destruct (negb (int headerType =? 3)).
  { eapply post_bind; [apply post_any | intros; apply post_ret; now split]. }
  destruct (packet_size (skipn i segs) i 0) as [i' size].
  eapply post_bind; [apply post_any | intros meta _].
  eapply post_bind.
  - eapply post_bind; [apply (Latched_tag_range _ _ _ Hls) | intros ls Hls'].
    eapply post_bind; [apply (Latched_tag_range _ _ _ Hll) | intros ll Hll'].
    apply (post_ret _ (fun v => in_range (fst v) /\ in_range (snd v))). now split.
  - intros [ls ll] Hv. apply post_ret. exact Hv.
Qed.

Lemma Early_segments_range (fuel : nat) (segs : list byte) :
  forall i a, acc_in_range a -> post (Early.segments fuel segs i a) acc_in_range.
Proof.
  induction fuel as [|fuel IH]; intros i a Ha; cbn [Early.segments];
    destruct (i <? length segs)%nat; try (now apply post_ret).
  - intros s a' s' H. discriminate H.
  - eapply post_bind; [apply (Early_segment_range _ _ _ Ha) | intros [i' a'] Ha'].
    now apply IH.
Qed.

Lemma Latched_segments_range (fuel : nat) (segs : list byte) :
  forall i a, acc_in_range a -> post (Latched.segments fuel segs i a) acc_in_range.
Proof.
  induction fuel as [|fuel IH]; intros i a Ha; cbn [Latched.segments];
    destruct (i <? length segs)%nat; try (now apply post_ret).
  - intros s a' s' H. discriminate H.
  - eapply post_bind; [apply (Latched_segment_range _ _ _ Ha) | intros [i' a'] Ha'].
    now apply IH.
Qed.

Lemma Early_pages_range (fuel : nat) :
  forall ls ll, in_range ls -> in_range ll ->
    post (Early.pages fuel ls ll) (fun v => in_range (fst v) /\ in_range (snd v)).
Proof.
  induction fuel as [|fuel IH]; intros ls ll Hls Hll; cbn [Early.pages].
  { intros s a s' H. discriminate H. }
  eapply post_bind; [apply post_any | intros b _].
  destruct (negb (bytes_eqb b OggS)); [apply post_ret; now split|].
  eapply post_bind.
  - unfold Early.page.
    eapply post_bind; [apply post_any | intros _ _].
    eapply post_bind; [apply post_any | intros nseg _].
    eapply post_bind; [apply post_any | intros segs _].
    apply Early_segments_range. now split.
  - intros a [Ha1 Ha2].
    destruct (negb (headerFound a)); [apply post_ret; now split | now apply IH].
Qed.

Lemma Latched_pages_range (fuel : nat) :
  forall ls ll, in_range ls -> in_range ll ->
    post (Latched.pages fuel ls ll) (fun v => in_range (fst v) /\ in_range (snd v)).
Proof.
  induction fuel as [|fuel IH]; intros ls ll Hls Hll; cbn [Latched.pages].
  { intros s a s' H. discriminate H. }
  eapply post_bind; [apply post_any | intros b _].
  destruct (negb (bytes_eqb b OggS)); [apply post_ret; now split|].
  eapply post_bind.
  - unfold Latched.page.
    eapply post_bind; [apply post_any | intros _ _].
    eapply post_bind; [apply post_any | intros nseg _].
    eapply post_bind; [apply post_any | intros segs _].
    apply Latched_segments_range. now split.
  - intros a [Ha1 Ha2].
    destruct (negb (headerFound a)); [apply post_ret; now split | now apply IH].
Qed.

(** X9: whatever the stream, and whether an error comes with them or not,
    the loopStart and loopLength a version of [Read] returns are between 0
    and 2^63 - 1: the pattern captures digits only, so [strconv.Atoi] never
    sees a sign, and it gives no value above the largest [int]. *)
Theorem Read_values_in_range (src : stream) (ls ll : Z) (e : option error) :
  Early.Read src = Returned ls ll e \/ Latched.Read src = Returned ls ll e ->
  0 <= ls <= 2 ^ 63 - 1 /\ 0 <= ll <= 2 ^ 63 - 1.
Proof.
  intros [H|H].
  - unfold Early.Read in H.
    destruct (Early.pages (S (length src)) 0 0 src) as [[ls' ll'] src'|e'| |] eqn:Hp;
      try discriminate.
    + injection H as <- <- _.
      apply (Early_pages_range _ 0 0 zero_in_range zero_in_range _ _ _ Hp).
    + injection H as <- <- _. split; apply zero_in_range.
  - unfold Latched.Read in H.
    destruct (Latched.pages (S (S (length src))) 0 0 (Latched.ErrReader src None))
      as [[ls' ll'] rd|e'| |] eqn:Hp; try discriminate; [|destruct e'].
    injection H as <- <- _.
    apply (Latched_pages_range _ 0 0 zero_in_range zero_in_range _ _ _ Hp).
Qed.

Lemma Read_values_in_range_witness :
  0 <= 100 <= 2 ^ 63 - 1 /\ 0 <= 200 <= 2 ^ 63 - 1.
Proof.
  apply (Read_values_in_range ends_after_comment 100 200 (Some EOF)).
  right. vm_compute. reflexivity.
Defined.

(** ** The bytes of a page *)

Lemma total_nonneg (l : list byte) : 0 <= total l.
Proof.
  induction l as [|e l IH]; cbn [total fold_right]; [lia|].
  fold (total l). pose proof (int_range e). lia.
Qed.

Lemma total_bound (l : list byte) : total l <= 255 * Z.of_nat (length l).
Proof.
  induction l as [|e l IH]; cbn [total fold_right length]; [lia|].
  fold (total l). pose proof (int_range e). lia.
Qed.

Lemma total_skipn_nth (segs : list byte) :
  forall i, (i < length segs)%nat ->
    total (skipn i segs) = int (nth i segs x00) + total (skipn (S i) segs).
Proof.
  induction segs as [|e segs IH]; intros i Hi; cbn [length] in Hi; [lia|].
  destruct i as [|i]; [reflexivity|].
  cbn [skipn nth]. rewrite IH by lia. reflexivity.
Qed.

(** The inner loop adds up the entries from its first to the one it stops
    at. *)
Lemma packet_size_total (rest : list byte) :
  forall i sz i' size,
    packet_size rest i sz = (i', size) ->
    (i <= i')%nat /\ size = sz + total rest - total (skipn (S (i' - i)) rest).
Proof.
  induction rest as [|e rest IH]; intros i sz i' size; cbn [packet_size].
  - intros [= <- <-]. split; [lia|]. rewrite skipn_nil. cbn [total fold_right]. lia.
  - destruct (int e <? 255).
    + intros [= <- <-]. split; [lia|].
      rewrite Nat.sub_diag. cbn [skipn total fold_right]. fold (total rest). lia.
    + intros H. apply IH in H as [Hi ->]. split; [lia|].
      replace (S (i' - i)) with (S (S (i' - S i))) by lia.
      cbn [skipn total fold_right]. fold (total rest).
      change (skipn (S (i' - S i)) rest)
        with (match rest with [] => [] | _ :: l => skipn (i' - S i) l end).
      lia.
Qed.

Lemma Early_tags_source (meta : list byte) (a : acc) (I : stream -> Prop) :
  keeps I (Early.tags meta a).
Proof. unfold Early.tags, Early.tag. through_code. Qed.

(** A segment takes from the source as many bytes as its entries of the
    table add up to. *)
Lemma Early_segment_bytes (segs : list byte) (i : nat) (a : acc) (src : stream)
      (i' : nat) (a' : acc) (src' : stream) :
  Early.segment segs i a src = Ok (i', a') src' ->
  (i < length segs)%nat ->
  (i <= i')%nat /\
  exists body,
    src = body ++ src' /\
    Z.of_nat (length body) = total (skipn i segs) - total (skipn (S i') segs).
Proof.
  intros H Hi. unfold Early.segment in H.
  apply bind_Ok_inv in H as [headerType [src1 [Htype H]]].
  apply Early_readByte_inv in Htype. subst src.
  apply bind_Ok_inv in H as [b [src2 [Hb H]]].
  apply Early_readFull_inv in Hb as [Hb [Hsrc2 Hlen]].
  assert (Hskip : forall n u src3,
             Early.skip n src2 = Ok u src3 -> n = int (nth i segs x00) - 5 ->
             exists body,
               headerType :: src1 = body ++ src3 /\
               Z.of_nat (length body)
               = total (skipn i segs) - total (skipn (S i) segs)).
  { intros n [] src3 Hs ->. apply Early_skip_Ok in Hs as [Hn ->].
    exists (headerType :: firstn 4 src1
            ++ firstn (Z.to_nat (int (nth i segs x00) - 5)) src2).
    split.
    - cbn [app]. rewrite <- app_assoc, firstn_skipn. subst src2.
      now rewrite firstn_skipn.
    - rewrite (total_skipn_nth segs i Hi). cbn [length].
      rewrite length_app, !length_firstn. subst src2.
      rewrite length_skipn in *. lia. }
  destruct (negb (bytes_eqb b vorb)).
  { apply bind_Ok_inv in H as [u [src3 [Hs H]]]. injection H as <- _ <-.
    split; [lia|]. eapply Hskip; [eassumption | reflexivity]. }
  destruct (negb (int headerType =? 3)).
  { apply bind_Ok_inv in H as [u [src3 [Hs H]]]. injection H as <- _ <-.
    split; [lia|]. eapply Hskip; [eassumption | reflexivity]. }
  clear Hskip.
  destruct (packet_size (skipn i segs) i 0) as [j size] eqn:Hsize.
  apply packet_size_total in Hsize as [Hj Hsize].
  rewrite skipn_skipn in Hsize. replace (S (j - i) + i)%nat with (S j) in Hsize by lia.
  apply bind_Ok_inv in H as [n [src3 [Hmake H]]].
  unfold Early.make in Hmake.
  destruct (Z.ltb_spec (size - 5) 0); [discriminate|]. injection Hmake as <- <-.
  apply bind_Ok_inv in H as [meta [src4 [Hmeta H]]].
  apply Early_readFull_inv in Hmeta as [Hmeta [Hsrc4 Hlen4]].
  apply bind_Ok_inv in H as [[ls ll] [src5 [Htags H]]].
  pose proof (Early_tags_source meta a (eq src4) _ _ _ Htags eq_refl) as Hsame.
  injection H as <- _ <-. subst src5. split; [exact Hj|].
  exists (headerType :: firstn 4 src1 ++ firstn (Z.to_nat (size - 5)) src2).
  split.
  - cbn [app]. rewrite <- app_assoc. subst src4. rewrite firstn_skipn. subst src2.
    now rewrite firstn_skipn.
  - cbn [length]. rewrite length_app, !length_firstn. subst src2.
    rewrite length_skipn in *. lia.
Qed.

Lemma Early_segments_bytes (fuel : nat) (segs : list byte) :
  forall i a src a' src',
    Early.segments fuel segs i a src = Ok a' src' ->
    exists body,
      src = body ++ src' /\ Z.of_nat (length body) = total (skipn i segs).
Proof.
  induction fuel as [|fuel IH]; intros i a src a' src'; cbn [Early.segments];
    destruct (Nat.ltb_spec i (length segs)) as [Hi|Hi]; try discriminate;
    try (intros [= _ <-]; exists []; split; [reflexivity|];
         now rewrite skipn_all2 by lia).
  intros H. apply bind_Ok_inv in H as [[i1 a1] [src1 [Hseg H]]].
  apply Early_segment_bytes in Hseg as [Hi1 [body1 [-> Hlen1]]]; [|exact Hi].
  apply IH in H as [body2 [-> Hlen2]].
  exists (body1 ++ body2). split; [now rewrite app_assoc|].
  rewrite length_app. lia.
Qed.

Lemma Early_page_bytes (ls ll : Z) (src : stream) (a : acc) (src' : stream) :
  Early.page ls ll src = Ok a src' -> page_bytes src src'.
Proof.
  intros H. unfold Early.page in H.
  apply bind_Ok_inv in H as [[] [src1 [Hskip H]]].
  apply Early_skip_Ok in Hskip as [Hlen ->].
  apply bind_Ok_inv in H as [nseg [src2 [Hn H]]].
  apply Early_readByte_inv in Hn.
  apply bind_Ok_inv in H as [segs [src3 [Hsegs H]]].
  pose proof (Early_readFull_length _ _ _ _ Hsegs) as [_ Hlsegs].
  apply Early_readFull_inv in Hsegs as [Hsegs [-> _]].
  apply Early_segments_bytes in H as [body [Hbody Hlbody]].
  exists (firstn (Z.to_nat (26 - 4)) src), nseg, segs, body.
  split; [|split; [|split]].
  - rewrite <- Hbody, Hsegs, firstn_skipn, <- Hn. now rewrite firstn_skipn.
  - rewrite length_firstn. lia.
  - rewrite Hlsegs. pose proof (int_range nseg). lia.
  - rewrite Hlbody. reflexivity.
Qed.

(** What the latched version does without latching an error, the
    early-return version does. *)
Lemma follows_back {A} (mA : M stream error A)
      (mB : M Latched.errReader Empty_set A) :
  follows mA mB -> finishes mA ->
  forall src a src', mB (fresh src) = Ok a (fresh src') -> mA src = Ok a src'.
Proof.
  intros Hf Hfin src a src' HB. specialize (Hf src).
  destruct (mA src) as [a0 src0|e|p|] eqn:HA.
  - rewrite HB in Hf. now injection Hf as <- <-.
  - specialize (Hf _ _ HB). now contradiction Hf.
  - rewrite HB in Hf. discriminate.
  - now apply Hfin in HA.
Qed.

(** X10: a page that a version of [Read] reads to its end without error
    takes from the source, after the capture pattern, exactly the 22 bytes
    of fixed header, the byte of the number of entries, the table of that
    many entries and as many bytes as the entries add up to, whatever
    these bytes are: the reader is then at the next page boundary of the Ogg
    framing.  With the capture pattern that is at most 65307 bytes, the
    largest Ogg page. *)
Theorem page_read_to_its_boundary (ls ll : Z) (src : stream) (a : acc) (src' : stream) :
  Early.page ls ll src = Ok a src' \/
  Latched.page ls ll (fresh src) = Ok a (fresh src') ->
  page_bytes src src' /\
  4 + Z.of_nat (length src) <= Z.of_nat (length src') + 65307.
Proof.
  intros H.
  assert (HE : Early.page ls ll src = Ok a src').
  { destruct H as [H|H]; [exact H|].
    now apply (follows_back _ _ (follows_page ls ll) (Early_page_finishes ls ll)). }
  apply Early_page_bytes in HE. split; [exact HE|].
  destruct HE as [hdr [nseg [segs [body [-> [Hh [Hs Hb]]]]]]].
  rewrite length_app. cbn [length]. rewrite !length_app.
  pose proof (total_bound segs). pose proof (int_range nseg). lia.
Qed.

Lemma page_read_to_its_boundary_witness :
  page_bytes (after_capture identification_page ++ bytes "next") (bytes "next") /\
  4 + Z.of_nat (length (after_capture identification_page ++ bytes "next"))
  <= Z.of_nat (length (bytes "next")) + 65307.
Proof.
  apply (page_read_to_its_boundary 0 0 _ (Acc 0 0 true)).
  right. vm_compute. reflexivity.
Defined.

(** X11: the inner loop over the lacing values of the comment packet, from
    an entry [i] of a table of at most 255 entries (the number of entries
    is one byte): it leaves the index at the first entry below 255 from
    [i] on, or at the end of the table when there is none, never beyond;
    the size it gives is the sum of the entries from [i] to that index,
    at most 255 * 255, so that the buffer made for the payload has a
    length between -5 (a panic) and 65020. *)
Theorem comment_packet_size_bounded (segs : list byte) (i : nat) :
  (length segs <= 255)%nat -> (i < length segs)%nat ->
  let j := fst (packet_size (skipn i segs) i 0) in
  let size := snd (packet_size (skipn i segs) i 0) in
  (i <= j <= length segs)%nat /\
  (forall k, (i <= k < j)%nat -> int (nth k segs x00) = 255) /\
  ((j < length segs)%nat -> int (nth j segs x00) < 255) /\
  size = total (skipn i segs) - total (skipn (S j) segs) /\
  -5 <= size - 5 <= 65020.
Proof.
  intros Hlen Hi j size. subst j size.
  assert (Hrun : forall rest i0 sz,
             let j := fst (packet_size rest i0 sz) in
             (j <= i0 + length rest)%nat /\
             (forall k, (i0 <= k < j)%nat -> int (nth (k - i0) rest x00) = 255) /\
             ((j < i0 + length rest)%nat -> int (nth (j - i0) rest x00) < 255)).
  { induction rest as [|e rest IH]; intros i0 sz; cbn [packet_size].
    - cbn [fst length]. repeat split; lia.
    - destruct (Z.ltb_spec (int e) 255) as [He|He]; cbn [fst length].
      + repeat split; try lia. intros _. now rewrite Nat.sub_diag.
      + specialize (IH (S i0) (sz + int e)). cbn zeta in IH.
        destruct IH as [IH1 [IH2 IH3]].
        pose proof (packet_size_index rest (S i0) (sz + int e)) as Hj.
        repeat split; [lia | |].
        * intros k Hk. destruct (Nat.eq_dec k i0) as [->|Hne].
          -- rewrite Nat.sub_diag. cbn [nth]. pose proof (int_range e). lia.
          -- replace (k - i0)%nat with (S (k - S i0)) by lia. cbn [nth].
             apply IH2. lia.
        * intros Hlt.
          replace (fst (packet_size rest (S i0) (sz + int e)) - i0)%nat
            with (S (fst (packet_size rest (S i0) (sz + int e)) - S i0)) by lia.
          cbn [nth]. apply IH3. lia. }
  specialize (Hrun (skipn i segs) i 0). cbn zeta in Hrun.
  rewrite length_skipn in Hrun. destruct Hrun as [H1 [H2 H3]].
  pose proof (packet_size_index (skipn i segs) i 0) as Hj.
  destruct (packet_size (skipn i segs) i 0) as [j size] eqn:Hsize.
  cbn [fst snd] in *.
  apply packet_size_total in Hsize as [_ Hsize].
  rewrite skipn_skipn in Hsize. replace (S (j - i) + i)%nat with (S j) in Hsize by lia.
  assert (Hnth : forall k, (i <= k)%nat ->
                   nth (k - i) (skipn i segs) x00 = nth k segs x00).
  { intros k Hk. rewrite nth_skipn. f_equal. lia. }
  split; [lia|]. split; [|split; [|split]].
  - intros k Hk. rewrite <- Hnth by lia. now apply H2.
  - intros Hlt. rewrite <- Hnth by lia. apply H3. lia.
  - lia.
  - pose proof (total_nonneg (skipn (S j) segs)).
    pose proof (total_bound (skipn i segs)) as Hb. rewrite length_skipn in Hb.
    assert (Hmono : total (skipn (S j) segs) <= total (skipn i segs)).
    { clear - Hj. revert i Hj.
      assert (Hstep : forall l : list byte, total (skipn 1 l) <= total l).
      { intros [|e l]; cbn [skipn total fold_right]; [lia|].
        fold (total l). pose proof (int_range e). lia. }
      assert (Hle : forall d (l : list byte), total (skipn d l) <= total l).
      { induction d as [|d IHd]; intros l; [cbn [skipn]; lia|].
        replace (S d) with (1 + d)%nat by lia. rewrite <- skipn_skipn.
        specialize (Hstep (skipn d l)). specialize (IHd l). lia. }
      intros i Hj. replace (S j) with ((S j - i) + i)%nat by lia.
      rewrite <- skipn_skipn. apply Hle. }
    lia.
Qed.

Lemma comment_packet_size_bounded_witness :
  let segs := [x1e; xff; xff; x03; x1e] in
  let j := fst (packet_size (skipn 1 segs) 1 0) in
  let size := snd (packet_size (skipn 1 segs) 1 0) in
  (1 <= j <= length segs)%nat /\
  (forall k, (1 <= k < j)%nat -> int (nth k segs x00) = 255) /\
  ((j < length segs)%nat -> int (nth j segs x00) < 255) /\
  size = total (skipn 1 segs) - total (skipn (S j) segs) /\
  -5 <= size - 5 <= 65020.
Proof.
  apply (comment_packet_size_bounded [x1e; xff; xff; x03; x1e] 1); simpl; lia.
Defined.

(** ** What comes after the bytes that were read *)

Lemma stable_ret {A} (a : A) : stable (ret a).
Proof. intros src more. reflexivity. Qed.

Lemma stable_raise {A} (p : panic) : stable (@raise _ _ A p).
Proof. intros src more. reflexivity. Qed.

Lemma stable_throw {A} (e : error) : stable (@throw _ _ A e).
Proof. intros src more. exact I. Qed.

Lemma stable_fuel {A} : stable (fun _ : stream => @Fuel _ error A).
Proof. intros src more. exact I. Qed.

Lemma stable_bind {A B} (m : M stream error A) (k : A -> M stream error B) :
  stable m -> (forall a, stable (k a)) -> stable (bind m k).
Proof.
  intros Hm Hk src more. specialize (Hm src more). unfold bind.
  destruct (m src) as [a src'|e|p|]; try exact I.
  - rewrite Hm. apply Hk.
  - now rewrite Hm.
Qed.

Lemma Early_readFull_stable (n : nat) : stable (Early.readFull n).
Proof.
  intros src more. unfold Early.readFull, ReadFull.
  destruct (Nat.leb_spec n (length src)) as [Hn|Hn]; [|exact I].
  rewrite length_app.
  destruct (Nat.leb_spec n (length src + length more)); [|lia].
  rewrite firstn_app, skipn_app.
  replace (n - length src)%nat with 0%nat by lia.
  cbn [firstn skipn]. now rewrite app_nil_r.
Qed.

#[local] Hint Resolve
  stable_ret stable_raise stable_throw stable_fuel Early_readFull_stable : oggloop.

(** The same code on a longer source: bind by bind, test by test. *)
Ltac on_longer_source :=
  repeat first
    [ match goal with |- forall _, _ => intro end
    | solve [auto with oggloop nocore]
    | apply stable_bind
    | code_case ].

Lemma Early_skip_stable (n : Z) : stable (Early.skip n).
Proof. unfold Early.skip. on_longer_source. Qed.

Lemma Early_readByte_stable : stable Early.readByte.
Proof. unfold Early.readByte. on_longer_source. Qed.

Lemma Early_make_stable (size : Z) : stable (Early.make size).
Proof. unfold Early.make. on_longer_source. Qed.

Lemma Early_tags_stable (meta : list byte) (a : acc) : stable (Early.tags meta a).
Proof. unfold Early.tags, Early.tag. on_longer_source. Qed.

#[local] Hint Resolve
  Early_skip_stable Early_readByte_stable Early_make_stable Early_tags_stable : oggloop.

Lemma Early_segment_stable (segs : list byte) (i : nat) (a : acc) :
  stable (Early.segment segs i a).
Proof. unfold Early.segment. on_longer_source. Qed.

#[local] Hint Resolve Early_segment_stable : oggloop.

Lemma Early_segments_stable (fuel : nat) (segs : list byte) :
  forall i a, stable (Early.segments fuel segs i a).
Proof.
  induction fuel as [|fuel IH]; intros i a; cbn [Early.segments]; on_longer_source.
Qed.

#[local] Hint Resolve Early_segments_stable : oggloop.

Lemma Early_page_stable (ls ll : Z) : stable (Early.page ls ll).
Proof. unfold Early.page. on_longer_source. Qed.

#[local] Hint Resolve Early_page_stable : oggloop.

Lemma Early_pages_stable (fuel : nat) :
  forall ls ll, stable (Early.pages fuel ls ll).
Proof.
  induction fuel as [|fuel IH]; intros ls ll; cbn [Early.pages]; on_longer_source.
Qed.

(** More fuel changes nothing where the page loop has come to an end. *)
Lemma Early_pages_fuel (fuel : nat) :
  forall ls ll src k,
    Early.pages fuel ls ll src <> Fuel ->
    Early.pages (fuel + k) ls ll src = Early.pages fuel ls ll src.
Proof.
  induction fuel as [|fuel IH]; intros ls ll src k; [intros H; now contradiction H|].
  cbn [Nat.add Early.pages]. unfold bind.
  destruct (Early.readFull 4 src) as [b src1| | |]; try reflexivity.
  destruct (negb (bytes_eqb b OggS)); [reflexivity|].
  destruct (Early.page ls ll src1) as [a src2| | |]; try reflexivity.
  destruct (negb (headerFound a)); [reflexivity|].
  apply IH.
Qed.

Lemma Early_pages_longer (src more : stream) :
  Early.pages (S (length src)) 0 0 src <> Fuel ->
  match Early.pages (S (length src)) 0 0 src with
  | Ok v src' => Early.pages (S (length (src ++ more))) 0 0 (src ++ more)
                 = Ok v (src' ++ more)
  | Panic p => Early.pages (S (length (src ++ more))) 0 0 (src ++ more) = Panic p
  | Err _ => True
  | Fuel => True
  end.
Proof.
  intros Hfuel.
  pose proof (Early_pages_stable (S (length src)) 0 0 src more) as Hs.
  rewrite length_app.
  change (S (length src + length more)) with (S (length src) + length more)%nat.
  destruct (Early.pages (S (length src)) 0 0 src) as [v src'|e|p|] eqn:Hp;
    try exact I.
  - rewrite Early_pages_fuel; [exact Hs | rewrite Hs; discriminate].
  - rewrite Early_pages_fuel; [exact Hs | rewrite Hs; discriminate].
Qed.

(** X12: [Read] is decided by the bytes it has read.  When a version
    returns values with a nil error on a stream, both versions return the
    same values with a nil error on every stream that goes on with more
    bytes; and when the version of src/oggloop.go panics on a stream, it
    panics in the same way however the stream goes on. *)
Theorem Read_ignores_what_follows (src more : stream) :
  (forall ls ll,
     Early.Read src = Returned ls ll None \/ Latched.Read src = Returned ls ll None ->
     Early.Read (src ++ more) = Returned ls ll None /\
     Latched.Read (src ++ more) = Returned ls ll None) /\
  (forall p, Early.Read src = Panicked p -> Early.Read (src ++ more) = Panicked p).
Proof.
  pose proof (Early_Read_total src) as Htotal.
  assert (Hfuel : Early.pages (S (length src)) 0 0 src <> Fuel).
  { intros H. apply Htotal. unfold Early.Read. now rewrite H. }
  pose proof (Early_pages_longer src more Hfuel) as Hlong.
  split.
  - intros ls ll H.
    assert (HE : Early.Read src = Returned ls ll None).
    { destruct H as [H|H]; [exact H | now apply Read_nil_iff]. }
    assert (HE' : Early.Read (src ++ more) = Returned ls ll None).
    { unfold Early.Read in *.
      destruct (Early.pages (S (length src)) 0 0 src) as [[ls' ll'] src'|e|p|];
        try discriminate.
      rewrite Hlong. exact HE. }
    split; [exact HE' | now apply Read_follows].
  - intros p H. unfold Early.Read in *.
    destruct (Early.pages (S (length src)) 0 0 src) as [[ls' ll'] src'|e|p'|];
      try discriminate.
    rewrite Hlong. exact H.
Qed.

Lemma Read_ignores_what_follows_witness :
  Early.Read (stream_with_comment tagged_once ++ bytes "LOOPSTART=5") = Returned 100 200 None /\
  Latched.Read (stream_with_comment tagged_once ++ bytes "LOOPSTART=5") = Returned 100 200 None.
Proof.
  apply (proj1 (Read_ignores_what_follows (stream_with_comment tagged_once)
                                         (bytes "LOOPSTART=5")) 100 200).
  left. vm_compute. reflexivity.
Defined.

(** ** The error of the one version and of the other *)

Section Latching.

Variable e0 : error.

Lemma Latched_ReadBytes_latching (n : Z) : keeps (latched e0) (Latched.ReadBytes n).
Proof.
  intros rd buf rd'. unfold Latched.ReadBytes, latched.
  destruct (n <? 0); [discriminate|].
  intros H He. rewrite He in H. now injection H as _ <-.
Qed.

Lemma Latched_Skip_latching (n : Z) : keeps (latched e0) (Latched.Skip n).
Proof.
  intros rd u rd'. unfold Latched.Skip, latched.
  intros H He. rewrite He in H. now injection H as _ <-.
Qed.

Hint Resolve Latched_ReadBytes_latching Latched_Skip_latching : oggloop.

Lemma Latched_ReadByte_latching : keeps (latched e0) Latched.ReadByte.
Proof. unfold Latched.ReadByte. through_code. Qed.

Lemma Latched_tags_latching (meta : list byte) (a : acc) :
  keeps (latched e0) (Latched.tags meta a).
Proof. unfold Latched.tags, Latched.tag, Latched.mustAtoi. through_code. Qed.

Hint Resolve Latched_ReadByte_latching Latched_tags_latching : oggloop.

Lemma Latched_segment_latching (segs : list byte) (i : nat) (a : acc) :
  keeps (latched e0) (Latched.segment segs i a).
Proof. unfold Latched.segment. through_code. Qed.

Hint Resolve Latched_segment_latching : oggloop.

Lemma Latched_segments_latching (fuel : nat) (segs : list byte) :
  forall i a, keeps (latched e0) (Latched.segments fuel segs i a).
Proof.
  induction fuel as [|fuel IH]; intros i a; cbn [Latched.segments]; through_code.
Qed.

Hint Resolve Latched_segments_latching : oggloop.

Lemma Latched_page_latching (ls ll : Z) : keeps (latched e0) (Latched.page ls ll).
Proof. unfold Latched.page. through_code. Qed.

Hint Resolve Latched_page_latching : oggloop.

Lemma Latched_pages_latching (fuel : nat) :
  forall ls ll, keeps (latched e0) (Latched.pages fuel ls ll).
Proof.
  induction fuel as [|fuel IH]; intros ls ll; cbn [Latched.pages]; through_code.
Qed.

End Latching.

#[local] Hint Resolve
  Latched_ReadBytes_latching Latched_Skip_latching Latched_ReadByte_latching
  Latched_tags_latching Latched_segment_latching Latched_segments_latching
  Latched_page_latching Latched_pages_latching : oggloop.

Lemma same_error_ret {A} (a : A) : same_error (ret a) (ret a).
Proof. intros src e a' rd H. discriminate H. Qed.

Lemma same_error_raise {A} (p : panic) : same_error (@raise _ _ A p) (raise p).
Proof. intros src e a rd H. discriminate H. Qed.

Lemma same_error_fuel {A} (mB : M Latched.errReader Empty_set A) :
  same_error (fun _ => Fuel) mB.
Proof. intros src e a rd H. discriminate H. Qed.

Lemma same_error_bind {A B} (mA : M stream error A) (kA : A -> M stream error B)
      (mB : M Latched.errReader Empty_set A)
      (kB : A -> M Latched.errReader Empty_set B) :
  follows mA mB -> same_error mA mB ->
  (forall e a, keeps (latched e) (kB a)) ->
  (forall a, same_error (kA a) (kB a)) ->
  same_error (bind mA kA) (bind mB kB).
Proof.
  intros Hf Hm Hkeep Hk src e b rd HA HB. specialize (Hf src). unfold bind in HA.
  apply bind_Ok_inv in HB as [a [rd1 [HB1 HB2]]].
  destruct (mA src) as [a0 src0|e0|p|] eqn:Hsrc; try discriminate.
  - rewrite HB1 in Hf. injection Hf as -> ->.
    now apply (Hk a0 src0 e b rd).
  - injection HA as ->.
    apply (Hkeep _ a rd1 b rd HB2). now apply (Hm src e a rd1).
Qed.

Lemma same_error_readFull (n : nat) :
  same_error (Early.readFull n) (Latched.ReadBytes (Z.of_nat n)).
Proof.
  intros src e buf rd. unfold Early.readFull, Latched.ReadBytes, latched.
  destruct (Z.ltb_spec (Z.of_nat n) 0); [lia|]. cbn [fresh Latched.err Latched.r].
  rewrite Nat2Z.id.
  destruct (Z.eqb_spec (Z.of_nat n) 0) as [H0|H0].
  - replace n with 0%nat by lia. discriminate.
  - unfold ReadFull. destruct (n <=? length src)%nat; [discriminate|].
    intros [= <-] [= _ <-]. cbn [Latched.err]. now destruct src.
Qed.

Lemma same_error_readBytes (n : Z) :
  0 <= n -> same_error (Early.readFull (Z.to_nat n)) (Latched.ReadBytes n).
Proof.
  intros Hn. pose proof (same_error_readFull (Z.to_nat n)) as H.
  now rewrite Z2Nat.id in H.
Qed.

Lemma same_error_skip (n : Z) : same_error (Early.skip n) (Latched.Skip n).
Proof.
  intros src e u rd. unfold Early.skip, Latched.Skip. cbn [fresh Latched.err].
  destruct (n =? 0); [discriminate|].
  destruct (Z.ltb_spec n 0) as [Hn|Hn].
  - intros [= <-] [= _ <-]. reflexivity.
  - apply (same_error_bind _ (fun _ => ret tt) _ (fun _ => ret tt)
             (follows_readBytes n Hn) (same_error_readBytes n Hn)
             (fun e' _ => keeps_ret (latched e') tt)
             (fun _ => same_error_ret tt) src).
Qed.

(** [make([]byte, size)] and the read into it are one [ReadBytes]. *)
Lemma same_error_make_bind {B} (size : Z) (kA : list byte -> M stream error B)
      (kB : list byte -> M Latched.errReader Empty_set B) :
  (forall e meta, keeps (latched e) (kB meta)) ->
  (forall meta, same_error (kA meta) (kB meta)) ->
  same_error (n <- Early.make size ;; meta <- Early.readFull n ;; kA meta)
             (meta <- Latched.ReadBytes size ;; kB meta).
Proof.
  intros Hkeep Hk src. unfold bind at 1. unfold Early.make.
  destruct (Z.ltb_spec size 0) as [Hn|Hn].
  - intros e a rd H. discriminate H.
  - apply (same_error_bind _ kA _ kB (follows_readBytes size Hn)
             (same_error_readBytes size Hn) Hkeep Hk src).
Qed.

#[local] Hint Resolve
  same_error_ret same_error_raise same_error_fuel same_error_skip : oggloop.

(** The same code on both sides, with the error of the one latched by the
    other. *)
Ltac error_by_error :=
  repeat first
    [ match goal with |- forall _, _ => intro end
    | solve [auto with oggloop nocore]
    | apply (same_error_readFull 1)
    | apply (same_error_readFull 4)
    | (apply same_error_readBytes; apply int_range)
    | (apply same_error_make_bind; [through_code | ])
    | (apply same_error_bind; [solve [side_by_side] | | through_code | ])
    | code_case ].

Lemma same_error_readByte : same_error Early.readByte Latched.ReadByte.
Proof. unfold Early.readByte, Latched.ReadByte. error_by_error. Qed.

Lemma same_error_tags (meta : list byte) (a : acc) :
  same_error (Early.tags meta a) (Latched.tags meta a).
Proof.
  intros src e v rd H. now apply (Early_tags_errs meta a (fun _ => False)) in H.
Qed.

#[local] Hint Resolve same_error_readByte same_error_tags : oggloop.

Lemma same_error_segment (segs : list byte) (i : nat) (a : acc) :
  same_error (Early.segment segs i a) (Latched.segment segs i a).
Proof. unfold Early.segment, Latched.segment. error_by_error. Qed.

#[local] Hint Resolve same_error_segment : oggloop.

Lemma same_error_segments (fuel : nat) (segs : list byte) :
  forall i a, same_error (Early.segments fuel segs i a) (Latched.segments fuel segs i a).
Proof.
  induction fuel as [|fuel IH]; intros i a;
    cbn [Early.segments Latched.segments]; error_by_error.
Qed.

#[local] Hint Resolve same_error_segments : oggloop.

Lemma same_error_page (ls ll : Z) : same_error (Early.page ls ll) (Latched.page ls ll).
Proof. unfold Early.page, Latched.page. error_by_error. Qed.

#[local] Hint Resolve same_error_page follows_pages : oggloop.

Lemma same_error_pages (fuel : nat) :
  forall ls ll, same_error (Early.pages fuel ls ll) (Latched.pages (S fuel) ls ll).
Proof.
  induction fuel as [|fuel IH]; intros ls ll; [apply same_error_fuel|].
  change (Latched.pages (S (S fuel)) ls ll) with
    (b <- Latched.ReadBytes 4 ;;
     if negb (bytes_eqb b OggS) then ret (ls, ll)
     else a <- Latched.page ls ll ;;
          if negb (headerFound a) then ret (loopStart a, loopLength a)
          else Latched.pages (S fuel) (loopStart a) (loopLength a)).
  cbn [Early.pages]. error_by_error.
Qed.

(** The panic of the [errReader] version where the other returns an error
    does happen: the payload that was cut short is searched for tags all
    the same. *)
Lemma cut_payload_error_and_panic :
  Early.Read cut_in_payload = Returned 0 0 (Some ErrUnexpectedEOF) /\
  Latched.Read cut_in_payload = Panicked (AtoiPanic ErrRange).
Proof. split; vm_compute; reflexivity. Qed.

(** X13: the two versions stop at the same error.  Where the version of
    src/oggloop.go returns an error, the [errReader] version returns that
    error (with the wording of its own message for a skip of negative
    length) or panics; where the [errReader] version returns an error, the
    version of src/oggloop.go returns it, with 0 and 0; and where the
    version of src/oggloop.go panics, the [errReader] version panics in
    the same way. *)
Theorem versions_stop_at_same_error (src : stream) :
  (forall ls ll e,
     Early.Read src = Returned ls ll (Some e) ->
     (exists ls' ll', Latched.Read src = Returned ls' ll' (Some (latched_of e))) \/
     (exists p, Latched.Read src = Panicked p)) /\
  (forall ls ll e',
     Latched.Read src = Returned ls ll (Some e') ->
     exists e, Early.Read src = Returned 0 0 (Some e) /\ e' = latched_of e) /\
  (forall p, Early.Read src = Panicked p -> Latched.Read src = Panicked p).
Proof.
  pose proof (Early_Read_total src) as HtotalE.
  pose proof (Latched_Read_total src) as HtotalL.
  pose proof (follows_pages (S (length src)) 0 0 src) as Hf.
  pose proof (same_error_pages (S (length src)) 0 0 src) as Hs.
  unfold Early.Read, Latched.Read in *. fold (fresh src) in *.
  destruct (Early.pages (S (length src)) 0 0 src) as [[ls0 ll0] src0|e0|p0|];
    [| | |now contradiction HtotalE].
  - rewrite Hf. cbn [fresh Latched.err].
    split; [discriminate|]. split; discriminate.
  - destruct (Latched.pages (S (S (length src))) 0 0 (fresh src))
      as [[ls1 ll1] rd|e1|p1|]; [|destruct e1| |now contradiction HtotalL].
    + specialize (Hs e0 _ _ eq_refl eq_refl). unfold latched in Hs. rewrite Hs.
      split; [|split; [|discriminate]].
      * intros ls ll e [= _ _ <-]. left. now exists ls1, ll1.
      * intros ls ll e' [= _ _ <-]. now exists e0.
    + split; [|split; discriminate].
      intros ls ll e _. right. now exists p1.
  - rewrite Hf. split; [discriminate|]. split; [discriminate|].
    intros p H. exact H.
Qed.

Lemma versions_stop_at_same_error_witness :
  (exists ls' ll',
     Latched.Read setup_ends_short = Returned ls' ll' (Some (latched_of (ErrSkipByte (-2))))) \/
  (exists p, Latched.Read setup_ends_short = Panicked p).
Proof.
  apply (proj1 (versions_stop_at_same_error setup_ends_short) 0 0 (ErrSkipByte (-2))).
  vm_compute. reflexivity.
Defined.

(** ** A segment shorter than the five bytes read to classify it *)

Lemma Latched_segment_item (pre post : list byte) (it : item) (a : acc) (rest : list byte) :
  item_ok it ->
  exists i,
    Latched.segment (pre ++ entries it ++ post) (length pre) a (fresh (content it ++ rest))
    = Ok (i, after_item a it) (fresh rest) /\
    S i = length (pre ++ entries it).
Proof.
  intros Hit.
  destruct (Early_segment_item pre post it a rest Hit) as [i [H Hi]].
  exists i. split; [|exact Hi].
  pose proof (follows_segment (pre ++ entries it ++ post) (length pre) a
                (content it ++ rest)) as Hf.
  now rewrite H in Hf.
Qed.

(** The segment loop over the items at the head of what is left of a
    table. *)
Lemma segments_after_items (its : list item) :
  Forall item_ok its ->
  forall fuel pre post a rest,
    Early.segments (length its + fuel) (pre ++ table its ++ post) (length pre) a
      (flat_map content its ++ rest)
    = Early.segments fuel (pre ++ table its ++ post) (length (pre ++ table its))
        (fold_left after_item its a) rest /\
    Latched.segments (length its + fuel) (pre ++ table its ++ post) (length pre) a
      (fresh (flat_map content its ++ rest))
    = Latched.segments fuel (pre ++ table its ++ post) (length (pre ++ table its))
        (fold_left after_item its a) (fresh rest).
Proof.
  induction 1 as [|it its Hit Hits IH]; intros fuel pre post a rest.
  - cbn [length Nat.add table flat_map fold_left app]. rewrite app_nil_r.
    split; reflexivity.
  - cbn [length Nat.add Early.segments Latched.segments fold_left].
    unfold table. cbn [flat_map]. fold (table its).
    rewrite <- !app_assoc.
    replace (length pre <? length (pre ++ entries it ++ table its ++ post))%nat
      with true.
    2:{ symmetry. apply Nat.ltb_lt. rewrite !length_app.
        pose proof (entries_length it). lia. }
    destruct (Early_segment_item pre (table its ++ post) it a
                (flat_map content its ++ rest) Hit) as [i [Hseg Hi]].
    destruct (Latched_segment_item pre (table its ++ post) it a
                (flat_map content its ++ rest) Hit) as [i' [Hseg' Hi']].
    rewrite (bind_Ok _ _ _ _ _ Hseg), (bind_Ok _ _ _ _ _ Hseg'), Hi, Hi'.
    specialize (IH fuel (pre ++ entries it) post (after_item a it) rest).
    rewrite <- !app_assoc in IH. exact IH.
Qed.

(** The page loop over whole pages with a header each at the head of a
    stream. *)
Lemma pages_after_pages (ps : list ogg_page) :
  Forall page_ok ps ->
  Forall (fun p => has_header p = true) ps ->
  forall fuel ls ll rest,
    Early.pages (length ps + fuel) ls ll (flat_map encode_page ps ++ rest)
    = Early.pages fuel (fst (fold_left after_page ps (ls, ll)))
        (snd (fold_left after_page ps (ls, ll))) rest /\
    Latched.pages (length ps + fuel) ls ll (fresh (flat_map encode_page ps ++ rest))
    = Latched.pages fuel (fst (fold_left after_page ps (ls, ll)))
        (snd (fold_left after_page ps (ls, ll))) (fresh rest).
Proof.
  intros Hok Hhdr.
  induction Hok as [|p ps Hp Hps IH]; intros fuel ls ll rest.
  - split; reflexivity.
  - inversion Hhdr as [|? ? Hph Hpsh]; subst.
    cbn [length Nat.add flat_map fold_left Early.pages Latched.pages].
    unfold encode_page at 1 3.
    rewrite <- !app_assoc. cbn [app].
    rewrite (bind_Ok _ _ _ _ _ (Early_readFull_app OggS _)).
    rewrite (bind_Ok _ _ _ _ _ (Latched_ReadBytes_app OggS _)).
    rewrite bytes_eqb_refl. cbn [negb].
    rewrite <- !app_assoc.
    rewrite (bind_Ok _ _ _ _ _ (Early_page_encoded p ls ll _ Hp)).
    rewrite (bind_Ok _ _ _ _ _ (Latched_page_encoded p ls ll _ Hp)).
    rewrite after_items_header. unfold has_header in Hph. rewrite Hph.
    cbn [headerFound orb negb]. apply (IH Hpsh).
Qed.

(** A segment that is not the comment header, at an entry below 5: the
    skip of what is left of it has a negative length. *)
Lemma segment_short_other (segs : list byte) (i : nat) (a : acc)
      (ty : byte) (sig rest : list byte) :
  length sig = 4%nat -> sig <> vorb \/ int ty <> 3 ->
  int (nth i segs x00) < 5 ->
  Early.segment segs i a (ty :: sig ++ rest)
  = Err (ErrSkipByte (int (nth i segs x00) - 5)) /\
  Latched.segment segs i a (fresh (ty :: sig ++ rest))
  = Ok (i, Acc (loopStart a) (loopLength a) (headerFound a || bytes_eqb sig vorb))
       (Latched.ErrReader rest (Some (ErrSkippingBytes (int (nth i segs x00) - 5)))).
Proof.
  intros Hsig Hother Hshort. unfold Early.segment, Latched.segment.
  rewrite (bind_Ok _ _ _ _ _ (Early_readByte_cons _ _)).
  rewrite (bind_Ok _ _ _ _ _ (Latched_ReadByte_cons _ _)).
  replace (Early.readFull 4) with (Early.readFull (length sig)) by now rewrite Hsig.
  replace (Latched.ReadBytes 4) with (Latched.ReadBytes (Z.of_nat (length sig)))
    by now rewrite Hsig.
  rewrite (bind_Ok _ _ _ _ _ (Early_readFull_app sig rest)).
  rewrite (bind_Ok _ _ _ _ _ (Latched_ReadBytes_app sig rest)).
  destruct (skip_negative (int (nth i segs x00) - 5) rest ltac:(lia)) as [HE HL].
  destruct (bytes_eqb sig vorb) eqn:Hv; cbn [negb].
  - apply bytes_eqb_eq in Hv.
    destruct Hother as [Hother|Hother]; [congruence|].
    destruct (Z.eqb_spec (int ty) 3); [lia|]. cbn [negb].
    unfold bind at 1. rewrite HE. rewrite (bind_Ok _ _ _ _ _ HL).
    now rewrite orb_true_r.
  - unfold bind at 1. rewrite HE. rewrite (bind_Ok _ _ _ _ _ HL).
    rewrite orb_false_r. now destruct a.
Qed.

(** X14: a page that holds, after whole pages with a header each and
    after whole segments of its own, a segment that is not the comment
    header at a table entry [t] below 5 (the last segment of a packet of
    258 bytes, say), with the five bytes there that are read to classify
    it: the skip of the rest of the segment has the negative length
    [t - 5], and [Read] fails.  The version of src/oggloop.go returns 0, 0
    and the error of the skip; the [errReader] version returns that error
    with the values of the comment packets read so far. *)
Theorem short_segment_is_an_error
        (ps : list ogg_page) (p : ogg_page) (t : byte) (tail : list byte)
        (ty : byte) (sig rest : list byte) :
  Forall page_ok ps ->
  Forall (fun q => has_header q = true) ps ->
  length (fixed p) = 22%nat ->
  Forall item_ok (items p) ->
  (length (table (items p) ++ t :: tail) <= 255)%nat ->
  int t < 5 ->
  length sig = 4%nat ->
  sig <> vorb \/ int ty <> 3 ->
  Early.Read (flat_map encode_page ps ++ page_going_on p t tail (ty :: sig ++ rest))
  = Returned 0 0 (Some (ErrSkipByte (int t - 5))) /\
  Latched.Read (flat_map encode_page ps ++ page_going_on p t tail (ty :: sig ++ rest))
  = Returned (fst (fold_left after_page (ps ++ [p]) (0, 0)))
             (snd (fold_left after_page (ps ++ [p]) (0, 0)))
             (Some (ErrSkippingBytes (int t - 5))).
Proof.
  intros Hps Hhdr Hfixed Hitems Htable Ht Hsig Hother.
  set (data := ty :: sig ++ rest).
  set (src := flat_map encode_page ps ++ page_going_on p t tail data).
  set (tbl := table (items p) ++ t :: tail) in *.
  pose proof (laid_out_length ps (page_going_on p t tail data)) as Hlen.
  fold src in Hlen.
  assert (Hnth : nth (length (table (items p))) tbl x00 = t).
  { unfold tbl. apply nth_middle. }
  assert (Hin : (length (table (items p)) < length tbl)%nat).
  { unfold tbl. rewrite length_app. cbn [length]. lia. }
  assert (Hfuel : exists k, length tbl = (length (items p) + S k)%nat).
  { exists (length tbl - length (items p) - 1)%nat.
    pose proof (table_length (items p)). lia. }
  destruct Hfuel as [k Hk].
  destruct (segments_after_items (items p) Hitems (S k) [] (t :: tail)
              (Acc (fst (fold_left after_page ps (0, 0)))
                   (snd (fold_left after_page ps (0, 0))) false) data)
    as [HsegsE HsegsL].
  cbn [app length] in HsegsE, HsegsL. fold tbl in HsegsE, HsegsL.
  rewrite <- Hk in HsegsE, HsegsL.
  set (a := fold_left after_item (items p)
              (Acc (fst (fold_left after_page ps (0, 0)))
                   (snd (fold_left after_page ps (0, 0))) false)) in *.
  destruct (segment_short_other tbl (length (table (items p))) a ty sig rest
              Hsig Hother ltac:(now rewrite Hnth)) as [HshortE HshortL].
  rewrite Hnth in HshortE, HshortL. fold data in HshortE, HshortL.
  set (rd := Latched.ErrReader rest (Some (ErrSkippingBytes (int t - 5)))) in *.
  assert (Hrd : Latched.err rd <> None) by discriminate.
  assert (HpageE : Early.page (fst (fold_left after_page ps (0, 0)))
                     (snd (fold_left after_page ps (0, 0)))
                     (fixed p ++ byte_of (length tbl) :: tbl
                      ++ flat_map content (items p) ++ data)
                   = Err (ErrSkipByte (int t - 5))).
  { unfold Early.page.
    change (26 - 4) with (Z.of_nat 22). rewrite <- Hfixed.
    rewrite (bind_Ok _ _ _ _ _ (Early_skip_app _ _)).
    rewrite (bind_Ok _ _ _ _ _ (Early_readByte_cons _ _)).
    rewrite int_byte_of, Nat2Z.id by assumption.
    rewrite (bind_Ok _ _ _ _ _ (Early_readFull_app _ _)).
    rewrite HsegsE. cbn [Early.segments].
    apply Nat.ltb_lt in Hin. rewrite Hin.
    unfold bind. now rewrite HshortE. }
  assert (HpageL : Latched.page (fst (fold_left after_page ps (0, 0)))
                     (snd (fold_left after_page ps (0, 0)))
                     (fresh (fixed p ++ byte_of (length tbl) :: tbl
                             ++ flat_map content (items p) ++ data))
                   = Ok (Acc (loopStart a) (loopLength a)
                             (headerFound a || bytes_eqb sig vorb)) rd).
  { unfold Latched.page.
    pose proof (follows_skip (Z.of_nat (length (fixed p)))
                  (fixed p ++ byte_of (length tbl) :: tbl
                   ++ flat_map content (items p) ++ data)) as Hskip.
    rewrite Early_skip_app in Hskip.
    change (26 - 4) with (Z.of_nat 22). rewrite <- Hfixed.
    rewrite (bind_Ok _ _ _ _ _ Hskip).
    rewrite (bind_Ok _ _ _ _ _ (Latched_ReadByte_cons _ _)).
    rewrite int_byte_of by assumption.
    rewrite (bind_Ok _ _ _ _ _ (Latched_ReadBytes_app _ _)).
    rewrite HsegsL. cbn [Latched.segments].
    apply Nat.ltb_lt in Hin. rewrite Hin.
    rewrite (bind_Ok _ _ _ _ _ HshortL).
    apply (Latched_segments_latched k tbl _ rd Hrd).
    pose proof (table_length (items p)). lia. }
  unfold Early.Read, Latched.Read. fold (fresh src).
  replace (S (length src)) with (length ps + S (length src - length ps))%nat by lia.
  replace (S (length ps + S (length src - length ps)))
    with (length ps + S (S (length src - length ps)))%nat by lia.
  destruct (pages_after_pages ps Hps Hhdr (S (length src - length ps)) 0 0
              (page_going_on p t tail data)) as [HE _].
  destruct (pages_after_pages ps Hps Hhdr (S (S (length src - length ps))) 0 0
              (page_going_on p t tail data)) as [_ HL].
  fold src in HE, HL. rewrite HE, HL. clear HE HL.
  unfold page_going_on. fold tbl. split.
  - cbn [Early.pages].
    rewrite (bind_Ok _ _ _ _ _ (Early_readFull_app OggS _)).
    rewrite bytes_eqb_refl. cbn [negb].
    unfold bind. now rewrite HpageE.
  - cbn [Latched.pages].
    rewrite (bind_Ok _ _ _ _ _ (Latched_ReadBytes_app OggS _)).
    rewrite bytes_eqb_refl. cbn [negb].
    rewrite (bind_Ok _ _ _ _ _ HpageL). cbn [headerFound loopStart loopLength].
    rewrite fold_left_app. cbn [fold_left]. unfold after_page at 1 3. fold a.
    cbn [fst snd].
    destruct (negb (headerFound a || bytes_eqb sig vorb)); [reflexivity|].
    rewrite (bind_Ok _ _ _ _ _ (Latched_ReadBytes_latched 4 rd Hrd ltac:(lia))).
    reflexivity.
Qed.

Lemma short_segment_is_an_error_witness :
  Early.Read (flat_map encode_page [identification_page]
              ++ page_going_on comment_and_setup x03 []
                   (x00 :: bytes "abcd" ++ encode_page audio_page))
  = Returned 0 0 (Some (ErrSkipByte (int x03 - 5))) /\
  Latched.Read (flat_map encode_page [identification_page]
                ++ page_going_on comment_and_setup x03 []
                     (x00 :: bytes "abcd" ++ encode_page audio_page))
  = Returned (fst (fold_left after_page ([identification_page] ++ [comment_and_setup]) (0, 0)))
             (snd (fold_left after_page ([identification_page] ++ [comment_and_setup]) (0, 0)))
             (Some (ErrSkippingBytes (int x03 - 5))).
Proof.
  apply (short_segment_is_an_error [identification_page] comment_and_setup x03 []
           x00 (bytes "abcd") (encode_page audio_page)).
  - framing.
  - framing.
  - reflexivity.
  - framing.
  - vm_compute. lia.
  - vm_compute. reflexivity.
  - reflexivity.
  - left. vm_compute. discriminate.
Defined.
